(** * Joint dual-stream beam search of the dual-decoder speech translation model

    A shallow embedding of [E2EDualDecoder.recognize_and_translate_sum]
    (espnet/nets/pytorch_backend/e2e_st_transformer_dual.py) together with the
    properties of its search controller, followed by the parameter checks of
    the constructor of the same class and by the state-dict functions of
    espnet/asr/pytorch_backend/asr_init.py that prepare the transfer of
    trained modules.

    Modelling conventions.
    - Python [float] values (scores, penalties, length ratios) are idealised
      as rationals [Q]; rounding is outside the model.
    - Python [int] values are [Z]; token ids are [Z].
    - Python objects that the method mutates in place (the hypothesis dicts
      and their token lists) live in an explicit heap and are referred to by
      address, so that aliasing between hypotheses is visible.
    - Python exceptions are the [Err] results of a small error monad.
    - The neural step decoder [dual_decoder.forward_one_step] and the helper
      [end_detect] are collaborators defined outside the embedded file; they
      are parameters of the development.
    - The start tokens [y] and [y_asr] that the preamble of the method
      derives from the model and [char_list] are attributes of the model
      record of the search; the preamble itself is [start_tokens], which
      [recognize_and_translate_sum_call] runs before the search.
    - [torch.topk] leaves the order of equal scores open; the model takes
      the smaller position first.
    - Logging itself is omitted, but the indexing that the logging calls
      evaluate ([char_list[..]], [hyps[0]]) is kept, because it can raise.
    - A state dict is an association list in insertion order; of a tensor
      only the shape is read, its data stand for its identity. *)

From Stdlib Require Import QArith Qround ZArith Lia Sorted Permutation Ascii
  String.
From stdpp Require Import base list.

Local Open Scope Z_scope.

(** ** Python-level primitives *)

Module Py.

(** Exceptions that the embedded method can raise. *)
Inductive pyerr : Type :=
  | IndexError
  | KeyError
  | TypeError
  | AssertionError
  | AttributeError
  | ZeroDivisionError
  | UnboundLocalError
  | NotImplementedError
  | RuntimeError
  | RecursionError
  | ValueError.

Inductive res (A : Type) : Type :=
  | Ok (a : A)
  | Err (e : pyerr).
Arguments Ok {A} a.
Arguments Err {A} e.

Definition bind {A B : Type} (m : res A) (k : A -> res B) : res B :=
  match m with
  | Ok a => k a
  | Err e => Err e
  end.

(** [int(q)]: truncation toward zero. *)
Definition py_int (q : Q) : Z :=
  if Qle_bool 0 q then Qfloor q else Qceiling q.

(** [l[:n]] with Python's treatment of a negative stop. *)
Definition slice_to {A : Type} (n : Z) (l : list A) : list A :=
  if 0 <=? n then take (Z.to_nat n) l
  else take (length l - Z.to_nat (- n))%nat l.

(** [l[-1]]. *)
Definition last_item {A : Type} (l : list A) : res A :=
  match last l with
  | Some x => Ok x
  | None => Err IndexError
  end.

(** [l[j]] for a non-negative index. *)
Definition item {A : Type} (l : list A) (j : nat) : res A :=
  match l !! j with
  | Some x => Ok x
  | None => Err IndexError
  end.

(** [l[int(x)]] for any integer index: negative indices count from the
    end. *)
Definition char_at {A : Type} (l : list A) (x : Z) : res A :=
  if 0 <=? x then item l (Z.to_nat x)
  else if - Z.of_nat (length l) <=? x
       then item l (Z.to_nat (Z.of_nat (length l) + x))
       else Err IndexError.

Definition Qlt_bool (a b : Q) : bool := negb (Qle_bool b a).

(** [max(a, b)] on floats: [b] when it is strictly larger, else [a]. *)
Definition py_max (a b : Q) : Q := if Qlt_bool a b then b else a.

(** [sorted(l, key=key, reverse=True)]: a stable sort in descending order
    of [key]; elements with equal keys keep their original order. *)
Section Sorted.
Context {A : Type} (key : A -> Q).

Fixpoint insert_desc (x : A) (l : list A) : list A :=
  match l with
  | [] => [x]
  | y :: l' =>
      if Qlt_bool (key x) (key y) then y :: insert_desc x l'
      else x :: y :: l'
  end.

Definition sorted_desc (l : list A) : list A :=
  foldr insert_desc [] l.
End Sorted.

(** The elements of [l] paired with their positions. *)
Definition enumerate {A : Type} (l : list A) : list (nat * A) :=
  zip (seq 0 (length l)) l.

(** [v.topk(k)] on a one-dimensional tensor: the [k] largest values in
    descending order together with their positions.  Ties are resolved
    toward the smaller position.  torch raises when [k] exceeds the number
    of elements. *)
Definition topk (k : Z) (v : list Q) : res (list Q * list nat) :=
  if (k <? 0) || (Z.of_nat (length v) <? k) then Err RuntimeError
  else
    let s := take (Z.to_nat k) (sorted_desc snd (enumerate v)) in
    Ok (map snd s, map fst s).

End Py.

Import Py.

Notation "'do' x <- m ; k" := (bind m (fun x => k))
  (at level 10, x name, m at level 100, k at level 200, only parsing).
Notation "'do' ' p <- m ; k" := (bind m (fun x => let 'p := x in k))
  (at level 10, p pattern, m at level 100, k at level 200, only parsing).

Fixpoint mapM {A B : Type} (f : A -> res B) (l : list A) : res (list B) :=
  match l with
  | [] => Ok []
  | a :: l' => do b <- f a; do bs <- mapM f l'; Ok (b :: bs)
  end.

(** ** Data model *)

(** A hypothesis dict [{'score': .., 'yseq': .., 'yseq_asr': ..}].  The two
    token lists are Python list objects; the dict holds references to them. *)
Record hyp : Type := Hyp {
  score : Q;
  yseq : nat;
  yseq_asr : nat
}.

(** The part of the Python heap the search touches: hypothesis dicts and
    token lists, each addressed by its allocation index. *)
Record heap : Type := Heap {
  dicts : list hyp;
  lists : list (list Z)
}.

(** What a caller reads through a hypothesis reference. *)
Record hyp_val : Type := HypVal {
  v_score : Q;
  v_yseq : list Z;
  v_yseq_asr : list Z
}.

Definition empty_heap : heap := Heap [] [].

Definition new_list (l : list Z) (h : heap) : nat * heap :=
  (length (lists h), Heap (dicts h) (lists h ++ [l])).

Definition new_dict (d : hyp) (h : heap) : nat * heap :=
  (length (dicts h), Heap (dicts h ++ [d]) (lists h)).

(** Dereferencing.  An address outside the heap is reported as [KeyError];
    the search only uses addresses it obtained from an allocation. *)
Definition load_list (r : nat) (h : heap) : res (list Z) :=
  match lists h !! r with
  | Some l => Ok l
  | None => Err KeyError
  end.

Definition load_dict (a : nat) (h : heap) : res hyp :=
  match dicts h !! a with
  | Some d => Ok d
  | None => Err KeyError
  end.

(** [lst.append(x)] on the list object at [r]. *)
Definition list_append (r : nat) (x : Z) (h : heap) : heap :=
  Heap (dicts h) (alter (fun l => l ++ [x]) r (lists h)).

(** [hyp['score'] += q] on the dict at [a]. *)
Definition add_score (a : nat) (q : Q) (h : heap) : heap :=
  Heap (alter (fun d => Hyp (score d + q)%Q (yseq d) (yseq_asr d)) a (dicts h))
       (lists h).

Definition score_at (h : heap) (a : nat) : Q :=
  match dicts h !! a with
  | Some d => score d
  | None => 0%Q
  end.

Definition deref (h : heap) (a : nat) : res hyp_val :=
  do d <- load_dict a h;
  do ys <- load_list (yseq d) h;
  do ys_asr <- load_list (yseq_asr d) h;
  Ok (HypVal (score d) ys ys_asr).

(** The [trans_args] namespace (search options). *)
Record trans_args : Type := TransArgs {
  beam_size : Z;
  penalty : Q;
  maxlenratio : Q;
  maxlenratio_asr : Q;
  minlenratio : Q;
  minlenratio_asr : Q;
  nbest : Z
}.

(** The remaining arguments of [recognize_and_translate_sum]. *)
Record call_args : Type := CallArgs {
  char_list : option (list string);
  rnnlm : bool;
  use_jit : bool;
  decode_asr_weight : Q;
  score_is_prob : bool;
  ratio_diverse_st : Q;
  ratio_diverse_asr : Q;
  debug : bool
}.

(** The defaults of the signature, for given positional [char_list], [rnnlm]. *)
Definition default_call_args (cl : option (list string)) (lm : bool)
  : call_args :=
  CallArgs cl lm false 1%Q false 0%Q 0%Q false.

(** Attributes of the model object that the search reads.  [y_sos] and
    [y_asr_sos] are the start tokens [y], [y_asr] computed in the preamble of
    the method (either [self.sos] or a language tag). *)
Record model : Type := Model {
  do_asr : bool;
  eos : Z;
  y_sos : Z;
  y_asr_sos : Z;
  wait_k_asr : Z;
  wait_k_st : Z
}.

(** ** Wait-k self-mask length (lines 535-550) *)

(** The argument passed to [subsequent_mask] for a stream whose partner
    stream has lag [wait_k], at decode step [i]. *)
Definition self_mask_len (wait_k i : Z) : Z :=
  if 0 <? wait_k then
    if i <? wait_k then 1 else i - wait_k + 1
  else i + 1.

(** ** Joint selection with diversity forcing (lines 573-640) *)

(** [S[a][b] = xk[a] + yk[b]]. *)
Definition outer_sum (xk yk : list Q) : list (list Q) :=
  map (fun x => map (fun y => (x + y)%Q) yk) xk.

(** [s2v] after [reshape(beam, beam, 2)]. *)
Definition s2v (ixk iyk : list nat) : list (list (nat * nat)) :=
  map (fun a => map (fun b => (a, b)) iyk) ixk.

(** [M[:cr, :ct]]; [None] stands for the full span [:]. *)
Definition span {A : Type} (c : option Z) (l : list A) : list A :=
  match c with
  | Some n => slice_to n l
  | None => l
  end.

Definition submatrix {A : Type} (cr ct : option Z) (M : list (list A))
  : list (list A) :=
  map (span ct) (span cr M).

(** What a selection branch leaves in [local_best_scores],
    [local_best_ids_st] and [local_best_ids_asr]. *)
Record selection : Type := Selection {
  local_best_scores : list Q;
  local_best_ids_st : list Z;
  local_best_ids_asr : list Z
}.

(** [Sc.flatten().topk(beam)] followed by [I = s2v[..].reshape(-1, 2)[id2k]],
    for a beam of at least 1: with an empty beam [s2v] is not a table of
    pairs. *)
Definition restricted_topk (beam : Z) (cr ct : option Z)
    (xk : list Q) (ixk : list nat) (yk : list Q) (iyk : list nat)
  : res selection :=
  let Sc := submatrix cr ct (outer_sum xk yk) in
  let I := submatrix cr ct (s2v ixk iyk) in
  do '(best, id2k) <- topk beam (concat Sc);
  do I' <- mapM (item (concat I)) id2k;
  Ok (Selection best (map (fun p => Z.of_nat (fst p)) I')
                     (map (fun p => Z.of_nat (snd p)) I')).

(** Retained spans. *)
Definition retained (ratio : Q) (beam : Z) : Z :=
  py_int ((1 - ratio) * inject_Z beam)%Q.

(** [ct = max(ct, math.ceil(beam // cr))]: the floor division is evaluated
    first, and [math.ceil] of an [int] is the identity. *)
Definition widened_ct (ct cr beam : Z) : res Z :=
  if cr =? 0 then Err ZeroDivisionError
  else Ok (Z.max ct (beam / cr)).

Definition select_joint (ratio_st ratio_asr : Q) (beam : Z)
    (lst lasr : list Q) : res selection :=
  do '(xk, ixk) <- topk beam lst;
  do '(yk, iyk) <- topk beam lasr;
  if Qle_bool ratio_st 0 && Qle_bool ratio_asr 0 then
    restricted_topk beam None None xk ixk yk iyk
  else if Qlt_bool 0 ratio_st && Qle_bool ratio_asr 0 then
    let ct := retained ratio_st beam in
    restricted_topk beam None (Some ct) xk ixk yk iyk
  else if Qlt_bool 0 ratio_asr && Qle_bool ratio_st 0 then
    let cr := retained ratio_asr beam in
    restricted_topk beam (Some cr) None xk ixk yk iyk
  else if Qlt_bool 0 ratio_st && Qlt_bool 0 ratio_asr then
    let cr := retained ratio_asr beam in
    let ct := retained ratio_st beam in
    do ct <- widened_ct ct cr beam;
    restricted_topk beam (Some cr) (Some ct) xk ixk yk iyk
  else Err UnboundLocalError.

(** The [if / elif / elif / else] over which distributions are present. *)
Definition select (ratio_st ratio_asr : Q) (beam : Z)
    (lst lasr : option (list Q)) : res selection :=
  match lst, lasr with
  | Some a, Some b => select_joint ratio_st ratio_asr beam a b
  | Some a, None =>
      do '(best, ids) <- topk beam a;
      Ok (Selection best (map Z.of_nat ids) [])
  | None, Some b =>
      do '(best, ids) <- topk beam b;
      Ok (Selection best [] (map Z.of_nat ids))
  | None, None => Err NotImplementedError
  end.

(** ** The search loop (lines 499-743) *)

(** A local variable holding a decoder distribution: not yet assigned,
    or bound to [None] or to a score vector. *)
Inductive local : Type :=
| Unbound
| Bound (v : option (list Q)).

(** Why one pass through the body of the [for] loop ended. *)
Inductive outcome : Type :=
| Continue
| EndDetected      (* [break] at line 712 *)
| NoHypothesis.    (* [break] at line 719 *)

Record state : Type := State {
  st_heap : heap;
  hyps : list nat;
  ended_hyps : list nat;
  local_att_scores : local;
  local_att_scores_asr : local
}.

Section Search.

(** The model object, the encoder output length [h.size(0)] for the
    utterance, the step decoder applied to [ys], the length of [ys_mask],
    [ys_asr] and the length of [ys_mask_asr] (encoder output, cross masks
    and coupling options are determined by these and the model), and
    [end_detect] applied to the ended hypotheses and the step index. *)
Variable M : model.
Variable enc_len : Z.
Variable forward_one_step : list Z -> Z -> list Z -> Z -> list Q * list Q.
Variable end_detect : list hyp_val -> Z -> bool.

Definition maxlen_of (ratio : Q) : Z :=
  if Qeq_bool ratio 0 then enc_len
  else Z.max 1 (py_int (ratio * inject_Z enc_len)%Q).

Definition minlen_of (ratio : Q) : Z :=
  py_int (ratio * inject_Z enc_len)%Q.

Section Step.

Variable ta : trans_args.
Variable ca : call_args.

Let beam := beam_size ta.
Let maxlen := maxlen_of (maxlenratio ta).
Let maxlen_asr := maxlen_of (maxlenratio_asr ta).
Let minlen := minlen_of (minlenratio ta).
Let minlen_asr := minlen_of (minlenratio_asr ta).

(** Lines 651-657 (and 659-665 for the other stream): the token list of
    the new hypothesis.  [wait_k] is the lag of the partner stream. *)
Definition extend (scores : option (list Q)) (ids : list Z) (j : nat)
    (wait_k i : Z) (parent : nat) (ys : list Z) (h : heap)
  : res (nat * heap) :=
  match scores with
  | Some _ =>
      do tok <- item ids j;
      Ok (new_list (ys ++ [tok]) h)
  | None =>
      if wait_k <=? i then Ok (new_list (ys ++ [eos M]) h)
      else Ok (parent, h)
  end.

(** Lines 642-670: the loop over [j] for one parent hypothesis [d]. *)
Fixpoint expand (js : list nat) (i : Z) (d : hyp) (ys ys_asr : list Z)
    (lst lasr : option (list Q)) (sel : selection)
    (h : heap) (hyps_best_kept : list nat) : res (heap * list nat) :=
  match js with
  | [] => Ok (h, hyps_best_kept)
  | j :: js' =>
      do s <- item (local_best_scores sel) j;
      do '(r, h1) <- extend lst (local_best_ids_st sel) j
                       (wait_k_asr M) i (yseq d) ys h;
      do '(r_asr, h2) <- extend lasr (local_best_ids_asr sel) j
                           (wait_k_st M) i (yseq_asr d) ys_asr h1;
      let '(new_hyp, h3) := new_dict (Hyp (score d + s)%Q r r_asr) h2 in
      expand js' i d ys ys_asr lst lasr sel h3
        (slice_to beam
           (sorted_desc (score_at h3) (hyps_best_kept ++ [new_hyp])))
  end.

(** Lines 534-670 for one hypothesis of the beam.  With a language
    model the initial hypothesis has no ['yseq_asr'] entry (line 520),
    and it is the only hypothesis that is ever expanded then; with
    [use_jit] the method reads [self.decoder], which the class never
    sets. *)
Definition expand_hyp (i : Z) (a : nat) (h : heap)
    (hyps_best_kept : list nat) (l l_asr : local)
  : res (heap * list nat * local * local) :=
  do d <- load_dict a h;
  do ys <- load_list (yseq d) h;
  if rnnlm ca then Err KeyError
  else
  do ys_asr <- load_list (yseq_asr d) h;
  if use_jit ca then Err AttributeError
  else
    do e <- last_item ys;
    do e_asr <- last_item ys_asr;
    let '(l, l_asr) :=
      if negb (e =? eos M) || negb (e_asr =? eos M) || (i <? 2) then
        let '(s, s_asr) :=
          forward_one_step ys (self_mask_len (wait_k_asr M) i)
                           ys_asr (self_mask_len (wait_k_st M) i) in
        (Bound (Some s), Bound (Some s_asr))
      else (l, l_asr) in
    let l :=
      if ((e =? eos M) && (2 <? i)) || (i <? wait_k_asr M)
      then Bound None else l in
    let l_asr :=
      if ((e_asr =? eos M) && (2 <? i)) || (i <? wait_k_st M)
      then Bound None else l_asr in
    match l, l_asr with
    | Bound lst, Bound lasr =>
        do sel <- select (ratio_diverse_st ca) (ratio_diverse_asr ca)
                    beam lst lasr;
        do '(h', kept) <- expand (seq 0 (Z.to_nat beam)) i d ys ys_asr
                            lst lasr sel h hyps_best_kept;
        Ok (h', kept, l, l_asr)
    | _, _ => Err UnboundLocalError
    end.

(** Lines 532-673: the loop over the beam. *)
Fixpoint expand_all (i : Z) (hs : list nat) (h : heap)
    (hyps_best_kept : list nat) (l l_asr : local)
  : res (heap * list nat * local * local) :=
  match hs with
  | [] => Ok (h, hyps_best_kept, l, l_asr)
  | a :: hs' =>
      do '(h', kept, l', l_asr') <- expand_hyp i a h hyps_best_kept l l_asr;
      expand_all i hs' h' kept l' l_asr'
  end.

(** Lines 681-690: [if hyp[field][-1] != self.eos: hyp[field].append(eos)]
    for every hypothesis of the beam, in place. *)
Fixpoint force_eos (field : hyp -> nat) (hs : list nat) (h : heap)
  : res heap :=
  match hs with
  | [] => Ok h
  | a :: hs' =>
      do d <- load_dict a h;
      do l <- load_list (field d) h;
      do e <- last_item l;
      force_eos field hs'
        (if e =? eos M then h else list_append (field d) (eos M) h)
  end.

(** [lst[-1] == self.eos] for the list object at [r]. *)
Definition ends_with_eos (r : nat) (h : heap) : res bool :=
  do l <- load_list r h;
  do e <- last_item l;
  Ok (e =? eos M).

(** [len(lst)] for the list object at [r]. *)
Definition list_len (r : nat) (h : heap) : res Z :=
  do l <- load_list r h;
  Ok (Z.of_nat (length l)).

(** Lines 694-707. *)
Fixpoint partition (i : Z) (hs : list nat) (h : heap)
    (ended remained : list nat) : res (heap * list nat * list nat) :=
  match hs with
  | [] => Ok (h, ended, remained)
  | a :: hs' =>
      do d <- load_dict a h;
      do b <- ends_with_eos (yseq d) h;
      do b_asr <- (if b then ends_with_eos (yseq_asr d) h else Ok false);
      if b && b_asr then
        do n <- list_len (yseq d) h;
        do n_asr <- list_len (yseq_asr d) h;
        if (minlen <? n) && (minlen_asr <? n_asr) then
          partition i hs'
            (add_score a (inject_Z (i + 1) * penalty ta)%Q h)
            (ended ++ [a]) remained
        else partition i hs' h ended remained
      else partition i hs' h ended (remained ++ [a])
  end.

(** [[char_list[int(x)] for x in hyp[..][skip:]]], evaluated for a log
    message. *)
Definition log_tokens (cl : list string) (r : nat) (skip : nat) (h : heap)
  : res unit :=
  do l <- load_list r h;
  do _ <- mapM (char_at cl) (drop skip l);
  Ok tt.

(** Lines 676-678: the message about [hyps[0]]. *)
Definition log_best (kept : list nat) (h : heap) : res unit :=
  match char_list ca with
  | None => Ok tt
  | Some cl =>
      do a <- item kept 0;
      do d <- load_dict a h;
      do _ <- log_tokens cl (yseq d) 0 h;
      log_tokens cl (yseq_asr d) 0 h
  end.

(** Lines 721-724: the messages about the remaining hypotheses. *)
Fixpoint log_remained (cl : list string) (hs : list nat) (h : heap)
  : res unit :=
  match hs with
  | [] => Ok tt
  | a :: hs' =>
      do d <- load_dict a h;
      do _ <- log_tokens cl (yseq d) 1 h;
      do _ <- log_tokens cl (yseq_asr d) 1 h;
      log_remained cl hs' h
  end.

(** One pass through the body of the [for] loop (lines 530-726). *)
Definition step (i : Z) (st : state) : res (outcome * state) :=
  do '(h1, kept, l, l_asr) <-
    expand_all i (hyps st) (st_heap st) []
      (local_att_scores st) (local_att_scores_asr st);
  do _ <- log_best kept h1;
  do h2 <- (if i =? maxlen - 1 then force_eos yseq kept h1 else Ok h1);
  do h3 <- (if i =? maxlen_asr - 1 then force_eos yseq_asr kept h2
            else Ok h2);
  do '(h4, ended, remained) <- partition i kept h3 (ended_hyps st) [];
  do vals <- mapM (deref h4) ended;
  if end_detect vals i && Qeq_bool (maxlenratio ta) 0 then
    Ok (EndDetected, State h4 kept ended l l_asr)
  else if (length remained =? 0)%nat then
    Ok (NoHypothesis, State h4 remained ended l l_asr)
  else
    do _ <- (match char_list ca with
             | None => Ok tt
             | Some cl => log_remained cl remained h4
             end);
    Ok (Continue, State h4 remained ended l l_asr).

(** [for i in range(n0 + n)], entered at [i]. *)
Fixpoint loop (n : nat) (i : Z) (st : state) : res state :=
  match n with
  | O => Ok st
  | S n' =>
      do '(o, st') <- step i st;
      match o with
      | Continue => loop n' (i + 1) st'
      | _ => Ok st'
      end
  end.

(** Lines 518-526. *)
Definition init_state : state :=
  let '(r, h1) := new_list [y_sos M] empty_heap in
  let '(r_asr, h2) := new_list [y_asr_sos M] h1 in
  let '(a, h3) := new_dict (Hyp 0 r r_asr) h2 in
  State h3 [a] [] Unbound Unbound.

(** Lines 469-729: the method up to the n-best extraction.  The two
    start tokens are looked up in [char_list] for a log message. *)
Definition search : res state :=
  if negb (do_asr M) then Err AssertionError
  else
    match char_list ca with
    | None => Err TypeError
    | Some cl =>
        do _ <- char_at cl (y_sos M);
        do _ <- char_at cl (y_asr_sos M);
        loop (Z.to_nat (Z.max maxlen maxlen_asr)) 0 init_state
    end.

(** Lines 728-729. *)
Definition nbest_hyps (st : state) : list nat :=
  slice_to (Z.min (Z.of_nat (length (ended_hyps st))) (nbest ta))
    (sorted_desc (score_at (st_heap st)) (ended_hyps st)).

End Step.

(** Lines 735-737: the namespace handed to the retry. *)
Definition relaxed (ta : trans_args) : trans_args :=
  TransArgs (beam_size ta) (penalty ta) (maxlenratio ta) (maxlenratio_asr ta)
    (py_max 0 (minlenratio ta - (1 # 10)))%Q
    (py_max 0 (minlenratio_asr ta - (1 # 10)))%Q
    (nbest ta).

(** Line 738: [self.recognize_and_translate_sum(x, trans_args, char_list,
    rnnlm)]. *)
Definition retry_args (ca : call_args) : call_args :=
  default_call_args (char_list ca) (rnnlm ca).

(** The method.  [depth] bounds the nesting of the recursive call, as the
    interpreter's recursion limit does.  The hypotheses of the result are
    returned as the caller reads them; their lists are not empty, so the
    division by [len(nbest_hyps[0]['yseq'])] in the last log message is
    defined. *)
Fixpoint recognize_and_translate_sum (depth : nat) (ta : trans_args)
    (ca : call_args) : res (list hyp_val) :=
  match depth with
  | O => Err RecursionError
  | S depth' =>
      do st <- search ta ca;
      let nb := nbest_hyps ta st in
      if (length nb =? 0)%nat then
        recognize_and_translate_sum depth' (relaxed ta) (retry_args ca)
      else mapM (deref (st_heap st)) nb
  end.

End Search.

(** ** The method from its first line (lines 469-490) *)

(** The attributes of the model object that the method reads. *)
Record decoder_object : Type := DecoderObject {
  obj_do_asr : bool;
  obj_sos : Z;
  obj_eos : Z;
  obj_wait_k_asr : Z;
  obj_wait_k_st : Z;
  obj_replace_sos : bool;
  obj_one_to_many : bool;
  obj_lang_tok : option string
}.

(** The attributes of [trans_args] that the preamble reads: [tgt_lang]
    as [getattr(trans_args, "tgt_lang", False)] gives it ([None] for an
    absent attribute, [None] or [False]) and [config] ([None] for [None]). *)
Record lang_args : Type := LangArgs {
  tgt_lang : option string;
  config : option string
}.

(** [bool(x)] for [x] a string, [None] or [False]. *)
Definition str_truthy (x : option string) : bool :=
  match x with
  | Some s => negb (String.eqb s "")
  | None => false
  end.

(** [x == s] for [x] a string or [None]. *)
Definition is_str (x : option string) (s : string) : bool :=
  match x with
  | Some t => String.eqb t s
  | None => false
  end.

(** [s.split(c)] for a separator of one character. *)
Fixpoint split_on (c : Ascii.ascii) (s : string) : list string :=
  match s with
  | EmptyString => [EmptyString]
  | String a s' =>
      if Ascii.eqb a c then EmptyString :: split_on c s'
      else match split_on c s' with
           | p :: ps => String a p :: ps
           | [] => [String a EmptyString]
           end
  end.

(** [char_list.index(x)]. *)
Fixpoint index_from (n : nat) (l : list string) (x : string) : res Z :=
  match l with
  | [] => Err ValueError
  | y :: l' =>
      if String.eqb y x then Ok (Z.of_nat n) else index_from (S n) l' x
  end.

Definition list_index (cl : option (list string)) (x : string) : res Z :=
  match cl with
  | None => Err AttributeError
  | Some l => index_from 0 l x
  end.

(** ['<2{}>'.format(trans_args.config.split('.')[-2].split('-')[pick])]
    (lines 481 and 485). *)
Definition lang_tag (cfg : option string) (pick : Z) : res string :=
  match cfg with
  | None => Err AttributeError
  | Some c =>
      do stem <- char_at (split_on "."%char c) (-2);
      do code <- char_at (split_on "-"%char stem) pick;
      Ok ("<2" ++ code ++ ">")%string
  end.

(** Whether the preamble calls [char_list.index]. *)
Definition indexes_char_list (obj : decoder_object) (la : lang_args) : bool :=
  (str_truthy (tgt_lang la) && obj_replace_sos obj)
  || (obj_one_to_many obj && is_str (obj_lang_tok obj) "decoder-pre").

(** Lines 474-490: the start tokens [y] and [y_asr].  The value that
    line 476 gives [y] is overwritten in both branches of line 480. *)
Definition start_tokens (obj : decoder_object) (la : lang_args)
    (cl : option (list string)) : res (Z * Z) :=
  do _ <- (if str_truthy (tgt_lang la) then
             if obj_replace_sos obj then
               match tgt_lang la with
               | Some t => list_index cl t
               | None => Ok (obj_sos obj)
               end
             else Ok (obj_sos obj)
           else Ok (obj_sos obj));
  if obj_one_to_many obj && is_str (obj_lang_tok obj) "decoder-pre" then
    do tgt_lang_id <- lang_tag (config la) (-1);
    do y <- list_index cl tgt_lang_id;
    do src_lang_id <- lang_tag (config la) 0;
    do y_asr <- list_index cl src_lang_id;
    Ok (y, y_asr)
  else Ok (obj_sos obj, obj_sos obj).

(** The method from line 469 on.  The retry re-enters the method with the
    same object, the same [char_list] and a copy of [trans_args], so that
    its assertion and its preamble give what they gave in the call; they are
    evaluated once here. *)
Definition recognize_and_translate_sum_call (obj : decoder_object)
    (la : lang_args) (enc_len : Z)
    (forward_one_step : list Z -> Z -> list Z -> Z -> list Q * list Q)
    (end_detect : list hyp_val -> Z -> bool)
    (depth : nat) (ta : trans_args) (ca : call_args) : res (list hyp_val) :=
  if negb (obj_do_asr obj) then Err AssertionError
  else
    do '(y, y_asr) <- start_tokens obj la (char_list ca);
    recognize_and_translate_sum
      (Model (obj_do_asr obj) (obj_eos obj) y y_asr
         (obj_wait_k_asr obj) (obj_wait_k_st obj))
      enc_len forward_one_step end_detect depth ta ca.

(** ** Reference definitions used to state the properties *)


(** Self-mask length with the pre-lag phase read as "limited to [i]". *)
Definition self_mask_len_limited_to_i (wait_k i : Z) : Z :=
  if 0 <? wait_k then
    if i <? wait_k then i else i - wait_k + 1
  else i + 1.

(** Descending order of score. *)
Definition score_desc (l : list hyp_val) : Prop :=
  StronglySorted (fun a b => (v_score b <= v_score a)%Q) l.

(** A finished hypothesis: both streams end with [eos] and are longer than
    the minimum lengths derived from the ratios of [ta]. *)
Definition finished (M : model) (enc_len : Z) (ta : trans_args)
    (v : hyp_val) : Prop :=
  last (v_yseq v) = Some (eos M) /\
  last (v_yseq_asr v) = Some (eos M) /\
  minlen_of enc_len (minlenratio ta) < Z.of_nat (length (v_yseq v)) /\
  minlen_of enc_len (minlenratio_asr ta) < Z.of_nat (length (v_yseq_asr v)).


(** [h'] is [h] after further allocations: every object of [h] is still
    at its address, unchanged. *)
Definition heap_le (h h' : heap) : Prop :=
  dicts h `prefix_of` dicts h' /\ lists h `prefix_of` lists h'.

(** How one token list of a new hypothesis relates to the parent's list
    [ys] at [parent_ref], by the three cases of lines 651-657: a fresh list
    holding [ys] and the selected token; a fresh list holding [ys] and
    [eos]; or the parent's own list object. *)
Definition child_stream (M : model) (h h' : heap) (wait_k i : Z)
    (dist : option (list Q)) (parent_ref : nat) (ys : list Z) (r : nat)
  : Prop :=
  match dist with
  | Some _ =>
      (length (lists h) <= r)%nat /\
      exists tok, lists h' !! r = Some (ys ++ [tok])
  | None =>
      if wait_k <=? i then
        (length (lists h) <= r)%nat /\
        lists h' !! r = Some (ys ++ [eos M])
      else r = parent_ref
  end.

(** A new hypothesis dict [d'] made from the parent [d], whose streams read
    [ys] and [ys_asr], at step [i] under the distributions [lst], [lasr]. *)
Definition child_of (M : model) (h h' : heap) (i : Z)
    (lst lasr : option (list Q)) (d : hyp) (ys ys_asr : list Z) (d' : hyp)
  : Prop :=
  child_stream M h h' (wait_k_asr M) i lst (yseq d) ys (yseq d') /\
  child_stream M h h' (wait_k_st M) i lasr (yseq_asr d) ys_asr (yseq_asr d').

(** Every hypothesis of the Ended set can be read and is finished. *)
Definition ended_ok (M : model) (enc_len : Z) (ta : trans_args) (st : state)
  : Prop :=
  forall a, a ∈ ended_hyps st ->
    exists v, deref (st_heap st) a = Ok v /\ finished M enc_len ta v.

(** The reading of "an ended ST stream is frozen": once the parent's ST
    stream ends with [eos], the lag of the partner stream is reached and the
    stream is longer than its minimum length, every new hypothesis made from
    the parent carries the same ST stream, nothing appended. *)
Definition st_stream_frozen (M : model) (enc_len : Z)
    (fwd : list Z -> Z -> list Z -> Z -> list Q * list Q)
    (ta : trans_args) (ca : call_args) : Prop :=
  forall i a h kept l la h' kept' l' la' d ys,
    expand_hyp M fwd ta ca i a h kept l la = Ok (h', kept', l', la') ->
    dicts h !! a = Some d ->
    lists h !! yseq d = Some ys ->
    last ys = Some (eos M) ->
    wait_k_asr M <= i ->
    minlen_of enc_len (minlenratio ta) < Z.of_nat (length ys) ->
    forall c d', (length (dicts h) <= c < length (dicts h'))%nat ->
      dicts h' !! c = Some d' ->
      lists h' !! yseq d' = Some ys.



(** ** A small model and decoder for concrete runs *)

Module Toy.

(** Vocabulary [{0, 1, 2}] with [eos = sos = 2]. *)
Definition plain : model := Model true 2 2 2 0 0.

(** The same model with the ST stream lagging one step behind ASR. *)
Definition lagged : model := Model true 2 2 2 1 0.

(** Each stream prefers token [0] while short and [eos] afterwards. *)
Definition decoder (ys : list Z) (m : Z) (ys_asr : list Z) (m_asr : Z)
  : list Q * list Q :=
  (if (length ys <? 3)%nat then [-1 # 1; -2 # 1; -3 # 1]
   else [-3 # 1; -2 # 1; -1 # 1],
   if (length ys_asr <? 2)%nat then [-1 # 1; -3 # 1; -2 # 1]
   else [-3 # 1; -2 # 1; -1 # 1])%Q.

Definition never_end (_ : list hyp_val) (_ : Z) : bool := false.


Definition enc_len : Z := 5.

(** beam 2, no penalty, all ratios 0, two results. *)
Definition args : trans_args := TransArgs 2 0 0 0 0 0 2.


(** As [args] with both minimum-length ratios 6/5. *)
Definition args_long : trans_args := TransArgs 2 0 0 0 (6 # 5) (6 # 5) 2.

Definition symbols : list string := ["a"; "b"; "</s>"]%string.

Definition call : call_args := default_call_args (Some symbols) false.

(** A caller asking for diversity on both streams. *)
Definition call_diverse : call_args :=
  CallArgs (Some symbols) false false (1 # 2) false (1 # 4) (1 # 4) false.

(** A beam entry at step 3 whose ST stream has ended. *)
Definition heap3 : heap :=
  Heap [Hyp (-4 # 1) 0 1] [[2; 0; 0; 2]; [2; 0; 0; 1]].

(** [heap3] after the expansion of its entry at step 3. *)
Definition heap3_expanded : heap :=
  Heap [Hyp (-4 # 1) 0 1; Hyp (-5 # 1) 2 3; Hyp (-6 # 1) 4 5]
       [[2; 0; 0; 2]; [2; 0; 0; 1]; [2; 0; 0; 2; 2]; [2; 0; 0; 1; 2];
        [2; 0; 0; 2; 2]; [2; 0; 0; 1; 1]].



(** What [plain] returns for [args]. *)
Definition result : list hyp_val :=
  [HypVal (-6 # 1) [2; 0; 0; 2] [2; 0; 2; 2];
   HypVal (-8 # 1) [2; 0; 0; 2; 2] [2; 0; 2; 1; 2]].

(** What [plain] returns for [args_long], after one retry. *)
Definition result_long : list hyp_val :=
  [HypVal (-10 # 1) [2; 0; 0; 2; 2; 2] [2; 0; 2; 1; 1; 2];
   HypVal (-11 # 1) [2; 0; 0; 2; 2; 2] [2; 0; 2; 1; 1; 1; 2]].


(** The state in which the search of [plain] for [args_long] ends. *)
Definition searched_long : state :=
  match search plain enc_len decoder never_end args_long call_diverse with
  | Ok st => st
  | Err _ => init_state plain
  end.

(** A decoder under which both streams prefer token [0], then [1]: no
    stream ends by itself within a beam of 2. *)
Definition decoder_no_eos (ys : list Z) (m : Z) (ys_asr : list Z) (m_asr : Z)
  : list Q * list Q :=
  ([-1 # 1; -2 # 1; -3 # 1], [-1 # 1; -2 # 1; -3 # 1])%Q.

(** As [args] with [maxlenratio = 1/5]: the ST stream gets its forced
    [eos] in the first pass, the ASR stream in the fifth. *)
Definition args_uneven : trans_args := TransArgs 2 0 (1 # 5) 0 0 0 2.

(** The state of [plain] under [decoder_no_eos] after [n] passes. *)
Definition no_eos_after (n : nat) : state :=
  match loop plain enc_len decoder_no_eos never_end args call n 0
          (init_state plain) with
  | Ok st => st
  | Err _ => init_state plain
  end.

(** As [args] with a length penalty of 1/2. *)
Definition args_pen : trans_args := TransArgs 2 (1 # 2) 0 0 0 0 2.

(** The state of [plain] under [args_pen] after [n] passes. *)
Definition pen_after (n : nat) : state :=
  match loop plain enc_len decoder never_end args_pen call n 0
          (init_state plain) with
  | Ok st => st
  | Err _ => init_state plain
  end.

(** The heap of [pen_after 2] after the expansion of the third pass. *)
Definition pen_expanded : heap :=
  match expand_all plain decoder args_pen call 2 (hyps (pen_after 2))
          (st_heap (pen_after 2)) [] (local_att_scores (pen_after 2))
          (local_att_scores_asr (pen_after 2)) with
  | Ok (h, _, _, _) => h
  | Err _ => empty_heap
  end.

(** A model whose ASR stream starts with a language tag and is held back
    for five steps. *)
Definition held : model := Model true 2 2 1 0 5.

(** The state of [held] after [n] passes. *)
Definition held_after (n : nat) : state :=
  match loop held enc_len decoder never_end args call n 0
          (init_state held) with
  | Ok st => st
  | Err _ => init_state held
  end.

(** The state in which the search of [plain] under [decoder_no_eos] ends
    for [args_uneven]. *)
Definition searched_uneven : state :=
  match search plain enc_len decoder_no_eos never_end args_uneven call with
  | Ok st => st
  | Err _ => init_state plain
  end.

(** [heap3] after the forced [eos] on the ASR stream of its entry. *)
Definition heap3_forced : heap :=
  Heap [Hyp (-4 # 1) 0 1] [[2; 0; 0; 2]; [2; 0; 0; 1; 2]].

(** A decoder whose two distributions show the mask lengths it was
    called with. *)
Definition decoder_masks (ys : list Z) (m : Z) (ys_asr : list Z) (m_asr : Z)
  : list Q * list Q :=
  ([inject_Z m; 0; -1 # 1], [inject_Z m_asr; 0; -1 # 1])%Q.

(** A beam entry of [lagged] at step 2. *)
Definition heap2_lagged : heap := Heap [Hyp 0 0 1] [[2; 0]; [2; 0; 1]].

(** [heap2_lagged] after the expansion of its entry at step 2 under
    [decoder_masks]. *)
Definition heap2_lagged_expanded : heap :=
  Heap [Hyp 0 0 1; Hyp (5 # 1) 2 3; Hyp (3 # 1) 4 5]
       [[2; 0]; [2; 0; 1]; [2; 0; 0]; [2; 0; 1; 0]; [2; 0; 1];
        [2; 0; 1; 0]].

(** A decoder under which the second-best token of each stream is close
    to the best one while the stream is short. *)
Definition decoder_close (ys : list Z) (m : Z) (ys_asr : list Z) (m_asr : Z)
  : list Q * list Q :=
  (if (length ys <? 2)%nat then [-1 # 1; -3 # 2; -3 # 1]
   else [-3 # 1; -2 # 1; -1 # 1],
   if (length ys_asr <? 3)%nat then [-1 # 1; -3 # 2; -3 # 1]
   else [-3 # 1; -2 # 1; -1 # 1])%Q.

(** As [args] with both minimum-length ratios 4/5. *)
Definition args_short : trans_args := TransArgs 2 0 0 0 (4 # 5) (4 # 5) 2.

(** A caller asking for diversity on the ST stream only. *)
Definition call_st_diverse : call_args :=
  CallArgs (Some symbols) false false (1 # 2) false (1 # 2) 0 false.

(** The state in which the search of [plain] under [decoder_close] ends
    for [args_short] and [call_st_diverse]. *)
Definition searched_short : state :=
  match search plain enc_len decoder_close never_end args_short
          call_st_diverse with
  | Ok st => st
  | Err _ => init_state plain
  end.

(** The state in which the search of the retry ends: the relaxed
    [args_short] and the keyword defaults. *)
Definition retried_short : state :=
  match search plain enc_len decoder_close never_end
          (TransArgs 2 0 0 0 (py_max 0 ((4 # 5) - (1 # 10)))
             (py_max 0 ((4 # 5) - (1 # 10))) 2)%Q
          (CallArgs (Some symbols) false false 1 false 0 0 false) with
  | Ok st => st
  | Err _ => init_state plain
  end.

(** The state in which a search for the relaxed [args_short] ends if the
    caller's keyword arguments are kept. *)
Definition retried_short_diverse : state :=
  match search plain enc_len decoder_close never_end (relaxed args_short)
          call_st_diverse with
  | Ok st => st
  | Err _ => init_state plain
  end.

(** What [plain] returns under [decoder_close] for [args_short] and
    [call_st_diverse], after one retry. *)
Definition result_short : list hyp_val :=
  [HypVal (-6 # 1) [2; 0; 2; 2] [2; 0; 0; 2];
   HypVal (-13 # 2) [2; 0; 2; 2] [2; 0; 1; 2]].

(** The n-best of the search for the relaxed [args_short] if the caller's
    diversity ratios were kept. *)
Definition result_short_diverse : list hyp_val :=
  [HypVal (-6 # 1) [2; 0; 2; 2] [2; 0; 0; 2];
   HypVal (-13 # 2) [2; 1; 2; 2] [2; 0; 0; 2]].

End Toy.

(** ** Further definitions used to state properties of the search *)

(** The list object at [r] ends with [eos]. *)
Definition ends_eos (M : model) (h : heap) (r : nat) : Prop :=
  exists l, lists h !! r = Some l /\ last l = Some (eos M).

(** Both streams of the hypothesis at [a] end with [eos] (line 697). *)
Definition both_ended (M : model) (h : heap) (a : nat) : Prop :=
  exists d, dicts h !! a = Some d /\
            ends_eos M h (yseq d) /\ ends_eos M h (yseq_asr d).

(** Both streams of the hypothesis at [a] exceed the minimum lengths
    (line 700). *)
Definition long_enough (enc_len : Z) (ta : trans_args) (h : heap) (a : nat)
  : Prop :=
  exists d ys ya,
    dicts h !! a = Some d /\
    lists h !! yseq d = Some ys /\
    lists h !! yseq_asr d = Some ya /\
    minlen_of enc_len (minlenratio ta) < Z.of_nat (length ys) /\
    minlen_of enc_len (minlenratio_asr ta) < Z.of_nat (length ya).

(** Both token lists of every hypothesis dict of the heap begin with the
    start tokens of the method. *)
Definition starts_with_sos (M : model) (h : heap) : Prop :=
  forall a d, dicts h !! a = Some d ->
    exists ys ya,
      lists h !! yseq d = Some (y_sos M :: ys) /\
      lists h !! yseq_asr d = Some (y_asr_sos M :: ya).

(** The score [s] is the sum of the scores of the tokens [p.1] and [p.2]
    in the two distributions. *)
Definition pair_of (lst lasr : list Q) (s : Q) (p : nat * nat) : Prop :=
  exists x y, lst !! p.1 = Some x /\ lasr !! p.2 = Some y /\ s = (x + y)%Q.

(** ** Pre-initialisation from trained models ([asr_init.py]) *)

Module AsrInit.

Local Open Scope string_scope.

(** [key.startswith(m)]. *)
Definition startswith (key m : string) : bool := String.prefix m key.

(** [sub in s] on strings. *)
Fixpoint contains (sub s : string) : bool :=
  String.prefix sub s ||
  match s with
  | EmptyString => false
  | String _ s' => contains sub s'
  end.

(** [s.replace(old, new)] for a non-empty [old], as in every call of the
    file: occurrences are replaced from the left and do not overlap.
    [skip] counts the characters of an occurrence still to be dropped. *)
Fixpoint replace_from (old new s : string) (skip : nat) : string :=
  match s with
  | EmptyString => EmptyString
  | String c s' =>
      match skip with
      | S k => replace_from old new s' k
      | O =>
          if String.prefix old s
          then new ++ replace_from old new s' (String.length old - 1)
          else String c (replace_from old new s' 0)
      end
  end.

Definition replace (old new s : string) : string := replace_from old new s 0.

(** [s.split(sep, 1)[1]]: what follows the first occurrence of [sep]. *)
Fixpoint after_first (sep s : string) : res string :=
  if String.prefix sep s
  then Ok (String.substring (String.length sep)
             (String.length s - String.length sep) s)
  else match s with
       | EmptyString => Err IndexError
       | String _ s' => after_first sep s'
       end.

(** What the functions read of a tensor: its [shape]. *)
Record tensor : Type := Tensor {
  shape : list Z;
  data : list Q
}.

(** An [OrderedDict] from parameter names to tensors, in insertion order. *)
Definition state_dict : Type := list (string * tensor).

Definition keys (d : state_dict) : list string := map fst d.

(** [d[k]]. *)
Fixpoint od_get (d : state_dict) (k : string) : option tensor :=
  match d with
  | [] => None
  | (k', v) :: d' => if String.eqb k' k then Some v else od_get d' k
  end.

(** [d[k] = v]: an existing key keeps its position. *)
Fixpoint od_set (d : state_dict) (k : string) (v : tensor) : state_dict :=
  match d with
  | [] => [(k, v)]
  | (k', v') :: d' =>
      if String.eqb k' k then (k', v) :: d' else (k', v') :: od_set d' k v
  end.

(** [d.update(p)]. *)
Definition od_update (d p : state_dict) : state_dict :=
  foldl (fun m kv => od_set m kv.1 kv.2) d p.

(** [any(key.startswith(m) for m in modules)]. *)
Definition any_startswith (key : string) (modules : list string) : bool :=
  existsb (startswith key) modules.

(** Lines 31-36. *)
Fixpoint matching_shapes (model_state_dict partial_state_dict : state_dict)
    (modules : list string) (partial_modules : list (string * list Z))
  : res (list (string * list Z)) :=
  match partial_state_dict with
  | [] => Ok partial_modules
  | (key_p, value_p) :: rest =>
      if any_startswith key_p modules then
        match od_get model_state_dict key_p with
        | None => Err KeyError
        | Some w =>
            matching_shapes model_state_dict rest modules
              (if bool_decide (shape value_p = shape w)
               then (partial_modules ++ [(key_p, shape value_p)])%list
               else partial_modules)
        end
      else matching_shapes model_state_dict rest modules partial_modules
  end.

Definition transfer_verification
    (model_state_dict partial_state_dict : state_dict)
    (modules : list string) : res bool :=
  do partial_modules <-
    matching_shapes model_state_dict partial_state_dict modules [];
  Ok (0 <? length partial_modules)%nat.

(** Lines 52-58. *)
Definition get_partial_state_dict (model_state_dict : state_dict)
    (modules : list string) : state_dict :=
  foldl (fun new_state_dict kv =>
           if any_startswith kv.1 modules
           then od_set new_state_dict kv.1 kv.2
           else new_state_dict)
        [] model_state_dict.

Definition submodules : list string :=
  ["embed"; "after_norm"; "output_layer"; "self_attn"; "src_attn";
   "feed_forward"; "norm1"; "norm2"; "norm3"; "dropout"].

(** Lines 82-88: the key under which a parameter of a single decoder is
    stored in the dual decoder. *)
Definition dual_key (key : string) : string :=
  let key := replace "decoders" "dual_decoders" key in
  if negb (contains "_asr" key) then replace "decoder." "dual_decoder." key
  else
    foldl (fun new_mod k => replace k (k ++ "_asr") new_mod)
          (replace "decoder_asr." "dual_decoder." key) submodules.

(** Lines 74-92. *)
Definition get_partial_state_dict_dual_decoders
    (model_state_dict : state_dict) (modules : list string)
  : state_dict * list string :=
  foldl (fun acc kv =>
           let '(new_state_dict, new_modules) := acc in
           if any_startswith kv.1 modules
           then (od_set new_state_dict (dual_key kv.1) kv.2,
                 (new_modules ++ [dual_key kv.1])%list)
           else acc)
        ([], []) model_state_dict.

(** [x in modules] on a list of strings. *)
Definition mem (x : string) (modules : list string) : bool :=
  existsb (String.eqb x) modules.

(** Lines 109-122. *)
Fixpoint get_partial_lm_state_dict_from (items : state_dict)
    (modules : list string) (new_state_dict : state_dict)
    (new_modules : list string) : res (state_dict * list string) :=
  match items with
  | [] => Ok (new_state_dict, new_modules)
  | (key, value) :: rest =>
      if String.eqb key "predictor.embed.weight"
         && mem "predictor.embed." modules then
        get_partial_lm_state_dict_from rest modules
          (od_set new_state_dict "dec.embed.weight" value)
          (new_modules ++ ["dec.embed.weight"])%list
      else if contains "predictor.rnn." key
              && mem "predictor.rnn." modules then
        do tail <- after_first "predictor.rnn." key;
        let new_key := "dec.decoder." ++ tail in
        get_partial_lm_state_dict_from rest modules
          (od_set new_state_dict new_key value)
          (new_modules ++ [new_key])%list
      else get_partial_lm_state_dict_from rest modules
             new_state_dict new_modules
  end.

Definition get_partial_lm_state_dict (model_state_dict : state_dict)
    (modules : list string) : res (state_dict * list string) :=
  get_partial_lm_state_dict_from model_state_dict modules [] [].

(** Lines 136-152; the warnings about [incorrect_mods] only log. *)
Fixpoint filter_modules_from (mods_model : list string)
    (modules new_mods incorrect_mods : list string) : list string :=
  match modules with
  | [] => new_mods
  | m :: rest =>
      if existsb (fun key => startswith key m) mods_model
      then filter_modules_from mods_model rest (new_mods ++ [m])%list
             incorrect_mods
      else filter_modules_from mods_model rest new_mods
             (incorrect_mods ++ [m])%list
  end.

Definition filter_modules (model_state_dict : state_dict)
    (modules : list string) : list string :=
  filter_modules_from (keys model_state_dict) modules [] [].

(** Lines 174-178: the name in a single-decoder model of a module of the
    dual decoder. *)
Definition single_mod (new_mod : string) : string :=
  let new_mod := replace "dual_decoders" "decoders" new_mod in
  if negb (contains "_asr" new_mod)
  then replace "dual_decoder." "decoder." new_mod
  else replace "dual_decoder." "decoder_asr." (replace "_asr" "" new_mod).

(** Lines 166-191. *)
Definition filter_modules_dual_decoders (model_state_dict : state_dict)
    (modules : list string) : list string :=
  filter_modules_from (keys model_state_dict) (map single_mod modules) [] [].

(** A parameter of the partial dict that the verification looks at and
    whose shape agrees with the model's. *)
Definition shape_match (model_state_dict : state_dict) (modules : list string)
    (kv : string * tensor) : Prop :=
  any_startswith kv.1 modules = true /\
  exists w, od_get model_state_dict kv.1 = Some w /\ shape kv.2 = shape w.

(** A parameter of the partial dict that the verification looks at and
    that the model lacks. *)
Definition missing (model_state_dict : state_dict) (modules : list string)
    (kv : string * tensor) : Prop :=
  any_startswith kv.1 modules = true /\ od_get model_state_dict kv.1 = None.

End AsrInit.

(** ** The parameter checks of the constructor (lines 133-172) *)

Module Init.

(** The attributes of [args] that the checks read, after the [getattr]
    defaults. *)
Record init_args : Type := InitArgs {
  asr_weight : Q;
  mtlalpha : Q;
  cross_weight : Q;
  cross_self : bool;
  cross_src : bool;
  cross_operator : option string;
  cross_to_asr : bool;
  cross_to_st : bool;
  wait_k_asr : Z;
  wait_k_st : Z;
  cross_src_from : string;
  cross_self_from : string;
  normalize_before : bool
}.

(** [assert b]. *)
Definition assert (b : bool) : res unit :=
  if b then Ok tt else Err AssertionError.

(** [bool(x)] for [x] a string or [None]. *)
Definition truthy (x : option string) : bool :=
  match x with
  | Some s => negb (String.eqb s "")
  | None => false
  end.

(** [x == 'sum']. *)
Definition is_sum (x : option string) : bool :=
  match x with
  | Some s => String.eqb s "sum"
  | None => false
  end.

(** Line 133. *)
Definition do_asr (a : init_args) : bool :=
  Qlt_bool 0 (asr_weight a) && Qlt_bool (mtlalpha a) 1.

(** Lines 157-172. *)
Definition check_parameters (a : init_args) : res unit :=
  do _ <- (if is_sum (cross_operator a) && Qle_bool (cross_weight a) 0
           then assert (negb (cross_to_asr a) && negb (cross_to_st a))
           else Ok tt);
  do _ <- (if cross_to_asr a || cross_to_st a
           then do _ <- assert (do_asr a);
                assert (cross_self a || cross_src a)
           else Ok tt);
  do _ <- assert (Bool.eqb (truthy (cross_operator a))
                    (do_asr a && (cross_to_asr a || cross_to_st a)));
  do _ <- (if negb (String.eqb (cross_src_from a) "embedding")
              || negb (String.eqb (cross_self_from a) "embedding")
           then assert (normalize_before a)
           else Ok tt);
  if 0 <? wait_k_asr a then assert (wait_k_st a =? 0)
  else if 0 <? wait_k_st a then assert (wait_k_asr a =? 0)
  else do _ <- assert (wait_k_asr a =? 0); assert (wait_k_st a =? 0).

End Init.

(** ** Small state dicts and a configuration for concrete runs *)

Module ToyInit.

Import AsrInit.

Definition main : state_dict :=
  [("encoder.w"%string, Tensor [2] [0; 0]%Q);
   ("decoder.w"%string, Tensor [3] [0; 0; 0]%Q)].

Definition trained : state_dict :=
  [("encoder.w"%string, Tensor [2] [1; 2]%Q);
   ("ctc.w"%string, Tensor [1] [5]%Q)].

(** [main] after the transfer of the encoder of [trained]. *)
Definition main_updated : state_dict :=
  [("encoder.w"%string, Tensor [2] [1; 2]%Q);
   ("decoder.w"%string, Tensor [3] [0; 0; 0]%Q)].

Definition main_dual : state_dict :=
  [("dual_decoder.dual_decoders.0.self_attn.w"%string, Tensor [2] [0; 0]%Q);
   ("encoder.w"%string, Tensor [3] [0; 0; 0]%Q)].

Definition trained_single : state_dict :=
  [("decoder.decoders.0.self_attn.w"%string, Tensor [2] [1; 2]%Q);
   ("encoder.w"%string, Tensor [3] [1; 1; 1]%Q)].

(** The decoder of [trained_single] under its dual-decoder name. *)
Definition partial_dual : state_dict :=
  [("dual_decoder.dual_decoders.0.self_attn.w"%string, Tensor [2] [1; 2]%Q)].

(** Cross attention in both directions with operator ['sum'], the ASR
    stream held back two steps. *)
Definition configuration : Init.init_args :=
  Init.InitArgs (3 # 10) 0 (3 # 10) true true (Some "sum"%string) true true
    0 2 "embedding" "embedding" true.

(** A model object without language tags, and one whose streams start
    with the language tags of the decoding configuration. *)
Definition plain_object : decoder_object :=
  DecoderObject true 2 2 0 0 false false None.

Definition tagged_object : decoder_object :=
  DecoderObject true 2 2 0 0 false true (Some "decoder-pre"%string).

Definition no_lang : lang_args := LangArgs None None.

Definition en_de : lang_args :=
  LangArgs None (Some "conf/decode.en-de.yaml"%string).

End ToyInit.

(** * Properties *)

(** ** The error monad *)

Lemma bind_Ok {A B : Type} (m : res A) (k : A -> res B) (b : B) :
  bind m k = Ok b -> exists a, m = Ok a /\ k a = Ok b.
Proof. destruct m as [a|e]; simpl; [eauto | discriminate]. Qed.

(** Splits every successful [bind] among the hypotheses. *)
Ltac inv_res :=
  repeat match goal with
  | H : bind _ _ = Ok _ |- _ =>
      let a := fresh "a" in
      let Ha := fresh "Ha" in
      apply bind_Ok in H; destruct H as (a & Ha & H)
  | H : Ok _ = Ok _ |- _ => injection H as H
  | H : Err _ = Ok _ |- _ => discriminate H
  | H : (_, _) = (_, _) |- _ => injection H as H
  end.

Lemma mapM_Forall2 {A B : Type} (f : A -> res B) (l : list A) (r : list B) :
  mapM f l = Ok r -> Forall2 (fun a b => f a = Ok b) l r.
Proof.
  revert r; induction l as [|a l IH]; simpl; intros r H.
  - injection H as <-. constructor.
  - inv_res. subst r. constructor; auto.
Qed.

Lemma load_list_Ok r h l : load_list r h = Ok l <-> lists h !! r = Some l.
Proof.
  unfold load_list. destruct (lists h !! r); split; intros H;
    first [injection H as ->; reflexivity | discriminate].
Qed.

Lemma load_dict_Ok a h d : load_dict a h = Ok d <-> dicts h !! a = Some d.
Proof.
  unfold load_dict. destruct (dicts h !! a); split; intros H;
    first [injection H as ->; reflexivity | discriminate].
Qed.

Lemma last_item_Ok {A : Type} (l : list A) (x : A) :
  last_item l = Ok x <-> last l = Some x.
Proof.
  unfold last_item. destruct (last l); split; intros H;
    first [injection H as ->; reflexivity | discriminate].
Qed.

Lemma deref_Ok h a v :
  deref h a = Ok v <->
  exists d, dicts h !! a = Some d /\
            lists h !! yseq d = Some (v_yseq v) /\
            lists h !! yseq_asr d = Some (v_yseq_asr v) /\
            v_score v = score d.
Proof.
  unfold deref. split.
  - intros H. inv_res. subst v. simpl.
    apply load_dict_Ok in Ha. apply load_list_Ok in Ha0, Ha1. eauto.
  - intros (d & Hd & Hy & Hya & Hs).
    apply load_dict_Ok in Hd. apply load_list_Ok in Hy, Hya.
    rewrite Hd. simpl. rewrite Hy. simpl. rewrite Hya. simpl.
    destruct v; simpl in *. congruence.
Qed.

Lemma deref_score h a v : deref h a = Ok v -> v_score v = score_at h a.
Proof.
  intros (d & Hd & _ & _ & Hs)%deref_Ok. unfold score_at. now rewrite Hd.
Qed.

(** ** [sorted] and slicing *)

Section SortedFacts.
Context {A : Type} (key : A -> Q).

Definition desc (a b : A) : Prop := (key b <= key a)%Q.

Lemma insert_desc_perm x l : insert_desc key x l ≡ₚ x :: l.
Proof.
  induction l as [|y l IH]; simpl; [reflexivity|].
  destruct (Qlt_bool (key x) (key y)); [|reflexivity].
  rewrite IH. apply perm_swap.
Qed.

Lemma sorted_desc_perm l : sorted_desc key l ≡ₚ l.
Proof.
  induction l as [|x l IH]; simpl; [reflexivity|].
  rewrite insert_desc_perm. now rewrite IH.
Qed.

Lemma Qlt_bool_true a b : Qlt_bool a b = true -> (a < b)%Q.
Proof.
  unfold Qlt_bool. intros H. apply Qnot_le_lt. intros Hle.
  apply Qle_bool_iff in Hle. rewrite Hle in H. discriminate.
Qed.

Lemma Qlt_bool_false a b : Qlt_bool a b = false -> (b <= a)%Q.
Proof.
  unfold Qlt_bool. intros H. apply Qle_bool_iff.
  destruct (Qle_bool b a); [reflexivity | discriminate].
Qed.

Lemma insert_desc_sorted x l :
  StronglySorted desc l -> StronglySorted desc (insert_desc key x l).
Proof.
  induction 1 as [|y l Hs IH Hy]; simpl.
  - constructor; constructor.
  - destruct (Qlt_bool (key x) (key y)) eqn:E.
    + constructor; [exact IH|].
      rewrite insert_desc_perm. constructor; [|exact Hy].
      apply Qlt_le_weak, Qlt_bool_true, E.
    + apply Qlt_bool_false in E.
      constructor; [constructor; assumption|].
      constructor; [exact E|].
      eapply Forall_impl; [exact Hy|].
      intros z Hz. unfold desc in *. eapply Qle_trans; eassumption.
Qed.

Lemma sorted_desc_sorted l : StronglySorted desc (sorted_desc key l).
Proof.
  induction l; simpl; [constructor | now apply insert_desc_sorted].
Qed.

Lemma sorted_desc_length l : length (sorted_desc key l) = length l.
Proof. apply Permutation_length, sorted_desc_perm. Qed.
End SortedFacts.

Lemma StronglySorted_sublist {A : Type} (R : A -> A -> Prop) (l k : list A) :
  l `sublist_of` k -> StronglySorted R k -> StronglySorted R l.
Proof.
  induction 1 as [|x l k Hsub IH|x l k Hsub IH]; intros Hs.
  - constructor.
  - apply StronglySorted_inv in Hs as [Hs Hx].
    constructor; [auto|].
    rewrite Forall_forall in Hx |- *. intros y Hy. apply Hx.
    eapply elem_of_sublist; eassumption.
  - apply StronglySorted_inv in Hs as [Hs _]. auto.
Qed.

Lemma slice_to_sublist {A : Type} (n : Z) (l : list A) :
  slice_to n l `sublist_of` l.
Proof. unfold slice_to. destruct (0 <=? n); apply sublist_take. Qed.

Lemma slice_to_length {A : Type} (n : Z) (l : list A) :
  0 <= n -> length (slice_to n l) = Nat.min (Z.to_nat n) (length l).
Proof.
  intros Hn. unfold slice_to.
  destruct (Z.leb_spec 0 n); [apply length_take | lia].
Qed.

(** ** Wait-k self-mask length *)

(** The three cases of the mask length requested for a stream whose
    partner has lag [wait_k]. *)
Lemma self_mask_len_cases (wait_k i : Z) :
  (0 < wait_k -> i < wait_k -> self_mask_len wait_k i = 1) /\
  (0 < wait_k -> wait_k <= i -> self_mask_len wait_k i = i - wait_k + 1) /\
  (wait_k <= 0 -> self_mask_len wait_k i = i + 1).
Proof.
  unfold self_mask_len.
  destruct (Z.ltb_spec 0 wait_k), (Z.ltb_spec i wait_k); repeat split; lia.
Qed.

(** C5 (as stated) fails before the lag is reached: at step 0 with lag 2 the
    requested length is 1, not 0, and at step 2 with lag 3 it is 1, not 2, so
    the length neither equals [i] nor is bounded by [i] from either side. *)
Lemma self_mask_len_not_limited_to_i :
  self_mask_len 2 0 <> self_mask_len_limited_to_i 2 0 /\
  ~ (self_mask_len 2 0 <= 0) /\
  ~ (2 <= self_mask_len 3 2).
Proof.
  vm_compute.
  repeat split; intros H; discriminate || (apply H; reflexivity).
Qed.

(** ** Diversity forcing *)



Lemma submatrix_full {A : Type} (S : list (list A)) :
  submatrix None None S = S.
Proof. unfold submatrix. simpl. apply map_id. Qed.





Lemma submatrix_2_2_length {A : Type} (S : list (list A)) :
  (length (concat (submatrix (Some 2%Z) (Some 2%Z) S)) <= 4)%nat.
Proof.
  unfold submatrix, span, slice_to.
  change (0 <=? 2) with true. change (Z.to_nat 2) with 2%nat. cbv iota.
  destruct S as [|a [|b S]]; cbn [take map concat];
    rewrite ?take_0; cbn [map concat];
    rewrite ?length_app; cbn [length];
    try pose proof (firstn_le_length 2 a);
    try pose proof (firstn_le_length 2 b); lia.
Qed.

(** C3 (evaluation at the failing input).  With beam 5, ASR ratio 1/2 and
    ST ratio 7/8 the code keeps [cr = 2] rows and widens [ct] from 0 to
    [5 // 2 = 2], below [ceil(5/2) = 3]; the restricted sub-matrix has at
    most 4 entries and the top-5 selection raises, whatever the two
    distributions are. *)
Theorem widening_uses_floor_division (lst lasr : list Q) :
  retained (1 # 2) 5 = 2 /\
  retained (7 # 8) 5 = 0 /\
  widened_ct 0 2 5 = Ok 2 /\
  exists e, select_joint (7 # 8) (1 # 2) 5 lst lasr = Err e.
Proof.
  repeat split; try reflexivity.
  unfold select_joint.
  destruct (topk 5 lst) as [[xk ixk]|e]; [|simpl; eauto]. simpl.
  destruct (topk 5 lasr) as [[yk iyk]|e]; [|simpl; eauto]. simpl.
  change (retained (1 # 2) 5) with 2. change (retained (7 # 8) 5) with 0.
  simpl. unfold restricted_topk.
  change (Z.max 0 (5 / 2)) with 2.
  pose proof (submatrix_2_2_length (outer_sum xk yk)) as Hlen.
  unfold topk at 1.
  destruct (Z.ltb_spec
              (Z.of_nat (length (concat (submatrix (Some 2) (Some 2)
                                           (outer_sum xk yk))))) 5);
    [|lia].
  simpl. eauto.
Qed.

(** ** The result of the method *)

Lemma Forall2_Forall_transfer {A B : Type} (R : A -> B -> Prop)
    (P : A -> Prop) (P' : B -> Prop) (l : list A) (r : list B) :
  (forall a b, R a b -> P a -> P' b) ->
  Forall2 R l r -> Forall P l -> Forall P' r.
Proof.
  intros HR H2. induction H2 as [|a b l r Hab H2 IH]; intros HP.
  - constructor.
  - apply Forall_cons_1 in HP as [Ha Hl]. constructor; eauto.
Qed.

Lemma Forall2_StronglySorted {A B : Type} (R : A -> B -> Prop)
    (P : A -> A -> Prop) (P' : B -> B -> Prop) (l : list A) (r : list B) :
  (forall a a' b b', R a a' -> R b b' -> P a b -> P' a' b') ->
  Forall2 R l r -> StronglySorted P l -> StronglySorted P' r.
Proof.
  intros HR H2. induction H2 as [|a b l r Hab H2 IH]; intros Hs.
  - constructor.
  - apply StronglySorted_inv in Hs as [Hs Ha]. constructor; [auto|].
    eapply Forall2_Forall_transfer; [|exact H2|exact Ha].
    intros x y Hxy Hax. eapply HR; eassumption.
Qed.

Lemma Forall2_elem_of_r {A B : Type} (R : A -> B -> Prop)
    (l : list A) (r : list B) (b : B) :
  Forall2 R l r -> b ∈ r -> exists a, a ∈ l /\ R a b.
Proof.
  induction 1 as [|a b' l r Hab H2 IH]; intros Hb.
  - inversion Hb.
  - apply elem_of_cons in Hb as [->|Hb].
    + exists a. split; [left | assumption].
    + destruct (IH Hb) as (a' & Ha' & HR). exists a'.
      split; [now right | assumption].
Qed.

Section SearchFacts.

Variable M : model.
Variable enc_len : Z.
Variable forward_one_step : list Z -> Z -> list Z -> Z -> list Q * list Q.
Variable end_detect : list hyp_val -> Z -> bool.

Abbreviation search' := (search M enc_len forward_one_step end_detect).
Abbreviation decode :=
  (recognize_and_translate_sum M enc_len forward_one_step end_detect).

Lemma nbest_hyps_sublist ta st :
  nbest_hyps ta st `sublist_of`
    sorted_desc (score_at (st_heap st)) (ended_hyps st).
Proof. apply slice_to_sublist. Qed.

Lemma nbest_hyps_length ta st :
  0 <= nbest ta ->
  Z.of_nat (length (nbest_hyps ta st)) =
  Z.min (Z.of_nat (length (ended_hyps st))) (nbest ta).
Proof.
  intros Hn. unfold nbest_hyps.
  rewrite slice_to_length by lia. rewrite sorted_desc_length. lia.
Qed.

Lemma nbest_hyps_nil ta st :
  1 <= nbest ta -> (nbest_hyps ta st = [] <-> ended_hyps st = []).
Proof.
  intros Hn. pose proof (nbest_hyps_length ta st ltac:(lia)) as Hlen.
  split; intros H.
  - rewrite H in Hlen. simpl in Hlen.
    destruct (ended_hyps st); [reflexivity | simpl in Hlen; lia].
  - rewrite H in Hlen. simpl in Hlen.
    destruct (nbest_hyps ta st); [reflexivity | simpl in Hlen; lia].
Qed.

Lemma decode_unfold depth ta ca st :
  search' ta ca = Ok st ->
  decode (S depth) ta ca =
  if (length (nbest_hyps ta st) =? 0)%nat
  then decode depth (relaxed ta) (retry_args ca)
  else mapM (deref (st_heap st)) (nbest_hyps ta st).
Proof. intros H. simpl. rewrite H. reflexivity. Qed.

(** C1.  Whenever the method returns, and [nbest >= 1] as a valid
    configuration requires, the returned list has at most [nbest] entries
    and is in descending order of score. *)
Theorem nbest_bounded_and_sorted depth ta ca result :
  1 <= nbest ta ->
  decode depth ta ca = Ok result ->
  Z.of_nat (length result) <= nbest ta /\ score_desc result.
Proof.
  revert ta ca. induction depth as [|depth IH]; intros ta ca Hn H.
  - discriminate.
  - simpl in H. apply bind_Ok in H as (st & Hst & H).
    destruct (length (nbest_hyps ta st) =? 0)%nat.
    + apply IH in H; [exact H | exact Hn].
    + apply mapM_Forall2 in H. split.
      * rewrite <- (Forall2_length _ _ _ H).
        rewrite nbest_hyps_length by lia. lia.
      * eapply Forall2_StronglySorted with
          (P := desc (score_at (st_heap st))); [|exact H|].
        -- intros a a' b b' Ha Hb Hab. unfold desc in Hab.
           now rewrite (deref_score _ _ _ Ha), (deref_score _ _ _ Hb).
        -- eapply StronglySorted_sublist; [apply nbest_hyps_sublist|].
           apply sorted_desc_sorted.
Qed.

Lemma py_max_0_nonneg (x : Q) : (0 <= py_max 0 x)%Q.
Proof.
  unfold py_max. destruct (Qlt_bool 0 x) eqn:E.
  - apply Qlt_le_weak, Qlt_bool_true, E.
  - apply Qle_refl.
Qed.

Lemma py_max_0_of_nonneg (x : Q) : (0 <= x)%Q -> (py_max 0 x == x)%Q.
Proof.
  intros Hx. unfold py_max. destruct (Qlt_bool 0 x) eqn:E; [reflexivity|].
  apply Qlt_bool_false in E. now apply Qle_antisym.
Qed.

(** C9.  For [nbest >= 1]: when the search finishes with an empty Ended
    set the method returns what the recursive call on the relaxed
    configuration returns, whose two minimum-length ratios are the old ones
    lowered by 0.1 and floored at 0; when the Ended set is not empty there
    is no retry and the n-best extraction is returned. *)
Theorem empty_result_retry depth ta ca st :
  1 <= nbest ta ->
  search' ta ca = Ok st ->
  (ended_hyps st = [] ->
     decode (S depth) ta ca = decode depth (relaxed ta) (retry_args ca)) /\
  (ended_hyps st <> [] ->
     nbest_hyps ta st <> [] /\
     decode (S depth) ta ca = mapM (deref (st_heap st)) (nbest_hyps ta st)) /\
  minlenratio (relaxed ta) = py_max 0 (minlenratio ta - (1 # 10))%Q /\
  minlenratio_asr (relaxed ta) = py_max 0 (minlenratio_asr ta - (1 # 10))%Q /\
  (0 <= minlenratio (relaxed ta))%Q /\
  (0 <= minlenratio_asr (relaxed ta))%Q /\
  ((1 # 10 <= minlenratio ta)%Q ->
     (minlenratio (relaxed ta) == minlenratio ta - (1 # 10))%Q) /\
  ((1 # 10 <= minlenratio_asr ta)%Q ->
     (minlenratio_asr (relaxed ta) == minlenratio_asr ta - (1 # 10))%Q).
Proof.
  intros Hn Hst. pose proof (nbest_hyps_nil ta st Hn) as Hnil.
  rewrite (decode_unfold depth ta ca st Hst).
  repeat split.
  - intros He. apply Hnil in He. now rewrite He.
  - intros Hc. apply H. now apply Hnil.
  - destruct (nbest_hyps ta st) eqn:E; [|reflexivity].
    exfalso. apply H. now apply Hnil.
  - apply py_max_0_nonneg.
  - apply py_max_0_nonneg.
  - intros Hr. apply py_max_0_of_nonneg.
    apply (proj1 (Qle_minus_iff _ _)). exact Hr.
  - intros Hr. apply py_max_0_of_nonneg.
    apply (proj1 (Qle_minus_iff _ _)). exact Hr.
Qed.

(** C10.  The retry receives the relaxed namespace, in which only the two
    minimum-length ratios differ from the caller's, and, besides
    [char_list] and [rnnlm], the defaults of every keyword argument: both
    diversity ratios 0, [decode_asr_weight] 1, [use_jit], [score_is_prob]
    and [debug] false, whatever the caller supplied.  So after an empty
    first search the method returns what a search run with those arguments
    gives: its n-best when that search has ended hypotheses, its exception
    when it raises. *)
Theorem retry_resets_keyword_arguments depth ta ca st :
  search' ta ca = Ok st ->
  nbest_hyps ta st = [] ->
  decode (S depth) ta ca =
    decode depth
      (TransArgs (beam_size ta) (penalty ta) (maxlenratio ta)
         (maxlenratio_asr ta)
         (py_max 0 (minlenratio ta - (1 # 10)))%Q
         (py_max 0 (minlenratio_asr ta - (1 # 10)))%Q
         (nbest ta))
      (CallArgs (char_list ca) (rnnlm ca) false 1 false 0 0 false) /\
  (forall st',
     search'
       (TransArgs (beam_size ta) (penalty ta) (maxlenratio ta)
          (maxlenratio_asr ta)
          (py_max 0 (minlenratio ta - (1 # 10)))%Q
          (py_max 0 (minlenratio_asr ta - (1 # 10)))%Q
          (nbest ta))
       (CallArgs (char_list ca) (rnnlm ca) false 1 false 0 0 false)
     = Ok st' ->
     nbest_hyps (relaxed ta) st' <> [] ->
     decode (S (S depth)) ta ca =
     mapM (deref (st_heap st')) (nbest_hyps (relaxed ta) st')) /\
  (forall e,
     search'
       (TransArgs (beam_size ta) (penalty ta) (maxlenratio ta)
          (maxlenratio_asr ta)
          (py_max 0 (minlenratio ta - (1 # 10)))%Q
          (py_max 0 (minlenratio_asr ta - (1 # 10)))%Q
          (nbest ta))
       (CallArgs (char_list ca) (rnnlm ca) false 1 false 0 0 false)
     = Err e ->
     decode (S (S depth)) ta ca = Err e) /\
  ratio_diverse_st (retry_args ca) = 0%Q /\
  ratio_diverse_asr (retry_args ca) = 0%Q /\
  decode_asr_weight (retry_args ca) = 1%Q /\
  char_list (retry_args ca) = char_list ca /\
  rnnlm (retry_args ca) = rnnlm ca /\
  beam_size (relaxed ta) = beam_size ta /\
  penalty (relaxed ta) = penalty ta /\
  maxlenratio (relaxed ta) = maxlenratio ta /\
  maxlenratio_asr (relaxed ta) = maxlenratio_asr ta /\
  nbest (relaxed ta) = nbest ta.
Proof.
  intros Hst He. split; [|split; [|split]].
  - rewrite (decode_unfold depth ta ca st Hst), He. reflexivity.
  - intros st' Hst' Hne.
    rewrite (decode_unfold (S depth) ta ca st Hst), He.
    change (decode (S depth) (relaxed ta) (retry_args ca) =
            mapM (deref (st_heap st')) (nbest_hyps (relaxed ta) st')).
    rewrite (decode_unfold depth (relaxed ta) (retry_args ca) st' Hst').
    destruct (nbest_hyps (relaxed ta) st'); [congruence | reflexivity].
  - intros e Hst'.
    rewrite (decode_unfold (S depth) ta ca st Hst), He.
    change (decode (S depth) (relaxed ta) (retry_args ca) = Err e).
    change (search' (relaxed ta) (retry_args ca) = Err e) in Hst'.
    simpl. rewrite Hst'. reflexivity.
  - repeat split.
Qed.

End SearchFacts.

(** ** The heap *)

Lemma heap_le_refl h : heap_le h h.
Proof. split; reflexivity. Qed.

Lemma heap_le_trans h1 h2 h3 : heap_le h1 h2 -> heap_le h2 h3 -> heap_le h1 h3.
Proof. intros [? ?] [? ?]. split; etrans; eassumption. Qed.

Lemma heap_le_new_list l h : heap_le h (new_list l h).2.
Proof. split; simpl; [reflexivity | apply prefix_app_r; reflexivity]. Qed.

Lemma heap_le_new_dict d h : heap_le h (new_dict d h).2.
Proof. split; simpl; [apply prefix_app_r; reflexivity | reflexivity]. Qed.

Lemma heap_le_dicts_length h h' :
  heap_le h h' -> (length (dicts h) <= length (dicts h'))%nat.
Proof. intros [H _]. now apply prefix_length. Qed.

Lemma heap_le_lists_length h h' :
  heap_le h h' -> (length (lists h) <= length (lists h'))%nat.
Proof. intros [_ H]. now apply prefix_length. Qed.

Lemma heap_le_dict h h' a d :
  heap_le h h' -> dicts h !! a = Some d -> dicts h' !! a = Some d.
Proof. intros [H _] Hd. eapply prefix_lookup_Some; eassumption. Qed.

Lemma heap_le_list h h' r l :
  heap_le h h' -> lists h !! r = Some l -> lists h' !! r = Some l.
Proof. intros [_ H] Hl. eapply prefix_lookup_Some; eassumption. Qed.

Lemma heap_le_deref h h' a v :
  heap_le h h' -> deref h a = Ok v -> deref h' a = Ok v.
Proof.
  intros Hle (d & Hd & Hy & Hya & Hs)%deref_Ok. apply deref_Ok.
  exists d. repeat split; eauto using heap_le_dict, heap_le_list.
Qed.

(** ** Beam expansion *)

Lemma child_stream_mono M h0 h1 h' h'' wk i dist parent ys r :
  heap_le h0 h1 -> heap_le h' h'' ->
  child_stream M h1 h' wk i dist parent ys r ->
  child_stream M h0 h'' wk i dist parent ys r.
Proof.
  intros H01 H12. apply heap_le_lists_length in H01.
  unfold child_stream. destruct dist as [s|].
  - intros [Hr (tok & Ht)]. split; [lia|].
    exists tok. eapply heap_le_list; eassumption.
  - destruct (wk <=? i); [|auto].
    intros [Hr Ht]. split; [lia|]. eapply heap_le_list; eassumption.
Qed.

Lemma child_of_mono M h0 h1 h' h'' i lst lasr d ys ys_asr d' :
  heap_le h0 h1 -> heap_le h' h'' ->
  child_of M h1 h' i lst lasr d ys ys_asr d' ->
  child_of M h0 h'' i lst lasr d ys ys_asr d'.
Proof. intros ? ? [? ?]. split; eapply child_stream_mono; eassumption. Qed.

Lemma extend_spec M dist ids j wk i parent ys h r h' :
  extend M dist ids j wk i parent ys h = Ok (r, h') ->
  heap_le h h' /\ dicts h' = dicts h /\
  child_stream M h h' wk i dist parent ys r.
Proof.
  unfold extend, child_stream. destruct dist as [s|].
  - intros H. inv_res. subst r h'. split; [|split].
    + apply heap_le_new_list.
    + reflexivity.
    + split; [reflexivity|]. exists a. simpl. now apply list_lookup_middle.
  - destruct (wk <=? i); intros H; inv_res; subst r h'.
    + split; [|split].
      * apply heap_le_new_list.
      * reflexivity.
      * split; [reflexivity|]. simpl. now apply list_lookup_middle.
    + split; [apply heap_le_refl|]. split; reflexivity.
Qed.

Lemma kept_after_sort_elem (h : heap) (beam : Z) (kept : list nat) (c x : nat) :
  x ∈ slice_to beam (sorted_desc (score_at h) (kept ++ [c])) ->
  x ∈ kept \/ x = c.
Proof.
  intros Hx.
  eapply elem_of_sublist in Hx; [|apply slice_to_sublist].
  rewrite sorted_desc_perm in Hx.
  apply elem_of_app in Hx as [Hx|Hx]; [now left|].
  right. now apply list_elem_of_singleton in Hx.
Qed.

Lemma kept_after_sort_NoDup (h : heap) (beam : Z) (kept : list nat) (c : nat) :
  NoDup kept -> c ∉ kept ->
  NoDup (slice_to beam (sorted_desc (score_at h) (kept ++ [c]))).
Proof.
  intros Hnd Hc.
  eapply sublist_NoDup; [|apply slice_to_sublist].
  rewrite sorted_desc_perm.
  apply NoDup_app. split; [exact Hnd|]. split.
  - intros x Hx Hx'. apply list_elem_of_singleton in Hx'. now subst x.
  - apply NoDup_singleton.
Qed.

Lemma expand_spec M ta js i d ys ys_asr lst lasr sel h kept h' kept' :
  expand M ta js i d ys ys_asr lst lasr sel h kept = Ok (h', kept') ->
  heap_le h h' /\
  (forall c, (length (dicts h) <= c < length (dicts h'))%nat ->
     exists d', dicts h' !! c = Some d' /\
                child_of M h h' i lst lasr d ys ys_asr d') /\
  (forall c, c ∈ kept' ->
     c ∈ kept \/ (length (dicts h) <= c < length (dicts h'))%nat) /\
  (NoDup kept -> (forall c, c ∈ kept -> (c < length (dicts h))%nat) ->
   NoDup kept').
Proof.
  revert h kept. induction js as [|j js IH]; intros h kept H; simpl in H.
  - inv_res. subst h' kept'. split; [apply heap_le_refl|].
    split; [intros c Hc; lia|]. split; [auto|auto].
  - apply bind_Ok in H as (a & Ha & H).
    apply bind_Ok in H as ([r h1] & Ha0 & H).
    apply bind_Ok in H as ([r_asr h2] & Ha1 & H).
    apply extend_spec in Ha0 as (Hle1 & Hd1 & Hc1).
    apply extend_spec in Ha1 as (Hle2 & Hd2 & Hc2).
    simpl in H.
    set (D := Hyp (score d + a)%Q r r_asr) in *.
    set (h3 := Heap (dicts h2 ++ [D]) (lists h2)) in *.
    assert (Hle3 : heap_le h2 h3) by apply (heap_le_new_dict D h2).
    assert (Hlen : length (dicts h2) = length (dicts h)) by congruence.
    apply IH in H as (Hle & Hch & Hk & Hnd).
    assert (Hlen3 : length (dicts h3) = S (length (dicts h)))
      by (unfold h3; simpl; rewrite length_app; simpl; lia).
    assert (Hle03 : heap_le h h3)
      by (eapply heap_le_trans; [|exact Hle3]; eapply heap_le_trans; eassumption).
    split; [eapply heap_le_trans; eassumption|]. split; [|split].
    + intros c Hc.
      destruct (decide (c = length (dicts h))) as [->|Hne].
      * exists D. split.
        -- eapply heap_le_dict; [exact Hle|].
           unfold h3. simpl. rewrite <- Hlen. now apply list_lookup_middle.
        -- split; simpl.
           ++ eapply child_stream_mono; [apply heap_le_refl| |exact Hc1].
              eapply heap_le_trans; [exact Hle2|].
              eapply heap_le_trans; eassumption.
           ++ eapply child_stream_mono; [exact Hle1| |exact Hc2].
              eapply heap_le_trans; eassumption.
      * destruct (Hch c) as (d' & Hd' & Hof); [lia|].
        exists d'. split; [exact Hd'|].
        eapply child_of_mono; [exact Hle03|apply heap_le_refl|exact Hof].
    + intros c Hc. apply Hk in Hc as [Hc|Hc]; [|right; lia].
      apply kept_after_sort_elem in Hc as [Hc| ->]; [now left|].
      right. unfold new_dict. simpl. apply heap_le_dicts_length in Hle. lia.
    + intros Hnd0 Hlt. apply Hnd.
      * apply kept_after_sort_NoDup; [exact Hnd0|].
        intros Hin. apply Hlt in Hin. simpl in Hin. lia.
      * intros c Hc. apply kept_after_sort_elem in Hc as [Hc| ->].
        -- apply Hlt in Hc. rewrite Hlen3. lia.
        -- rewrite Hlen3, Hlen. lia.
Qed.

Lemma expand_hyp_spec M fwd ta ca i a h kept l l_asr h' kept' l' l_asr' :
  expand_hyp M fwd ta ca i a h kept l l_asr = Ok (h', kept', l', l_asr') ->
  exists d ys ys_asr lst lasr sel,
    dicts h !! a = Some d /\
    lists h !! yseq d = Some ys /\
    lists h !! yseq_asr d = Some ys_asr /\
    l' = Bound lst /\ l_asr' = Bound lasr /\
    ((last ys = Some (eos M) /\ 2 < i) \/ i < wait_k_asr M -> lst = None) /\
    ((last ys_asr = Some (eos M) /\ 2 < i) \/ i < wait_k_st M -> lasr = None) /\
    expand M ta (seq 0 (Z.to_nat (beam_size ta))) i d ys ys_asr lst lasr sel
      h kept = Ok (h', kept').
Proof.
  unfold expand_hyp. intros H.
  apply bind_Ok in H as (d & Hd & H).
  apply bind_Ok in H as (ys & Hys & H).
  destruct (rnnlm ca); [discriminate|].
  apply bind_Ok in H as (ys_asr & Hya & H).
  destruct (use_jit ca); [discriminate|].
  apply bind_Ok in H as (e & He & H).
  apply bind_Ok in H as (e_asr & Hea & H).
  apply load_dict_Ok in Hd. apply load_list_Ok in Hys, Hya.
  apply last_item_Ok in He, Hea.
  destruct (fwd ys (self_mask_len (wait_k_asr M) i) ys_asr
              (self_mask_len (wait_k_st M) i)) as [s s_asr].
  set (called := negb (e =? eos M) || negb (e_asr =? eos M) || (i <? 2)) in H.
  set (off := (e =? eos M) && (2 <? i) || (i <? wait_k_asr M)) in H.
  set (off_asr := (e_asr =? eos M) && (2 <? i) || (i <? wait_k_st M)) in H.
  assert (Hoff : (last ys = Some (eos M) /\ 2 < i) \/ i < wait_k_asr M ->
                 off = true).
  { unfold off. intros [[Hl Hi]|Hi].
    - rewrite He in Hl. injection Hl as ->.
      rewrite Z.eqb_refl. destruct (Z.ltb_spec 2 i); [reflexivity|lia].
    - destruct (Z.ltb_spec i (wait_k_asr M)); [|lia]. apply orb_true_r. }
  assert (Hoffa : (last ys_asr = Some (eos M) /\ 2 < i) \/ i < wait_k_st M ->
                  off_asr = true).
  { unfold off_asr. intros [[Hl Hi]|Hi].
    - rewrite Hea in Hl. injection Hl as ->.
      rewrite Z.eqb_refl. destruct (Z.ltb_spec 2 i); [reflexivity|lia].
    - destruct (Z.ltb_spec i (wait_k_st M)); [|lia]. apply orb_true_r. }
  clearbody called off off_asr.
  assert (Hgen : forall l0 l0_asr,
    match (if off then Bound None else l0),
          (if off_asr then Bound None else l0_asr) with
    | Bound lst, Bound lasr =>
        do sel <- select (ratio_diverse_st ca) (ratio_diverse_asr ca)
                    (beam_size ta) lst lasr;
        do '(h', kept) <- expand M ta (seq 0 (Z.to_nat (beam_size ta))) i d
                            ys ys_asr lst lasr sel h kept;
        Ok (h', kept, (if off then Bound None else l0),
            (if off_asr then Bound None else l0_asr))
    | _, _ => Err UnboundLocalError
    end = Ok (h', kept', l', l_asr') ->
    exists lst lasr sel,
      l' = Bound lst /\ l_asr' = Bound lasr /\
      (off = true -> lst = None) /\ (off_asr = true -> lasr = None) /\
      expand M ta (seq 0 (Z.to_nat (beam_size ta))) i d ys ys_asr lst lasr sel
        h kept = Ok (h', kept')).
  { intros l0 l0_asr Hm.
    destruct (if off then Bound None else l0) as [|lst] eqn:El;
      [discriminate|].
    destruct (if off_asr then Bound None else l0_asr) as [|lasr] eqn:Ela;
      [discriminate|].
    apply bind_Ok in Hm as (sel & Hsel & Hm).
    apply bind_Ok in Hm as ([h'' kept''] & Hex & Hm).
    injection Hm as -> -> <- <-.
    exists lst, lasr, sel. repeat split; try assumption.
    - intros ->. now injection El as <-.
    - intros ->. now injection Ela as <-. }
  destruct called; apply Hgen in H as (lst & lasr & sel & ? & ? & ? & ? & ?);
    exists d, ys, ys_asr, lst, lasr, sel; repeat split; auto.
Qed.

(** C5 (as amended).  At decode step [i], for a hypothesis that is
    expanded with a call of the step decoder (one of its streams has not
    ended, or [i < 2]), the decoder is called on the hypothesis's two token
    lists with an ST self-mask of length [m_st] and an ASR self-mask of
    length [m_asr] that follow the wait-k rule: with [wait_k_asr > 0] the ST
    length is 1 while [i < wait_k_asr] and [i - wait_k_asr + 1] from
    [i = wait_k_asr] on, and [i + 1] without a lag; the ASR length follows
    the same rule with [wait_k_st].  The distributions the expansion works
    with are the two outputs of that call, unless the stream is
    suppressed. *)
Theorem self_mask_len_wait_k
    M fwd ta ca i a h kept l la h' kept' l' la' d ys ys_asr :
  expand_hyp M fwd ta ca i a h kept l la = Ok (h', kept', l', la') ->
  dicts h !! a = Some d ->
  lists h !! yseq d = Some ys ->
  lists h !! yseq_asr d = Some ys_asr ->
  last ys <> Some (eos M) \/ last ys_asr <> Some (eos M) \/ i < 2 ->
  exists m_st m_asr,
    ((0 < wait_k_asr M -> i < wait_k_asr M -> m_st = 1) /\
     (0 < wait_k_asr M -> wait_k_asr M <= i ->
      m_st = i - wait_k_asr M + 1) /\
     (wait_k_asr M <= 0 -> m_st = i + 1)) /\
    ((0 < wait_k_st M -> i < wait_k_st M -> m_asr = 1) /\
     (0 < wait_k_st M -> wait_k_st M <= i ->
      m_asr = i - wait_k_st M + 1) /\
     (wait_k_st M <= 0 -> m_asr = i + 1)) /\
    ((last ys = Some (eos M) /\ 2 < i) \/ i < wait_k_asr M ->
     l' = Bound None) /\
    (~ ((last ys = Some (eos M) /\ 2 < i) \/ i < wait_k_asr M) ->
     l' = Bound (Some (fwd ys m_st ys_asr m_asr).1)) /\
    ((last ys_asr = Some (eos M) /\ 2 < i) \/ i < wait_k_st M ->
     la' = Bound None) /\
    (~ ((last ys_asr = Some (eos M) /\ 2 < i) \/ i < wait_k_st M) ->
     la' = Bound (Some (fwd ys m_st ys_asr m_asr).2)).
Proof.
  unfold expand_hyp, load_dict, load_list. intros H Hd Hys Hya Hcall.
  rewrite Hd in H. simpl in H. rewrite Hys in H. simpl in H.
  destruct (rnnlm ca); [discriminate|].
  rewrite Hya in H. simpl in H.
  destruct (use_jit ca); [discriminate|].
  apply bind_Ok in H as (e & He & H).
  apply bind_Ok in H as (e_asr & Hea & H).
  apply last_item_Ok in He, Hea.
  exists (self_mask_len (wait_k_asr M) i), (self_mask_len (wait_k_st M) i).
  split; [apply self_mask_len_cases|]. split; [apply self_mask_len_cases|].
  assert (Hcalled : negb (e =? eos M) || negb (e_asr =? eos M) || (i <? 2)
                    = true).
  { destruct Hcall as [Hc|[Hc|Hc]].
    - destruct (Z.eqb_spec e (eos M)) as [->|_]; [contradiction|reflexivity].
    - destruct (Z.eqb_spec e_asr (eos M)) as [->|_];
        [contradiction | apply orb_true_iff; left; apply orb_true_r].
    - apply orb_true_iff. right. now apply Z.ltb_lt. }
  rewrite Hcalled in H.
  destruct (fwd ys (self_mask_len (wait_k_asr M) i) ys_asr
              (self_mask_len (wait_k_st M) i)) as [s s_asr]. simpl.
  set (off := (e =? eos M) && (2 <? i) || (i <? wait_k_asr M)) in H.
  set (off_asr := (e_asr =? eos M) && (2 <? i) || (i <? wait_k_st M)) in H.
  assert (Hoff : off = true <->
                 (last ys = Some (eos M) /\ 2 < i) \/ i < wait_k_asr M).
  { unfold off. rewrite orb_true_iff, andb_true_iff, Z.eqb_eq, !Z.ltb_lt.
    rewrite He. split; (intros [[E Hi]|Hi]; [left; split; congruence|now right]). }
  assert (Hoffa : off_asr = true <->
                  (last ys_asr = Some (eos M) /\ 2 < i) \/ i < wait_k_st M).
  { unfold off_asr. rewrite orb_true_iff, andb_true_iff, Z.eqb_eq, !Z.ltb_lt.
    rewrite Hea. split; (intros [[E Hi]|Hi]; [left; split; congruence|now right]). }
  clearbody off off_asr.
  assert (El : l' = if off then Bound None else Bound (Some s)).
  { destruct off, off_asr;
      apply bind_Ok in H as (sel & _ & H);
      apply bind_Ok in H as ([h'' kept''] & _ & H);
      now injection H as _ _ <- _. }
  assert (Ela : la' = if off_asr then Bound None else Bound (Some s_asr)).
  { destruct off, off_asr;
      apply bind_Ok in H as (sel & _ & H);
      apply bind_Ok in H as ([h'' kept''] & _ & H);
      now injection H as _ _ _ <-. }
  repeat split.
  - intros Hc. apply Hoff in Hc. now rewrite Hc in El.
  - intros Hc. destruct off; [exfalso; apply Hc, Hoff; reflexivity | exact El].
  - intros Hc. apply Hoffa in Hc. now rewrite Hc in Ela.
  - intros Hc. destruct off_asr;
      [exfalso; apply Hc, Hoffa; reflexivity | exact Ela].
Qed.

Lemma self_mask_len_wait_k_witness :
  expand_hyp Toy.lagged Toy.decoder_masks Toy.args Toy.call 2 0
    Toy.heap2_lagged [] Unbound Unbound =
    Ok (Toy.heap2_lagged_expanded, [1; 2]%nat,
        Bound (Some [2 # 1; 0; -1 # 1]%Q),
        Bound (Some [3 # 1; 0; -1 # 1]%Q)) /\
  exists m_st m_asr,
    m_st = 2 /\ m_asr = 3 /\
    Bound (Some [2 # 1; 0; -1 # 1]%Q) =
      Bound (Some (Toy.decoder_masks [2; 0] m_st [2; 0; 1] m_asr).1) /\
    Bound (Some [3 # 1; 0; -1 # 1]%Q) =
      Bound (Some (Toy.decoder_masks [2; 0] m_st [2; 0; 1] m_asr).2).
Proof.
  assert (H : expand_hyp Toy.lagged Toy.decoder_masks Toy.args Toy.call 2 0
                Toy.heap2_lagged [] Unbound Unbound =
              Ok (Toy.heap2_lagged_expanded, [1; 2]%nat,
                  Bound (Some [2 # 1; 0; -1 # 1]%Q),
                  Bound (Some [3 # 1; 0; -1 # 1]%Q)))
    by (vm_compute; reflexivity).
  split; [exact H|].
  destruct (self_mask_len_wait_k Toy.lagged Toy.decoder_masks Toy.args
              Toy.call 2 0%nat Toy.heap2_lagged [] Unbound Unbound
              Toy.heap2_lagged_expanded [1; 2]%nat
              (Bound (Some [2 # 1; 0; -1 # 1]%Q))
              (Bound (Some [3 # 1; 0; -1 # 1]%Q))
              (Hyp 0 0 1) [2; 0] [2; 0; 1] H eq_refl eq_refl eq_refl)
    as (m_st & m_asr & (_ & Hst & _) & (_ & _ & Hasr) & _ & Hl & _ & Hla).
  - left. simpl. discriminate.
  - exists m_st, m_asr.
    split; [apply Hst; simpl; lia|]. split; [apply Hasr; simpl; lia|].
    split.
    + apply Hl. simpl. intros [[Hc _]|Hc]; [discriminate | lia].
    + apply Hla. simpl. intros [[_ Hc]|Hc]; lia.
Defined.

Lemma expand_all_spec M fwd ta ca i hs h kept l la h' kept' l' la' :
  expand_all M fwd ta ca i hs h kept l la = Ok (h', kept', l', la') ->
  heap_le h h' /\
  forall n0 : nat,
    (n0 <= length (dicts h))%nat ->
    (forall c, c ∈ kept -> (n0 <= c < length (dicts h))%nat) ->
    NoDup kept ->
    (forall c, c ∈ kept' -> (n0 <= c < length (dicts h'))%nat) /\ NoDup kept'.
Proof.
  revert h kept l la. induction hs as [|a hs IH]; intros h kept l la H;
    simpl in H.
  - inv_res. subst. split; [apply heap_le_refl | auto].
  - apply bind_Ok in H as ([[[h1 kept1] l1] la1] & Hx & H).
    apply expand_hyp_spec in Hx
      as (d & ys & ys_asr & lst & lasr & sel & _ & _ & _ & _ & _ & _ & _ & Hx).
    apply expand_spec in Hx as (Hle1 & _ & Hk1 & Hnd1).
    apply IH in H as (Hle & Hrest).
    split; [eapply heap_le_trans; eassumption|].
    intros n0 Hn0 Hk Hnd. apply (Hrest n0).
    + apply heap_le_dicts_length in Hle1. lia.
    + intros c Hc. apply Hk1 in Hc as [Hc|Hc].
      * apply Hk in Hc. apply heap_le_dicts_length in Hle1. lia.
      * lia.
    + apply Hnd1; [exact Hnd|]. intros c Hc. apply Hk in Hc. lia.
Qed.

Lemma force_eos_spec M field hs h h' :
  force_eos M field hs h = Ok h' ->
  dicts h' = dicts h /\
  length (lists h') = length (lists h) /\
  forall r l, lists h !! r = Some l -> last l = Some (eos M) ->
              lists h' !! r = Some l.
Proof.
  revert h. induction hs as [|a hs IH]; intros h H; simpl in H.
  - inv_res. subst. auto.
  - apply bind_Ok in H as (d & Hd & H).
    apply bind_Ok in H as (l0 & Hl0 & H).
    apply bind_Ok in H as (e & He & H).
    apply load_list_Ok in Hl0. apply last_item_Ok in He.
    apply IH in H as (Hd' & Hlen & Hfr).
    destruct (Z.eqb_spec e (eos M)) as [->|Hne]; [auto|].
    simpl in Hd', Hlen. rewrite length_alter in Hlen.
    split; [exact Hd'|]. split; [exact Hlen|].
    intros r l Hl Hlast. apply Hfr; [|exact Hlast].
    simpl. rewrite list_lookup_alter_ne; [exact Hl|].
    intros <-. rewrite Hl0 in Hl. injection Hl as ->. congruence.
Qed.

Lemma add_score_refs a q h b :
  (fun d => (yseq d, yseq_asr d)) <$> dicts (add_score a q h) !! b =
  (fun d => (yseq d, yseq_asr d)) <$> dicts h !! b.
Proof.
  simpl. destruct (decide (a = b)) as [->|Hne].
  - rewrite list_lookup_alter_eq. now destruct (dicts h !! b).
  - now rewrite list_lookup_alter_ne.
Qed.

Lemma partition_spec M enc_len ta i hs h ended remained h' ended' remained' :
  partition M enc_len ta i hs h ended remained = Ok (h', ended', remained') ->
  lists h' = lists h /\
  (forall b, b ∉ hs -> dicts h' !! b = dicts h !! b) /\
  (forall b, (fun d => (yseq d, yseq_asr d)) <$> dicts h' !! b =
             (fun d => (yseq d, yseq_asr d)) <$> dicts h !! b) /\
  exists new,
    ended' = ended ++ new /\
    (forall b, b ∈ new ->
       b ∈ hs /\
       exists d ys ys_asr,
         dicts h !! b = Some d /\
         lists h !! yseq d = Some ys /\
         lists h !! yseq_asr d = Some ys_asr /\
         finished M enc_len ta (HypVal (score d) ys ys_asr)) /\
    (NoDup hs ->
     forall b, b ∈ new ->
       score_at h' b = (score_at h b + inject_Z (i + 1) * penalty ta)%Q).
Proof.
  revert h ended remained.
  induction hs as [|a hs IH]; intros h ended remained H; simpl in H.
  - inv_res. subst. split; [reflexivity|]. split; [reflexivity|].
    split; [reflexivity|]. exists []. rewrite app_nil_r.
    split; [reflexivity|]. split; intros; exfalso; eapply not_elem_of_nil; eauto.
  - apply bind_Ok in H as (d & Hd & H).
    apply bind_Ok in H as (b1 & Hb1 & H).
    apply bind_Ok in H as (b2 & Hb2 & H).
    apply load_dict_Ok in Hd.
    destruct (b1 && b2) eqn:Eb.
    + apply andb_true_iff in Eb as [-> ->].
      apply bind_Ok in H as (n & Hn & H).
      apply bind_Ok in H as (n_asr & Hna & H).
      unfold ends_with_eos in Hb1, Hb2. unfold list_len in Hn, Hna.
      apply bind_Ok in Hb1 as (ys & Hys & Hb1).
      apply bind_Ok in Hb1 as (e & He & Hb1).
      apply bind_Ok in Hb2 as (ya & Hya & Hb2).
      apply bind_Ok in Hb2 as (ea & Hea & Hb2).
      apply bind_Ok in Hn as (ys' & Hys' & Hn).
      apply bind_Ok in Hna as (ya' & Hya' & Hna).
      rewrite Hys in Hys'. rewrite Hya in Hya'.
      injection Hys' as <-. injection Hya' as <-.
      injection Hb1 as Hb1. injection Hb2 as Hb2. injection Hn as <-.
      injection Hna as <-.
      apply Z.eqb_eq in Hb1, Hb2. subst e ea.
      apply load_list_Ok in Hys, Hya. apply last_item_Ok in He, Hea.
      destruct (_ && _) eqn:Elen in H.
      * apply andb_true_iff in Elen as [Hl1 Hl2].
        apply Z.ltb_lt in Hl1, Hl2.
        apply IH in H as (Hls & Hds & Hrefs & new & -> & Hnew & Hsc).
        simpl in Hls. split; [exact Hls|]. split; [|split].
        -- intros b Hb. apply not_elem_of_cons in Hb as [Hne Hb].
           rewrite (Hds b Hb). simpl. now rewrite list_lookup_alter_ne.
        -- intros b. rewrite Hrefs. apply add_score_refs.
        -- exists (a :: new). rewrite <- app_assoc. split; [reflexivity|].
           split.
           ++ intros b Hb. apply elem_of_cons in Hb as [->|Hb].
              ** split; [left|]. exists d, ys, ya. repeat split; assumption.
              ** destruct (Hnew b Hb) as (Hin & d' & ys' & ya' & Hd' & Hy' & Hya' & Hf).
                 split; [now right|].
                 pose proof (add_score_refs a (inject_Z (i + 1) * penalty ta) h b) as Hr.
                 rewrite Hd' in Hr. simpl in Hr, Hy', Hya'.
                 destruct (dicts h !! b) as [d0|] eqn:Ed0; [|discriminate].
                 simpl in Hr. injection Hr as Hr1 Hr2.
                 exists d0, ys', ya'. rewrite <- Hr1, <- Hr2.
                 repeat split; try assumption; apply Hf.
           ++ intros Hnd b Hb. apply NoDup_cons in Hnd as [Hna Hnd].
              apply elem_of_cons in Hb as [->|Hb].
              ** unfold score_at. rewrite (Hds a Hna). simpl.
                 rewrite list_lookup_alter_eq, Hd. reflexivity.
              ** rewrite (Hsc Hnd b Hb). unfold score_at at 1. simpl.
                 rewrite list_lookup_alter_ne; [reflexivity|].
                 intros <-. apply Hna. apply (Hnew a Hb).
      * apply IH in H as (Hls & Hds & Hrefs & new & -> & Hnew & Hsc).
        split; [exact Hls|]. split; [|split].
        -- intros b Hb. apply not_elem_of_cons in Hb as [_ Hb]. auto.
        -- exact Hrefs.
        -- exists new. split; [reflexivity|]. split.
           ++ intros b Hb. destruct (Hnew b Hb) as [Hin Hx].
              split; [now right | exact Hx].
           ++ intros Hnd. apply NoDup_cons in Hnd as [_ Hnd]. auto.
    + apply IH in H as (Hls & Hds & Hrefs & new & -> & Hnew & Hsc).
      split; [exact Hls|]. split; [|split].
      * intros b Hb. apply not_elem_of_cons in Hb as [_ Hb]. auto.
      * exact Hrefs.
      * exists new. split; [reflexivity|]. split.
        -- intros b Hb. destruct (Hnew b Hb) as [Hin Hx].
           split; [now right | exact Hx].
        -- intros Hnd. apply NoDup_cons in Hnd as [_ Hnd]. auto.
Qed.

(** ** One pass of the loop *)

Lemma cond_force_eos_spec M (b : bool) field hs h h' :
  (if b then force_eos M field hs h else Ok h) = Ok h' ->
  dicts h' = dicts h /\
  length (lists h') = length (lists h) /\
  forall r l, lists h !! r = Some l -> last l = Some (eos M) ->
              lists h' !! r = Some l.
Proof.
  destruct b; [apply force_eos_spec|].
  intros [= ->]. auto.
Qed.

Lemma step_inv M enc_len fwd ed ta ca i st o st' :
  step M enc_len fwd ed ta ca i st = Ok (o, st') ->
  exists h1 kept l la h2 h3 remained vals,
    expand_all M fwd ta ca i (hyps st) (st_heap st) []
      (local_att_scores st) (local_att_scores_asr st) = Ok (h1, kept, l, la) /\
    (if i =? maxlen_of enc_len (maxlenratio ta) - 1
     then force_eos M yseq kept h1 else Ok h1) = Ok h2 /\
    (if i =? maxlen_of enc_len (maxlenratio_asr ta) - 1
     then force_eos M yseq_asr kept h2 else Ok h2) = Ok h3 /\
    partition M enc_len ta i kept h3 (ended_hyps st) [] =
      Ok (st_heap st', ended_hyps st', remained) /\
    mapM (deref (st_heap st')) (ended_hyps st') = Ok vals /\
    (o = EndDetected <-> ed vals i = true /\ (maxlenratio ta == 0)%Q) /\
    (o = NoHypothesis <-> o <> EndDetected /\ remained = []) /\
    hyps st' = (if ed vals i && Qeq_bool (maxlenratio ta) 0 then kept
                else remained).
Proof.
  unfold step. intros H.
  apply bind_Ok in H as ([[[h1 kept] l] la] & Hx & H).
  apply bind_Ok in H as (? & _ & H).
  apply bind_Ok in H as (h2 & Hf1 & H).
  apply bind_Ok in H as (h3 & Hf2 & H).
  apply bind_Ok in H as ([[h4 ended] remained] & Hp & H).
  apply bind_Ok in H as (vals & Hv & H).
  exists h1, kept, l, la, h2, h3, remained, vals.
  assert (Hgate : ed vals i && Qeq_bool (maxlenratio ta) 0 = true <->
                  ed vals i = true /\ (maxlenratio ta == 0)%Q).
  { rewrite andb_true_iff, Qeq_bool_iff. reflexivity. }
  destruct (ed vals i && Qeq_bool (maxlenratio ta) 0) eqn:Eg.
  - injection H as <- <-. simpl. repeat split; try assumption;
      try (apply Hgate; reflexivity); try discriminate.
    intros [Hc _]. now contradiction Hc.
  - assert (Hng : ~ (ed vals i = true /\ (maxlenratio ta == 0)%Q)).
    { intros Hc. apply Hgate in Hc. discriminate. }
    destruct remained as [|r remained]; cbn [length Nat.eqb] in H;
      [|apply bind_Ok in H as (? & _ & H)];
      injection H as <- <-; simpl; repeat split; try assumption;
      try discriminate; try (intros Hc; now apply Hng in Hc);
      try (now intros [_ Hc]).
Qed.


Lemma deref_frame M h h' a v :
  deref h a = Ok v ->
  last (v_yseq v) = Some (eos M) ->
  last (v_yseq_asr v) = Some (eos M) ->
  dicts h' !! a = dicts h !! a ->
  (forall r l, lists h !! r = Some l -> last l = Some (eos M) ->
               lists h' !! r = Some l) ->
  deref h' a = Ok v.
Proof.
  intros (d & Hd & Hy & Hya & Hs)%deref_Ok Hl Hla Hds Hls.
  apply deref_Ok. exists d. rewrite Hds. repeat split; auto.
Qed.

Lemma step_preserves M enc_len fwd ed ta ca i st o st' :
  ended_ok M enc_len ta st ->
  step M enc_len fwd ed ta ca i st = Ok (o, st') ->
  ended_ok M enc_len ta st' /\
  ended_hyps st `prefix_of` ended_hyps st' /\
  forall a v, a ∈ ended_hyps st -> deref (st_heap st) a = Ok v ->
              deref (st_heap st') a = Ok v.
Proof.
  intros Hinv H.
  apply step_inv in H
    as (h1 & kept & l & la & h2 & h3 & rem & vals
        & Hx & Hf1 & Hf2 & Hp & _ & _ & _ & _).
  apply expand_all_spec in Hx as (Hle & Hk).
  destruct (Hk (length (dicts (st_heap st)))) as (Hk1 & Hnd);
    [lia | intros c Hc; now apply not_elem_of_nil in Hc | apply NoDup_nil_2 |].
  apply cond_force_eos_spec in Hf1 as (Hd1 & _ & Hl1).
  apply cond_force_eos_spec in Hf2 as (Hd2 & _ & Hl2).
  apply partition_spec in Hp as (Hls & Hds & Hrefs & new & Hnew & Hfin & Hsc).
  assert (Hframe : forall a v, a ∈ ended_hyps st ->
            deref (st_heap st) a = Ok v -> deref (st_heap st') a = Ok v).
  { intros a v Ha Hv. destruct (Hinv a Ha) as (v0 & Hv0 & Hf0 & Hfa0 & _).
    rewrite Hv in Hv0. injection Hv0 as <-.
    assert (Hlt : (a < length (dicts (st_heap st)))%nat).
    { apply deref_Ok in Hv as (d & Hd & _). eapply lookup_lt_Some, Hd. }
    apply (heap_le_deref _ _ _ _ Hle) in Hv.
    apply (deref_frame M h1 h2) in Hv; auto; [|now rewrite Hd1].
    apply (deref_frame M h2 h3) in Hv; auto; [|now rewrite Hd2].
    apply (deref_frame M h3 (st_heap st')); auto.
    - apply Hds. intros Hin. apply Hk1 in Hin. lia.
    - intros r l0 Hr _. now rewrite Hls. }
  split; [|split; [rewrite Hnew; now apply prefix_app_r | exact Hframe]].
  intros a Ha. rewrite Hnew in Ha. apply elem_of_app in Ha as [Ha|Ha].
  - destruct (Hinv a Ha) as (v & Hv & Hf). exists v. split; [|exact Hf].
    now apply Hframe.
  - destruct (Hfin a Ha) as (_ & d & ys & ya & Hd & Hy & Hya & Hf).
    pose proof (Hrefs a) as Hr. rewrite Hd in Hr. simpl in Hr.
    destruct (dicts (st_heap st') !! a) as [d'|] eqn:Ed'; [|discriminate].
    simpl in Hr. injection Hr as Hr1 Hr2.
    exists (HypVal (score d') ys ya). split.
    + apply deref_Ok. exists d'. rewrite Hls, Hr1, Hr2. simpl. auto.
    + exact Hf.
Qed.

Lemma loop_preserves M enc_len fwd ed ta ca n i st st' :
  ended_ok M enc_len ta st ->
  loop M enc_len fwd ed ta ca n i st = Ok st' ->
  ended_ok M enc_len ta st' /\
  ended_hyps st `prefix_of` ended_hyps st' /\
  forall a v, a ∈ ended_hyps st -> deref (st_heap st) a = Ok v ->
              deref (st_heap st') a = Ok v.
Proof.
  revert i st. induction n as [|n IH]; intros i st Hinv H; simpl in H.
  - injection H as <-. split; [exact Hinv|]. split; [reflexivity | auto].
  - apply bind_Ok in H as ([o st1] & Hs & H).
    destruct (step_preserves _ _ _ _ _ _ _ _ _ _ Hinv Hs) as (Hinv1 & Hp1 & Hf1).
    assert (Hdone : Ok st1 = Ok st' ->
              ended_ok M enc_len ta st' /\
              ended_hyps st `prefix_of` ended_hyps st' /\
              forall a v, a ∈ ended_hyps st -> deref (st_heap st) a = Ok v ->
                          deref (st_heap st') a = Ok v).
    { intros [= <-]. auto. }
    destruct o; [|exact (Hdone H)|exact (Hdone H)].
    apply IH in H as (Hinv' & Hp' & Hf'); [|exact Hinv1].
    split; [exact Hinv'|]. split; [etrans; eassumption|].
    intros a v Ha Hv. apply Hf'.
    + eapply elem_of_prefix; eassumption.
    + now apply Hf1.
Qed.

(** ** Streams that have ended *)

(** C6 (as amended).  At a step [i > 2], when a stream of the parent
    hypothesis already ends with [eos], that stream of every new hypothesis
    made from it is either the parent's stream followed by one more [eos]
    (when [i] has reached the partner's lag) or the parent's stream itself,
    unchanged and shared (while [i] is below that lag); no other token is
    ever placed after the [eos]. *)
Theorem ended_stream_padded_with_eos
    M fwd ta ca i a h kept l l_asr h' kept' l' l_asr' d ys ys_asr :
  expand_hyp M fwd ta ca i a h kept l l_asr = Ok (h', kept', l', l_asr') ->
  dicts h !! a = Some d ->
  lists h !! yseq d = Some ys ->
  lists h !! yseq_asr d = Some ys_asr ->
  2 < i ->
  forall c, (length (dicts h) <= c < length (dicts h'))%nat ->
    exists d', dicts h' !! c = Some d' /\
      (last ys = Some (eos M) ->
       exists ys', lists h' !! yseq d' = Some ys' /\
         ((wait_k_asr M <= i /\ ys' = ys ++ [eos M]) \/
          (i < wait_k_asr M /\ yseq d' = yseq d /\ ys' = ys))) /\
      (last ys_asr = Some (eos M) ->
       exists ys', lists h' !! yseq_asr d' = Some ys' /\
         ((wait_k_st M <= i /\ ys' = ys_asr ++ [eos M]) \/
          (i < wait_k_st M /\ yseq_asr d' = yseq_asr d /\ ys' = ys_asr))).
Proof.
  intros H Hd Hys Hya Hi c Hc.
  apply expand_hyp_spec in H
    as (d0 & ys0 & ya0 & lst & lasr & sel
        & Hd0 & Hys0 & Hya0 & _ & _ & Hst & Hasr & Hx).
  rewrite Hd in Hd0. injection Hd0 as <-.
  rewrite Hys in Hys0. injection Hys0 as <-.
  rewrite Hya in Hya0. injection Hya0 as <-.
  apply expand_spec in Hx as (Hle & Hch & _).
  destruct (Hch c Hc) as (d' & Hd' & Hc1 & Hc2).
  exists d'. split; [exact Hd'|]. split.
  - intros Hl. rewrite (Hst (or_introl (conj Hl Hi))) in Hc1.
    unfold child_stream in Hc1.
    destruct (Z.leb_spec (wait_k_asr M) i).
    + destruct Hc1 as [_ Hc1]. exists (ys ++ [eos M]). split; [exact Hc1|].
      left. split; [assumption | reflexivity].
    + exists ys. split.
      * rewrite Hc1. eapply heap_le_list; eassumption.
      * right. repeat split; assumption.
  - intros Hl. rewrite (Hasr (or_introl (conj Hl Hi))) in Hc2.
    unfold child_stream in Hc2.
    destruct (Z.leb_spec (wait_k_st M) i).
    + destruct Hc2 as [_ Hc2]. exists (ys_asr ++ [eos M]).
      split; [exact Hc2|]. left. split; [assumption | reflexivity].
    + exists ys_asr. split.
      * rewrite Hc2. eapply heap_le_list; eassumption.
      * right. repeat split; assumption.
Qed.

(** ** Copy-on-expand and the Ended set *)


Lemma init_state_ended_ok M enc_len ta : ended_ok M enc_len ta (init_state M).
Proof. intros a Ha. simpl in Ha. now apply not_elem_of_nil in Ha. Qed.


(** ** Hypotheses returned by the method *)

Lemma search_ended_ok M enc_len fwd ed ta ca st :
  search M enc_len fwd ed ta ca = Ok st -> ended_ok M enc_len ta st.
Proof.
  unfold search. destruct (do_asr M); [|discriminate].
  destruct (char_list ca) as [cl|]; [|discriminate].
  intros H. simpl in H.
  apply bind_Ok in H as (? & _ & H). apply bind_Ok in H as (? & _ & H).
  apply loop_preserves in H as (H & _); [exact H|].
  apply init_state_ended_ok.
Qed.

Lemma finished_relaxed_iter M enc_len ta k v :
  finished M enc_len (Nat.iter k relaxed (relaxed ta)) v ->
  finished M enc_len (Nat.iter (S k) relaxed ta) v.
Proof. now rewrite Nat.iter_succ_r. Qed.

(** C2.  Every hypothesis the method returns has both token sequences
    ending with [eos] and longer than the minimum lengths of the invocation
    that produced the result: the caller's own ratios when the first search
    already yields a result ([k = 0]), and the ratios relaxed [k] times when
    the empty-result retry was taken [k] times. *)
Theorem returned_hypotheses_finished M enc_len fwd ed depth ta ca result :
  recognize_and_translate_sum M enc_len fwd ed depth ta ca = Ok result ->
  exists k : nat,
    (k < depth)%nat /\
    (forall st, search M enc_len fwd ed ta ca = Ok st ->
                nbest_hyps ta st <> [] -> k = 0%nat) /\
    Forall (finished M enc_len (Nat.iter k relaxed ta)) result.
Proof.
  revert ta ca. induction depth as [|depth IH]; intros ta ca H.
  - discriminate.
  - simpl in H. apply bind_Ok in H as (st & Hst & H).
    destruct (length (nbest_hyps ta st) =? 0)%nat eqn:E.
    + apply IH in H as (k & Hk & _ & Hf).
      exists (S k). split; [lia|]. split.
      * intros st' Hst' Hne. rewrite Hst in Hst'. injection Hst' as <-.
        apply Nat.eqb_eq in E. destruct (nbest_hyps ta st); [congruence|].
        discriminate.
      * eapply Forall_impl; [exact Hf|].
        intros v. apply finished_relaxed_iter.
    + exists 0%nat. split; [lia|]. split; [reflexivity|].
      apply mapM_Forall2 in H. apply Forall_forall. intros v Hv.
      destruct (Forall2_elem_of_r _ _ _ _ H Hv) as (a & Ha & Hda).
      eapply elem_of_sublist in Ha; [|apply nbest_hyps_sublist].
      rewrite sorted_desc_perm in Ha.
      destruct (search_ended_ok _ _ _ _ _ _ _ Hst a Ha) as (v' & Hv' & Hf).
      rewrite Hda in Hv'. injection Hv' as <-. exact Hf.
Qed.

(** * Concrete runs *)

Lemma nbest_bounded_and_sorted_witness :
  1 <= nbest Toy.args /\
  recognize_and_translate_sum Toy.plain Toy.enc_len Toy.decoder Toy.never_end
    3 Toy.args Toy.call = Ok Toy.result /\
  Z.of_nat (length Toy.result) <= nbest Toy.args /\
  score_desc Toy.result.
Proof.
  assert (Hn : 1 <= nbest Toy.args) by (simpl; lia).
  assert (Hr : recognize_and_translate_sum Toy.plain Toy.enc_len Toy.decoder
                 Toy.never_end 3 Toy.args Toy.call = Ok Toy.result)
    by (vm_compute; reflexivity).
  split; [exact Hn|]. split; [exact Hr|].
  exact (nbest_bounded_and_sorted Toy.plain Toy.enc_len Toy.decoder
           Toy.never_end 3 Toy.args Toy.call Toy.result Hn Hr).
Defined.

Lemma returned_hypotheses_finished_witness :
  recognize_and_translate_sum Toy.plain Toy.enc_len Toy.decoder Toy.never_end
    3 Toy.args_long Toy.call_diverse = Ok Toy.result_long /\
  exists k : nat,
    (k < 3)%nat /\
    (forall st,
       search Toy.plain Toy.enc_len Toy.decoder Toy.never_end
         Toy.args_long Toy.call_diverse = Ok st ->
       nbest_hyps Toy.args_long st <> [] -> k = 0%nat) /\
    Forall (finished Toy.plain Toy.enc_len (Nat.iter k relaxed Toy.args_long))
      Toy.result_long.
Proof.
  assert (Hr : recognize_and_translate_sum Toy.plain Toy.enc_len Toy.decoder
                 Toy.never_end 3 Toy.args_long Toy.call_diverse
               = Ok Toy.result_long)
    by (vm_compute; reflexivity).
  split; [exact Hr|].
  exact (returned_hypotheses_finished Toy.plain Toy.enc_len Toy.decoder
           Toy.never_end 3 Toy.args_long Toy.call_diverse Toy.result_long Hr).
Defined.

Lemma ended_stream_padded_with_eos_witness :
  exists d', dicts Toy.heap3_expanded !! 1%nat = Some d' /\
    (last [2; 0; 0; 2] = Some (eos Toy.plain) ->
     exists ys', lists Toy.heap3_expanded !! yseq d' = Some ys' /\
       ((wait_k_asr Toy.plain <= 3 /\ ys' = [2; 0; 0; 2] ++ [eos Toy.plain]) \/
        (3 < wait_k_asr Toy.plain /\ yseq d' = 0%nat /\ ys' = [2; 0; 0; 2]))) /\
    (last [2; 0; 0; 1] = Some (eos Toy.plain) ->
     exists ys', lists Toy.heap3_expanded !! yseq_asr d' = Some ys' /\
       ((wait_k_st Toy.plain <= 3 /\ ys' = [2; 0; 0; 1] ++ [eos Toy.plain]) \/
        (3 < wait_k_st Toy.plain /\ yseq_asr d' = 1%nat /\
         ys' = [2; 0; 0; 1]))).
Proof.
  apply (ended_stream_padded_with_eos Toy.plain Toy.decoder Toy.args Toy.call
           3 0%nat Toy.heap3 [] Unbound Unbound Toy.heap3_expanded
           [1; 2]%nat (Bound None) (Bound (Some [-3 # 1; -2 # 1; -1 # 1]%Q))
           (Hyp (-4 # 1) 0 1) [2; 0; 0; 2] [2; 0; 0; 1]).
  - vm_compute. reflexivity.
  - reflexivity.
  - reflexivity.
  - reflexivity.
  - lia.
  - simpl. lia.
Defined.

(** C6 (as stated) fails.  With no lag and minimum length 0, a beam entry at
    step 3 whose ST stream [sos 0 0 eos] has ended yields new hypotheses
    whose ST stream is [sos 0 0 eos eos]: a token was appended. *)
Lemma eos_appended_after_end :
  ~ st_stream_frozen Toy.plain Toy.enc_len Toy.decoder Toy.args Toy.call.
Proof.
  intros H.
  specialize (H 3 0%nat Toy.heap3 [] Unbound Unbound Toy.heap3_expanded
                [1; 2]%nat (Bound None)
                (Bound (Some [-3 # 1; -2 # 1; -1 # 1]%Q))
                (Hyp (-4 # 1) 0 1) [2; 0; 0; 2]).
  assert (Hc : lists Toy.heap3_expanded !! yseq (Hyp (-5 # 1) 2 3)
               = Some [2; 0; 0; 2]).
  { apply (H ltac:(vm_compute; reflexivity) eq_refl eq_refl eq_refl
             ltac:(simpl; lia) ltac:(vm_compute; reflexivity) 1%nat).
    - simpl. lia.
    - reflexivity. }
  discriminate Hc.
Qed.





Lemma empty_result_retry_witness :
  1 <= nbest Toy.args_long /\
  search Toy.plain Toy.enc_len Toy.decoder Toy.never_end Toy.args_long
    Toy.call_diverse = Ok Toy.searched_long /\
  ended_hyps Toy.searched_long = [] /\
  recognize_and_translate_sum Toy.plain Toy.enc_len Toy.decoder Toy.never_end
    3 Toy.args_long Toy.call_diverse =
  recognize_and_translate_sum Toy.plain Toy.enc_len Toy.decoder Toy.never_end
    2 (relaxed Toy.args_long) (retry_args Toy.call_diverse) /\
  (minlenratio (relaxed Toy.args_long) == 11 # 10)%Q /\
  (minlenratio_asr (relaxed Toy.args_long) == 11 # 10)%Q.
Proof.
  assert (Hn : 1 <= nbest Toy.args_long) by (simpl; lia).
  assert (Hs : search Toy.plain Toy.enc_len Toy.decoder Toy.never_end
                 Toy.args_long Toy.call_diverse = Ok Toy.searched_long)
    by (vm_compute; reflexivity).
  assert (He : ended_hyps Toy.searched_long = []) by (vm_compute; reflexivity).
  destruct (empty_result_retry Toy.plain Toy.enc_len Toy.decoder Toy.never_end
              2 Toy.args_long Toy.call_diverse Toy.searched_long Hn Hs)
    as (Hretry & _ & _ & _ & _ & _ & Hm & Hma).
  split; [exact Hn|]. split; [exact Hs|]. split; [exact He|].
  split; [exact (Hretry He)|]. split.
  - rewrite Hm; [reflexivity | vm_compute; discriminate].
  - rewrite Hma; [reflexivity | vm_compute; discriminate].
Defined.

Lemma retry_resets_keyword_arguments_witness :
  ratio_diverse_st Toy.call_st_diverse = (1 # 2)%Q /\
  search Toy.plain Toy.enc_len Toy.decoder_close Toy.never_end Toy.args_short
    Toy.call_st_diverse = Ok Toy.searched_short /\
  nbest_hyps Toy.args_short Toy.searched_short = [] /\
  search Toy.plain Toy.enc_len Toy.decoder_close Toy.never_end
    (TransArgs 2 0 0 0 (py_max 0 ((4 # 5) - (1 # 10)))
       (py_max 0 ((4 # 5) - (1 # 10))) 2)%Q
    (CallArgs (Some Toy.symbols) false false 1 false 0 0 false)
    = Ok Toy.retried_short /\
  mapM (deref (st_heap Toy.retried_short))
    (nbest_hyps (relaxed Toy.args_short) Toy.retried_short)
    = Ok Toy.result_short /\
  recognize_and_translate_sum Toy.plain Toy.enc_len Toy.decoder_close
    Toy.never_end 2 Toy.args_short Toy.call_st_diverse = Ok Toy.result_short /\
  search Toy.plain Toy.enc_len Toy.decoder_close Toy.never_end
    (relaxed Toy.args_short) Toy.call_st_diverse
    = Ok Toy.retried_short_diverse /\
  mapM (deref (st_heap Toy.retried_short_diverse))
    (nbest_hyps (relaxed Toy.args_short) Toy.retried_short_diverse)
    = Ok Toy.result_short_diverse /\
  Toy.result_short <> Toy.result_short_diverse.
Proof.
  assert (Hs : search Toy.plain Toy.enc_len Toy.decoder_close Toy.never_end
                 Toy.args_short Toy.call_st_diverse = Ok Toy.searched_short)
    by (vm_compute; reflexivity).
  assert (He : nbest_hyps Toy.args_short Toy.searched_short = [])
    by (vm_compute; reflexivity).
  assert (Hr : search Toy.plain Toy.enc_len Toy.decoder_close Toy.never_end
                 (TransArgs 2 0 0 0 (py_max 0 ((4 # 5) - (1 # 10)))
                    (py_max 0 ((4 # 5) - (1 # 10))) 2)%Q
                 (CallArgs (Some Toy.symbols) false false 1 false 0 0 false)
               = Ok Toy.retried_short)
    by (vm_compute; reflexivity).
  assert (Hv : mapM (deref (st_heap Toy.retried_short))
                 (nbest_hyps (relaxed Toy.args_short) Toy.retried_short)
               = Ok Toy.result_short)
    by (vm_compute; reflexivity).
  assert (Hne : nbest_hyps (relaxed Toy.args_short) Toy.retried_short <> [])
    by (vm_compute; discriminate).
  destruct (retry_resets_keyword_arguments Toy.plain Toy.enc_len
              Toy.decoder_close Toy.never_end 0 Toy.args_short
              Toy.call_st_diverse Toy.searched_short Hs He)
    as (_ & Hrun & _).
  split; [reflexivity|]. split; [exact Hs|]. split; [exact He|].
  split; [exact Hr|]. split; [exact Hv|].
  split; [exact (eq_trans (Hrun Toy.retried_short Hr Hne) Hv)|].
  split; [vm_compute; reflexivity|].
  split; [vm_compute; reflexivity|].
  vm_compute. discriminate.
Defined.

(** * Further properties of the search *)

(** ** Forced end of sequence *)

Lemma force_eos_lists M field hs h h' :
  force_eos M field hs h = Ok h' ->
  forall r l, lists h !! r = Some l ->
    exists l', lists h' !! r = Some l' /\
               (l' = l \/ (l' = l ++ [eos M] /\ last l <> Some (eos M))).
Proof.
  revert h. induction hs as [|a hs IH]; intros h H r l Hl; simpl in H.
  - injection H as <-. eauto.
  - apply bind_Ok in H as (d & Hd & H).
    apply bind_Ok in H as (l0 & Hl0 & H).
    apply bind_Ok in H as (e & He & H).
    apply load_list_Ok in Hl0. apply last_item_Ok in He.
    destruct (Z.eqb_spec e (eos M)) as [->|Hne]; [eauto|].
    destruct (decide (field d = r)) as [Hr|Hr].
    + rewrite Hr in *. rewrite Hl0 in Hl. injection Hl as ->.
      apply force_eos_spec in H as (_ & _ & Hfr).
      exists (l ++ [eos M]). split.
      * apply Hfr; [|apply last_snoc].
        simpl. rewrite list_lookup_alter_eq, Hl0. reflexivity.
      * right. split; [reflexivity|]. congruence.
    + eapply IH; [exact H|]. simpl. now rewrite list_lookup_alter_ne.
Qed.

Lemma force_eos_all_end M field hs h h' :
  force_eos M field hs h = Ok h' ->
  forall a, a ∈ hs ->
    exists d l, dicts h' !! a = Some d /\ lists h' !! field d = Some l /\
                last l = Some (eos M).
Proof.
  revert h. induction hs as [|a hs IH]; intros h H b Hb.
  - now apply not_elem_of_nil in Hb.
  - simpl in H.
    apply bind_Ok in H as (d & Hd & H).
    apply bind_Ok in H as (l0 & Hl0 & H).
    apply bind_Ok in H as (e & He & H).
    apply load_dict_Ok in Hd. apply load_list_Ok in Hl0.
    apply last_item_Ok in He.
    apply elem_of_cons in Hb as [->|Hb]; [|eapply IH; eassumption].
    pose proof (force_eos_spec _ _ _ _ _ H) as (Hd' & _ & Hfr).
    destruct (Z.eqb_spec e (eos M)) as [->|Hne].
    + exists d, l0. rewrite Hd'. split; [exact Hd|]. split; [|exact He].
      now apply Hfr.
    + exists d, (l0 ++ [eos M]). rewrite Hd'. split; [exact Hd|].
      split; [|apply last_snoc]. apply Hfr; [|apply last_snoc].
      simpl. rewrite list_lookup_alter_eq, Hl0. reflexivity.
Qed.

(** X1.  After the forced-eos loop over the beam (lines 681-690), the
    chosen stream of every hypothesis of the beam ends with [eos], also when
    several hypotheses share one list object; the dicts are untouched and
    every list is what it was or that with one [eos] appended, the latter
    only if it did not end with [eos]. *)
Theorem force_eos_ends_every_stream M field hs h h' :
  force_eos M field hs h = Ok h' ->
  dicts h' = dicts h /\
  (forall a, a ∈ hs ->
     exists d l, dicts h' !! a = Some d /\ lists h' !! field d = Some l /\
                 last l = Some (eos M)) /\
  (forall r l, lists h !! r = Some l ->
     exists l', lists h' !! r = Some l' /\
                (l' = l \/ (l' = l ++ [eos M] /\ last l <> Some (eos M)))).
Proof.
  intros H. split; [apply (force_eos_spec _ _ _ _ _ H)|].
  split; [apply (force_eos_all_end _ _ _ _ _ H)|].
  apply (force_eos_lists _ _ _ _ _ H).
Qed.

(** ** The last pass of the loop *)

Lemma expand_nonempty M ta js i d ys ys_asr lst lasr sel h kept h' kept' :
  expand M ta js i d ys ys_asr lst lasr sel h kept = Ok (h', kept') ->
  1 <= beam_size ta -> js <> [] \/ kept <> [] -> kept' <> [].
Proof.
  intros H Hb. revert h kept H.
  induction js as [|j js IH]; intros h kept H Hne; simpl in H.
  - injection H as <- <-. destruct Hne as [Hne|Hne]; congruence.
  - apply bind_Ok in H as (s & _ & H).
    apply bind_Ok in H as ([r h1] & _ & H).
    apply bind_Ok in H as ([r_asr h2] & _ & H).
    simpl in H. eapply IH; [exact H|]. right.
    intros Hnil. apply (f_equal length) in Hnil.
    rewrite slice_to_length in Hnil by lia.
    rewrite sorted_desc_length, length_app in Hnil. simpl in Hnil. lia.
Qed.

Lemma expand_all_nonempty M fwd ta ca i hs h kept l la h' kept' l' la' :
  expand_all M fwd ta ca i hs h kept l la = Ok (h', kept', l', la') ->
  1 <= beam_size ta -> hs <> [] \/ kept <> [] -> kept' <> [].
Proof.
  intros H Hb. revert h kept l la H.
  induction hs as [|a hs IH]; intros h kept l la H Hne; simpl in H.
  - injection H as <- <- <- <-. destruct Hne as [Hne|Hne]; congruence.
  - apply bind_Ok in H as ([[[h1 kept1] l1] la1] & Hx & H).
    eapply IH; [exact H|]. right.
    apply expand_hyp_spec in Hx
      as (d & ys & ys_asr & lst & lasr & sel & _ & _ & _ & _ & _ & _ & _ & Hx).
    eapply expand_nonempty; [exact Hx|exact Hb|].
    left. destruct (Z.to_nat (beam_size ta)) eqn:E; [lia|]. discriminate.
Qed.

Lemma ends_with_eos_Ok M r h b :
  ends_with_eos M r h = Ok b ->
  exists l e, lists h !! r = Some l /\ last l = Some e /\ b = (e =? eos M).
Proof.
  unfold ends_with_eos. intros H.
  apply bind_Ok in H as (l & Hl & H). apply bind_Ok in H as (e & He & H).
  injection H as <-. apply load_list_Ok in Hl. apply last_item_Ok in He.
  eauto.
Qed.

Lemma add_score_lookup b q h a d :
  dicts h !! a = Some d ->
  exists d', dicts (add_score b q h) !! a = Some d' /\
             yseq d' = yseq d /\ yseq_asr d' = yseq_asr d.
Proof.
  intros Hd. simpl. destruct (decide (b = a)) as [->|Hne].
  - rewrite list_lookup_alter_eq, Hd. simpl. eauto.
  - rewrite list_lookup_alter_ne by exact Hne. eauto.
Qed.

Lemma add_score_lookup_inv b q h a d' :
  dicts (add_score b q h) !! a = Some d' ->
  exists d, dicts h !! a = Some d /\
            yseq d' = yseq d /\ yseq_asr d' = yseq_asr d.
Proof.
  simpl. destruct (decide (b = a)) as [->|Hne].
  - rewrite list_lookup_alter_eq. destruct (dicts h !! a) as [d|]; [|discriminate].
    intros [= <-]. eauto.
  - rewrite list_lookup_alter_ne by exact Hne. eauto.
Qed.

Lemma both_ended_add_score M b q h a :
  both_ended M (add_score b q h) a <-> both_ended M h a.
Proof.
  unfold both_ended, ends_eos. split.
  - intros (d' & Hd' & H1 & H2).
    apply add_score_lookup_inv in Hd' as (d & Hd & E1 & E2).
    exists d. rewrite <- E1, <- E2. auto.
  - intros (d & Hd & H1 & H2).
    apply (add_score_lookup b q) in Hd as (d' & Hd' & E1 & E2).
    exists d'. rewrite E1, E2. auto.
Qed.

Lemma long_enough_add_score enc_len ta b q h a :
  long_enough enc_len ta (add_score b q h) a <-> long_enough enc_len ta h a.
Proof.
  unfold long_enough. split.
  - intros (d' & ys & ya & Hd' & H1 & H2 & H3).
    apply add_score_lookup_inv in Hd' as (d & Hd & E1 & E2).
    exists d, ys, ya. rewrite <- E1, <- E2. auto.
  - intros (d & ys & ya & Hd & H1 & H2 & H3).
    apply (add_score_lookup b q) in Hd as (d' & Hd' & E1 & E2).
    exists d', ys, ya. rewrite E1, E2. auto.
Qed.

Lemma not_both_ended_st M h a d ys e :
  dicts h !! a = Some d -> lists h !! yseq d = Some ys -> last ys = Some e ->
  e <> eos M -> ~ both_ended M h a.
Proof.
  intros Hd Hys He Hne (d' & Hd' & (l & Hl & Hlast) & _).
  rewrite Hd in Hd'. injection Hd' as <-.
  rewrite Hys in Hl. injection Hl as <-. congruence.
Qed.

Lemma not_both_ended_asr M h a d ya e :
  dicts h !! a = Some d -> lists h !! yseq_asr d = Some ya ->
  last ya = Some e -> e <> eos M -> ~ both_ended M h a.
Proof.
  intros Hd Hya He Hne (d' & Hd' & _ & (l & Hl & Hlast)).
  rewrite Hd in Hd'. injection Hd' as <-.
  rewrite Hya in Hl. injection Hl as <-. congruence.
Qed.

(** Where each hypothesis of the beam goes in the partition. *)
Lemma partition_cover M enc_len ta i hs h ended remained h' ended' remained' :
  partition M enc_len ta i hs h ended remained = Ok (h', ended', remained') ->
  exists new rnew,
    ended' = ended ++ new /\ remained' = remained ++ rnew /\
    new `sublist_of` hs /\ rnew `sublist_of` hs /\
    (forall a, a ∈ new -> both_ended M h a /\ long_enough enc_len ta h a) /\
    (forall a, a ∈ rnew -> ~ both_ended M h a) /\
    (forall a, a ∈ hs ->
       a ∈ new \/ (both_ended M h a /\ ~ long_enough enc_len ta h a) \/
       a ∈ rnew).
Proof.
  revert h ended remained.
  induction hs as [|a hs IH]; intros h ended remained H; simpl in H.
  - injection H as <- <- <-. exists [], []. rewrite !app_nil_r.
    do 4 (split; [reflexivity|]).
    split; [|split]; intros b Hb; now apply not_elem_of_nil in Hb.
  - apply bind_Ok in H as (d & Hd & H).
    apply bind_Ok in H as (b1 & Hb1 & H).
    apply bind_Ok in H as (b2 & Hb2 & H).
    apply load_dict_Ok in Hd.
    apply ends_with_eos_Ok in Hb1 as (ys & e & Hys & He & Eb1).
    destruct b1.
    + symmetry in Eb1. apply Z.eqb_eq in Eb1. subst e.
      apply ends_with_eos_Ok in Hb2 as (ya & ea & Hya & Hea & Eb2).
      destruct b2; simpl in H.
      * symmetry in Eb2. apply Z.eqb_eq in Eb2. subst ea.
        assert (Hboth : both_ended M h a).
        { exists d. split; [exact Hd|]. split; [exists ys|exists ya]; auto. }
        apply bind_Ok in H as (n & Hn & H).
        apply bind_Ok in H as (n_asr & Hna & H).
        unfold list_len in Hn, Hna.
        apply bind_Ok in Hn as (ys' & Hys' & Hn).
        apply bind_Ok in Hna as (ya' & Hya' & Hna).
        apply load_list_Ok in Hys', Hya'.
        rewrite Hys in Hys'. rewrite Hya in Hya'.
        injection Hys' as <-. injection Hya' as <-.
        injection Hn as <-. injection Hna as <-.
        destruct (_ && _) eqn:Elen in H.
        -- apply andb_true_iff in Elen as [Hl1 Hl2].
           apply Z.ltb_lt in Hl1, Hl2.
           apply IH in H as (new & rnew & -> & -> & Hs1 & Hs2 & Hn & Hr & Hall).
           exists (a :: new), rnew. rewrite <- app_assoc.
           split; [reflexivity|]. split; [reflexivity|].
           split; [now apply sublist_skip|]. split; [now apply sublist_cons|].
           split; [|split].
           ++ intros b Hb. apply elem_of_cons in Hb as [->|Hb].
              ** split; [exact Hboth|]. exists d, ys, ya. auto.
              ** destruct (Hn b Hb) as [H1 H2].
                 apply both_ended_add_score in H1.
                 apply long_enough_add_score in H2. auto.
           ++ intros b Hb Hc. apply (Hr b Hb).
              now apply both_ended_add_score.
           ++ intros b Hb. apply elem_of_cons in Hb as [->|Hb]; [left; left|].
              destruct (Hall b Hb) as [H1|[(H1 & H2)|H1]].
              ** left. now right.
              ** right. left. apply both_ended_add_score in H1.
                 split; [exact H1|]. intros Hc. apply H2.
                 now apply long_enough_add_score.
              ** now right; right.
        -- apply IH in H as (new & rnew & -> & -> & Hs1 & Hs2 & Hn & Hr & Hall).
           exists new, rnew. split; [reflexivity|]. split; [reflexivity|].
           split; [now apply sublist_cons|]. split; [now apply sublist_cons|].
           split; [exact Hn|]. split; [exact Hr|].
           intros b Hb. apply elem_of_cons in Hb as [->|Hb]; [|auto].
           right. left. split; [exact Hboth|].
           intros (d' & ys' & ya' & Hd' & Hys' & Hya' & Hl1 & Hl2).
           rewrite Hd in Hd'. injection Hd' as <-.
           rewrite Hys in Hys'. injection Hys' as <-.
           rewrite Hya in Hya'. injection Hya' as <-.
           apply Z.ltb_lt in Hl1, Hl2. rewrite Hl1, Hl2 in Elen.
           discriminate.
      * symmetry in Eb2. apply Z.eqb_neq in Eb2.
        apply IH in H as (new & rnew & -> & -> & Hs1 & Hs2 & Hn & Hr & Hall).
        exists new, (a :: rnew). rewrite <- app_assoc.
        split; [reflexivity|]. split; [reflexivity|].
        split; [now apply sublist_cons|]. split; [now apply sublist_skip|].
        split; [exact Hn|]. split.
        -- intros b Hb. apply elem_of_cons in Hb as [->|Hb]; [|auto].
           eapply not_both_ended_asr; eassumption.
        -- intros b Hb. apply elem_of_cons in Hb as [->|Hb].
           ++ right. right. left.
           ++ destruct (Hall b Hb) as [H1|[H1|H1]]; auto.
              right. right. now right.
    + symmetry in Eb1. apply Z.eqb_neq in Eb1.
      injection Hb2 as <-. simpl in H.
      apply IH in H as (new & rnew & -> & -> & Hs1 & Hs2 & Hn & Hr & Hall).
      exists new, (a :: rnew). rewrite <- app_assoc.
      split; [reflexivity|]. split; [reflexivity|].
      split; [now apply sublist_cons|]. split; [now apply sublist_skip|].
      split; [exact Hn|]. split.
      * intros b Hb. apply elem_of_cons in Hb as [->|Hb]; [|auto].
        eapply not_both_ended_st; eassumption.
      * intros b Hb. apply elem_of_cons in Hb as [->|Hb].
        -- right. right. left.
        -- destruct (Hall b Hb) as [H1|[H1|H1]]; auto.
           right. right. now right.
Qed.

Lemma both_ended_after_force M kept h1 h2 h3 a :
  force_eos M yseq kept h1 = Ok h2 ->
  force_eos M yseq_asr kept h2 = Ok h3 ->
  a ∈ kept -> both_ended M h3 a.
Proof.
  intros H1 H2 Ha.
  destruct (force_eos_all_end _ _ _ _ _ H1 a Ha) as (d & l & Hd & Hl & Hlast).
  pose proof (force_eos_spec _ _ _ _ _ H2) as (Hds & _ & Hfr).
  destruct (force_eos_all_end _ _ _ _ _ H2 a Ha) as (d' & l' & Hd' & Hl' & Hlast').
  rewrite Hds, Hd in Hd'. injection Hd' as <-.
  exists d. rewrite Hds. split; [exact Hd|]. split.
  - exists l. split; [now apply Hfr | exact Hlast].
  - exists l'. split; assumption.
Qed.

Lemma both_ended_long_enough M enc_len ta h a :
  minlen_of enc_len (minlenratio ta) <= 0 ->
  minlen_of enc_len (minlenratio_asr ta) <= 0 ->
  both_ended M h a -> long_enough enc_len ta h a.
Proof.
  intros Hm Hma (d & Hd & (ys & Hys & Hl) & (ya & Hya & Hla)).
  exists d, ys, ya. repeat split; try assumption.
  - destruct ys; [discriminate|]. simpl. lia.
  - destruct ya; [discriminate|]. simpl. lia.
Qed.

(** With minimum lengths of at most 0, a pass that starts from a beam
    that is not empty and leaves nothing in it has put a hypothesis into the
    Ended set. *)
Lemma partition_all_ended M enc_len ta i kept h ended h' ended' :
  minlen_of enc_len (minlenratio ta) <= 0 ->
  minlen_of enc_len (minlenratio_asr ta) <= 0 ->
  kept <> [] ->
  partition M enc_len ta i kept h ended [] = Ok (h', ended', []) ->
  ended' <> [].
Proof.
  intros Hm Hma Hne H.
  apply partition_cover in H
    as (new & rnew & -> & Hr & _ & _ & _ & _ & Hall).
  simpl in Hr. subst rnew.
  destruct kept as [|a kept]; [congruence|].
  destruct (Hall a) as [Ha|[[Hb Hl]|Ha]]; [left | | |].
  - intros Hnil. apply app_eq_nil in Hnil as [_ ->].
    now apply not_elem_of_nil in Ha.
  - exfalso. apply Hl. eapply both_ended_long_enough; eassumption.
  - now apply not_elem_of_nil in Ha.
Qed.

Lemma last_pass_remained_nil M enc_len ta i kept h1 h2 h3 ended h4 ended' rem :
  force_eos M yseq kept h1 = Ok h2 ->
  force_eos M yseq_asr kept h2 = Ok h3 ->
  partition M enc_len ta i kept h3 ended [] = Ok (h4, ended', rem) ->
  rem = [].
Proof.
  intros Hf1 Hf2 Hp.
  apply partition_cover in Hp
    as (new & rnew & _ & -> & _ & Hsub & _ & Hr & _).
  destruct rnew as [|a rnew]; [reflexivity|]. exfalso.
  apply (Hr a); [left|].
  eapply both_ended_after_force; [exact Hf1 | exact Hf2 |].
  eapply elem_of_sublist; [|exact Hsub]. left.
Qed.

(** X2.  The pass at which both forced-eos loops run, that is the last
    pass when the two maximum lengths are equal, leaves no hypothesis in the
    beam: the loop is left by one of the two [break]s.  When moreover the
    minimum lengths are at most 0 and the beam the pass starts from is not
    empty, the Ended set is not empty afterwards. *)
Theorem last_pass_ends_every_hypothesis M enc_len fwd ed ta ca i st o st' :
  step M enc_len fwd ed ta ca i st = Ok (o, st') ->
  i = maxlen_of enc_len (maxlenratio ta) - 1 ->
  i = maxlen_of enc_len (maxlenratio_asr ta) - 1 ->
  o <> Continue /\
  (minlen_of enc_len (minlenratio ta) <= 0 ->
   minlen_of enc_len (minlenratio_asr ta) <= 0 ->
   1 <= beam_size ta -> hyps st <> [] ->
   ended_hyps st' <> []).
Proof.
  intros H E1 E2.
  apply step_inv in H
    as (h1 & kept & l & la & h2 & h3 & rem & vals
        & Hx & Hf1 & Hf2 & Hp & _ & _ & Hno & _).
  rewrite <- E1, Z.eqb_refl in Hf1. rewrite <- E2, Z.eqb_refl in Hf2.
  assert (Hrem : rem = [])
    by (eapply last_pass_remained_nil; eassumption).
  subst rem. split.
  - intros ->.
    assert (Hc : Continue = NoHypothesis)
      by (apply Hno; split; [discriminate|reflexivity]).
    discriminate.
  - intros Hm Hma Hb Hne.
    eapply partition_all_ended; [exact Hm | exact Hma | | exact Hp].
    eapply expand_all_nonempty; [exact Hx | exact Hb | now left].
Qed.

(** ** A first search that cannot come back empty *)

Lemma mapM_nil_inv {A B : Type} (f : A -> res B) (l : list A) :
  mapM f l = Ok [] -> l = [].
Proof.
  destruct l as [|a l]; [reflexivity|]. simpl. intros H.
  apply bind_Ok in H as (b & _ & H). apply bind_Ok in H as (bs & _ & H).
  discriminate.
Qed.

(** What one pass gives when the minimum lengths are at most 0 and
    [end_detect] does not signal on an empty Ended set: it either goes on
    with a beam that is not empty, and is then not the pass with both forced
    [eos], or leaves the loop with an Ended set that is not empty. *)
Lemma step_progress M enc_len fwd ed ta ca i st o st' :
  minlen_of enc_len (minlenratio ta) <= 0 ->
  minlen_of enc_len (minlenratio_asr ta) <= 0 ->
  1 <= beam_size ta ->
  (forall j, ed [] j = false) ->
  hyps st <> [] ->
  step M enc_len fwd ed ta ca i st = Ok (o, st') ->
  match o with
  | Continue =>
      hyps st' <> [] /\
      ~ (i = maxlen_of enc_len (maxlenratio ta) - 1 /\
         i = maxlen_of enc_len (maxlenratio_asr ta) - 1)
  | _ => ended_hyps st' <> []
  end.
Proof.
  intros Hm Hma Hb Hed Hne H.
  apply step_inv in H
    as (h1 & kept & l & la & h2 & h3 & rem & vals
        & Hx & Hf1 & Hf2 & Hp & Hv & Hend & Hno & Hh).
  assert (Hk : kept <> [])
    by (eapply expand_all_nonempty; [exact Hx | exact Hb | now left]).
  destruct o.
  - assert (Hg : ed vals i && Qeq_bool (maxlenratio ta) 0 = false).
    { destruct (ed vals i && Qeq_bool (maxlenratio ta) 0) eqn:Eg;
        [|reflexivity].
      apply andb_true_iff in Eg as [Eg1 Eg2]. apply Qeq_bool_iff in Eg2.
      assert (Hc : Continue = EndDetected) by (apply Hend; auto).
      discriminate. }
    rewrite Hg in Hh.
    assert (Hr : rem <> []).
    { intros ->.
      assert (Hc : Continue = NoHypothesis)
        by (apply Hno; split; [discriminate|reflexivity]).
      discriminate. }
    split; [now rewrite Hh|].
    intros [E1 E2]. apply Hr.
    rewrite <- E1, Z.eqb_refl in Hf1. rewrite <- E2, Z.eqb_refl in Hf2.
    eapply last_pass_remained_nil; eassumption.
  - destruct (proj1 Hend eq_refl) as [He _].
    intros Hnil. rewrite Hnil in Hv. simpl in Hv. injection Hv as <-.
    rewrite Hed in He. discriminate.
  - destruct (proj1 Hno eq_refl) as [_ ->].
    eapply partition_all_ended; [exact Hm | exact Hma | exact Hk | exact Hp].
Qed.

Lemma loop_ends_with_result M enc_len fwd ed ta ca n i st st' :
  minlen_of enc_len (minlenratio ta) <= 0 ->
  minlen_of enc_len (minlenratio_asr ta) <= 0 ->
  1 <= beam_size ta ->
  (forall j, ed [] j = false) ->
  i + Z.of_nat n = maxlen_of enc_len (maxlenratio ta) ->
  i + Z.of_nat n = maxlen_of enc_len (maxlenratio_asr ta) ->
  (1 <= n)%nat ->
  hyps st <> [] ->
  loop M enc_len fwd ed ta ca n i st = Ok st' ->
  ended_hyps st' <> [].
Proof.
  intros Hm Hma Hb Hed. revert i st.
  induction n as [|n IH]; intros i st E1 E2 Hn Hne H; [lia|].
  simpl in H. apply bind_Ok in H as ([o st1] & Hs & H).
  pose proof (step_progress _ _ _ _ _ _ _ _ _ _ Hm Hma Hb Hed Hne Hs) as Hp.
  destruct o.
  - destruct Hp as [Hne1 Hnl].
    apply (IH (i + 1) st1); try assumption; lia.
  - injection H as <-. exact Hp.
  - injection H as <-. exact Hp.
Qed.

(** X3.  With equal maximum lengths and minimum lengths of at most 0
    the comment of line 680 holds: for a beam size and an [nbest] of at least
    1, an utterance with at least one encoder frame and an [end_detect] that
    does not signal on an empty Ended set, a search that finishes has ended
    hypotheses, so the method returns them and the retry is not taken. *)
Theorem equal_max_lengths_no_retry M enc_len fwd ed depth ta ca st :
  1 <= enc_len ->
  maxlen_of enc_len (maxlenratio ta) = maxlen_of enc_len (maxlenratio_asr ta) ->
  minlen_of enc_len (minlenratio ta) <= 0 ->
  minlen_of enc_len (minlenratio_asr ta) <= 0 ->
  1 <= beam_size ta ->
  1 <= nbest ta ->
  (forall j, ed [] j = false) ->
  search M enc_len fwd ed ta ca = Ok st ->
  ended_hyps st <> [] /\
  nbest_hyps ta st <> [] /\
  recognize_and_translate_sum M enc_len fwd ed (S depth) ta ca =
    mapM (deref (st_heap st)) (nbest_hyps ta st).
Proof.
  intros Henc Hmax Hm Hma Hb Hnb Hed H.
  assert (Hended : ended_hyps st <> []).
  { unfold search in H. destruct (do_asr M); [|discriminate].
    destruct (char_list ca) as [cl|]; [|discriminate]. simpl in H.
    apply bind_Ok in H as (? & _ & H). apply bind_Ok in H as (? & _ & H).
    rewrite <- Hmax, Z.max_id in H.
    assert (Hlen : 1 <= maxlen_of enc_len (maxlenratio ta)).
    { unfold maxlen_of. destruct (Qeq_bool (maxlenratio ta) 0); lia. }
    eapply loop_ends_with_result; try exact H; try assumption; try lia;
      try (simpl; discriminate). }
  assert (Hnbest : nbest_hyps ta st <> []).
  { intros Hc. apply Hended. now apply (nbest_hyps_nil ta st Hnb). }
  split; [exact Hended|]. split; [exact Hnbest|].
  rewrite (decode_unfold _ _ _ _ depth _ _ _ H).
  destruct (nbest_hyps ta st); [congruence | reflexivity].
Qed.

(** ** The beam after a pass *)

Lemma StronglySorted_desc_ext {A : Type} (f g : A -> Q) (l : list A) :
  (forall x, x ∈ l -> f x = g x) ->
  StronglySorted (desc f) l -> StronglySorted (desc g) l.
Proof.
  induction l as [|a l IH]; intros Hfg Hs; [constructor|].
  apply StronglySorted_inv in Hs as [Hs Ha]. constructor.
  - apply IH; [|exact Hs]. intros x Hx. apply Hfg. now right.
  - rewrite Forall_forall in Ha |- *. intros x Hx. unfold desc.
    rewrite <- (Hfg a) by left. rewrite <- (Hfg x) by now right.
    now apply Ha.
Qed.

Lemma expand_beam M ta js i d ys ys_asr lst lasr sel h kept h' kept' :
  expand M ta js i d ys ys_asr lst lasr sel h kept = Ok (h', kept') ->
  (js <> [] -> 0 <= beam_size ta) ->
  (length kept <= Z.to_nat (beam_size ta))%nat ->
  StronglySorted (desc (score_at h)) kept ->
  (length kept' <= Z.to_nat (beam_size ta))%nat /\
  StronglySorted (desc (score_at h')) kept'.
Proof.
  revert h kept. induction js as [|j js IH]; intros h kept H Hb Hlen Hs;
    simpl in H.
  - injection H as <- <-. auto.
  - apply bind_Ok in H as (s & _ & H).
    apply bind_Ok in H as ([r h1] & _ & H).
    apply bind_Ok in H as ([r_asr h2] & _ & H).
    simpl in H. assert (Hb0 : 0 <= beam_size ta) by (apply Hb; discriminate).
    eapply IH; [exact H | auto | |].
    + rewrite slice_to_length by exact Hb0. lia.
    + eapply StronglySorted_sublist; [apply slice_to_sublist|].
      apply sorted_desc_sorted.
Qed.

Lemma expand_all_beam M fwd ta ca i hs h kept l la h' kept' l' la' :
  expand_all M fwd ta ca i hs h kept l la = Ok (h', kept', l', la') ->
  (length kept <= Z.to_nat (beam_size ta))%nat ->
  StronglySorted (desc (score_at h)) kept ->
  (length kept' <= Z.to_nat (beam_size ta))%nat /\
  StronglySorted (desc (score_at h')) kept'.
Proof.
  revert h kept l la. induction hs as [|a hs IH]; intros h kept l la H Hlen Hs;
    simpl in H.
  - injection H as <- <- <- <-. auto.
  - apply bind_Ok in H as ([[[h1 kept1] l1] la1] & Hx & H).
    apply expand_hyp_spec in Hx
      as (d & ys & ys_asr & lst & lasr & sel & _ & _ & _ & _ & _ & _ & _ & Hx).
    apply expand_beam in Hx as [Hlen1 Hs1]; [eauto | | exact Hlen | exact Hs].
    intros Hne. destruct (Z.to_nat (beam_size ta)) eqn:E; [|lia].
    now contradiction Hne.
Qed.

(** The partition leaves the dict of a hypothesis that is not ended on
    both streams as it is. *)
Lemma partition_frame M enc_len ta i hs h ended remained h' ended' remained' b :
  partition M enc_len ta i hs h ended remained = Ok (h', ended', remained') ->
  ~ both_ended M h b -> dicts h' !! b = dicts h !! b.
Proof.
  revert h ended remained.
  induction hs as [|a hs IH]; intros h ended remained H Hb; simpl in H.
  - now injection H as <- <- <-.
  - apply bind_Ok in H as (d & Hd & H).
    apply bind_Ok in H as (b1 & Hb1 & H).
    apply bind_Ok in H as (b2 & Hb2 & H).
    apply load_dict_Ok in Hd.
    destruct (b1 && b2) eqn:Eb; [|eauto].
    apply andb_true_iff in Eb as [-> ->].
    apply ends_with_eos_Ok in Hb1 as (ys & e & Hys & He & Eb1).
    apply ends_with_eos_Ok in Hb2 as (ya & ea & Hya & Hea & Eb2).
    symmetry in Eb1, Eb2. apply Z.eqb_eq in Eb1, Eb2. subst e ea.
    apply bind_Ok in H as (n & _ & H).
    apply bind_Ok in H as (n_asr & _ & H).
    destruct (_ && _) in H; [|eauto].
    apply IH in H; [|now rewrite both_ended_add_score].
    rewrite H. simpl. apply list_lookup_alter_ne. intros <-. apply Hb.
    exists d. split; [exact Hd|]. split; [exists ys | exists ya]; auto.
Qed.

Lemma both_ended_ext M h h' a :
  dicts h' !! a = dicts h !! a -> lists h' = lists h ->
  both_ended M h' a <-> both_ended M h a.
Proof.
  intros Hd Hl. unfold both_ended, ends_eos. rewrite Hd, Hl. reflexivity.
Qed.

(** X4.  The beam that a pass hands to the next one (lines 654-672 and
    692-714): it is not empty, holds at most [beam_size] hypotheses, all
    distinct objects, in descending order of score, and none of them has both
    streams ended. *)
Theorem beam_after_pass M enc_len fwd ed ta ca i st st' :
  step M enc_len fwd ed ta ca i st = Ok (Continue, st') ->
  hyps st' <> [] /\
  Z.of_nat (length (hyps st')) <= beam_size ta /\
  NoDup (hyps st') /\
  StronglySorted (desc (score_at (st_heap st'))) (hyps st') /\
  forall a, a ∈ hyps st' -> ~ both_ended M (st_heap st') a.
Proof.
  intros H.
  apply step_inv in H
    as (h1 & kept & l & la & h2 & h3 & rem & vals
        & Hx & Hf1 & Hf2 & Hp & Hv & Hend & Hno & Hh).
  assert (Hg : ed vals i && Qeq_bool (maxlenratio ta) 0 = false).
  { destruct (ed vals i && Qeq_bool (maxlenratio ta) 0) eqn:Eg;
      [|reflexivity].
    apply andb_true_iff in Eg as [Eg1 Eg2]. apply Qeq_bool_iff in Eg2.
    assert (Hc : Continue = EndDetected) by (apply Hend; auto).
    discriminate. }
  rewrite Hg in Hh. rewrite Hh.
  assert (Hr : rem <> []).
  { intros ->.
    assert (Hc : Continue = NoHypothesis)
      by (apply Hno; split; [discriminate|reflexivity]).
    discriminate. }
  pose proof (expand_all_beam _ _ _ _ _ _ _ _ _ _ _ _ _ _ Hx) as Hbeam.
  destruct Hbeam as [Hlen Hsorted]; [simpl; lia | constructor |].
  apply expand_all_spec in Hx as (_ & Hk).
  destruct (Hk 0%nat) as (_ & Hnd);
    [lia | intros c Hc; now apply not_elem_of_nil in Hc | apply NoDup_nil_2 |].
  apply cond_force_eos_spec in Hf1 as (Hd1 & _ & _).
  apply cond_force_eos_spec in Hf2 as (Hd2 & _ & _).
  pose proof (partition_spec _ _ _ _ _ _ _ _ _ _ _ Hp) as (Hls & _).
  pose proof Hp as Hc. apply partition_cover in Hc
    as (new & rnew & _ & Erem & _ & Hsub & _ & Hnot & _).
  simpl in Erem. subst rnew.
  assert (Hfr : forall a, a ∈ rem ->
            dicts (st_heap st') !! a = dicts h3 !! a).
  { intros a Ha. eapply partition_frame; [exact Hp | now apply Hnot]. }
  assert (Hle : (length rem <= length kept)%nat)
    by now apply sublist_length.
  split; [exact Hr|]. split; [|split; [|split]].
  - destruct rem; [congruence|]. simpl in *. lia.
  - eapply sublist_NoDup; eassumption.
  - apply (StronglySorted_desc_ext (score_at h1)).
    + intros a Ha. unfold score_at. rewrite (Hfr a Ha), Hd2, Hd1. reflexivity.
    + eapply StronglySorted_sublist; eassumption.
  - intros a Ha Hc. apply (Hnot a Ha).
    exact (proj1 (both_ended_ext M h3 (st_heap st') a (Hfr a Ha) Hls) Hc).
Qed.

(** ** The length penalty *)

Lemma partition_penalty M enc_len ta i hs h ended remained h' ended' remained' :
  partition M enc_len ta i hs h ended remained = Ok (h', ended', remained') ->
  NoDup hs ->
  exists new,
    ended' = ended ++ new /\ new `sublist_of` hs /\
    (forall b, b ∈ new ->
       score_at h' b = (score_at h b + inject_Z (i + 1) * penalty ta)%Q) /\
    (forall b, b ∉ new -> dicts h' !! b = dicts h !! b).
Proof.
  revert h ended remained.
  induction hs as [|a hs IH]; intros h ended remained H Hnd; simpl in H.
  - injection H as <- <- <-. exists []. rewrite app_nil_r.
    split; [reflexivity|]. split; [reflexivity|]. split; [|reflexivity].
    intros b Hb. now apply not_elem_of_nil in Hb.
  - apply NoDup_cons in Hnd as [Ha Hnd].
    apply bind_Ok in H as (d & Hd & H).
    apply bind_Ok in H as (b1 & Hb1 & H).
    apply bind_Ok in H as (b2 & Hb2 & H).
    apply load_dict_Ok in Hd.
    assert (Hskip : forall h0 ended0 remained0,
      partition M enc_len ta i hs h0 ended0 remained0
        = Ok (h', ended', remained') ->
      h0 = h -> ended0 = ended ->
      exists new,
        ended' = ended ++ new /\ new `sublist_of` a :: hs /\
        (forall b, b ∈ new ->
           score_at h' b = (score_at h b + inject_Z (i + 1) * penalty ta)%Q) /\
        (forall b, b ∉ new -> dicts h' !! b = dicts h !! b)).
    { intros h0 ended0 remained0 H0 -> ->.
      apply IH in H0 as (new & -> & Hsub & Hsc & Hfr); [|exact Hnd].
      exists new. split; [reflexivity|]. split; [now apply sublist_cons|].
      auto. }
    destruct (b1 && b2); [|eauto].
    apply bind_Ok in H as (n & _ & H).
    apply bind_Ok in H as (n_asr & _ & H).
    destruct (_ && _) in H; [|eauto].
    apply IH in H as (new & -> & Hsub & Hsc & Hfr); [|exact Hnd].
    assert (Hnew : a ∉ new).
    { intros Hc. apply Ha. eapply elem_of_sublist; eassumption. }
    exists (a :: new). rewrite <- app_assoc.
    split; [reflexivity|]. split; [now apply sublist_skip|]. split.
    + intros b Hb. apply elem_of_cons in Hb as [->|Hb].
      * unfold score_at. rewrite (Hfr a Hnew). simpl.
        rewrite list_lookup_alter_eq, Hd. reflexivity.
      * rewrite (Hsc b Hb). unfold score_at at 1. simpl.
        rewrite list_lookup_alter_ne; [reflexivity|].
        intros <-. contradiction.
    + intros b Hb. apply not_elem_of_cons in Hb as [Hne Hb].
      rewrite (Hfr b Hb). simpl. now apply list_lookup_alter_ne.
Qed.

(** X5.  The length penalty of a pass (line 701): [(i + 1) * penalty] is
    added exactly once to the score of each hypothesis that enters the Ended
    set in this pass, also when the pruned beam is read through several
    references, and the score of every other hypothesis of the pruned beam
    is the one the expansion gave it. *)
Theorem penalty_added_once M enc_len fwd ed ta ca i st o st' h1 kept l la :
  expand_all M fwd ta ca i (hyps st) (st_heap st) []
    (local_att_scores st) (local_att_scores_asr st) = Ok (h1, kept, l, la) ->
  step M enc_len fwd ed ta ca i st = Ok (o, st') ->
  exists new,
    ended_hyps st' = ended_hyps st ++ new /\
    new `sublist_of` kept /\ NoDup new /\
    (forall b, b ∈ new ->
       score_at (st_heap st') b =
       (score_at h1 b + inject_Z (i + 1) * penalty ta)%Q) /\
    (forall b, b ∈ kept -> b ∉ new ->
       score_at (st_heap st') b = score_at h1 b).
Proof.
  intros Hx H.
  apply step_inv in H
    as (h1' & kept' & l' & la' & h2 & h3 & rem & vals
        & Hx' & Hf1 & Hf2 & Hp & _).
  rewrite Hx in Hx'. injection Hx' as <- <- <- <-.
  apply expand_all_spec in Hx as (_ & Hk).
  destruct (Hk 0%nat) as (_ & Hnd);
    [lia | intros c Hc; now apply not_elem_of_nil in Hc | apply NoDup_nil_2 |].
  apply cond_force_eos_spec in Hf1 as (Hd1 & _ & _).
  apply cond_force_eos_spec in Hf2 as (Hd2 & _ & _).
  apply partition_penalty in Hp as (new & He & Hsub & Hsc & Hfr);
    [|exact Hnd].
  assert (E3 : forall b, score_at h3 b = score_at h1 b).
  { intros b. unfold score_at. now rewrite Hd2, Hd1. }
  exists new. split; [exact He|]. split; [exact Hsub|].
  split; [eapply sublist_NoDup; eassumption|]. split.
  - intros b Hb. rewrite (Hsc b Hb), E3. reflexivity.
  - intros b _ Hb. rewrite <- E3. unfold score_at. now rewrite (Hfr b Hb).
Qed.

(** ** A retry that cannot help *)

Lemma relaxed_at_zero ta :
  minlenratio ta = 0%Q -> minlenratio_asr ta = 0%Q -> relaxed ta = ta.
Proof. destruct ta. simpl. intros -> ->. reflexivity. Qed.

Lemma retry_fixpoint M enc_len fwd ed ta ca st :
  relaxed ta = ta -> retry_args ca = ca ->
  search M enc_len fwd ed ta ca = Ok st ->
  nbest_hyps ta st = [] ->
  forall depth,
    recognize_and_translate_sum M enc_len fwd ed depth ta ca
    = Err RecursionError.
Proof.
  intros Hta Hca Hs Hn depth. induction depth as [|depth IH]; [reflexivity|].
  rewrite (decode_unfold _ _ _ _ depth _ _ _ Hs), Hn, Hta, Hca. exact IH.
Qed.

(** X6.  When both minimum-length ratios are already 0 the retry of
    lines 732-738 repeats the same search: if the search of the call and the
    search with the keyword defaults both finish with an empty Ended set, the
    method recurses until the interpreter's limit, whatever that limit is. *)
Theorem empty_result_recurs_without_end M enc_len fwd ed ta ca st st0 :
  minlenratio ta = 0%Q -> minlenratio_asr ta = 0%Q ->
  search M enc_len fwd ed ta ca = Ok st ->
  nbest_hyps ta st = [] ->
  search M enc_len fwd ed ta (retry_args ca) = Ok st0 ->
  nbest_hyps ta st0 = [] ->
  forall depth,
    recognize_and_translate_sum M enc_len fwd ed depth ta ca
    = Err RecursionError.
Proof.
  intros Hm Hma Hs Hn Hs0 Hn0 depth.
  pose proof (relaxed_at_zero ta Hm Hma) as Hta.
  destruct depth as [|depth]; [reflexivity|].
  rewrite (decode_unfold _ _ _ _ depth _ _ _ Hs), Hn, Hta. simpl.
  eapply retry_fixpoint; [exact Hta | reflexivity | exact Hs0 | exact Hn0].
Qed.

(** ** Arguments the method does not support *)

Lemma maxlen_of_pos enc_len ratio : 1 <= enc_len -> 1 <= maxlen_of enc_len ratio.
Proof. intros H. unfold maxlen_of. destruct (Qeq_bool ratio 0); lia. Qed.

Lemma first_expansion M fwd ta ca :
  expand_hyp M fwd ta ca 0 0 (st_heap (init_state M)) [] Unbound Unbound =
  if rnnlm ca then Err KeyError
  else if use_jit ca then Err AttributeError
  else
    let '(s, s_asr) :=
      fwd [y_sos M] (self_mask_len (wait_k_asr M) 0)
          [y_asr_sos M] (self_mask_len (wait_k_st M) 0) in
    let lst := if 0 <? wait_k_asr M then None else Some s in
    let lasr := if 0 <? wait_k_st M then None else Some s_asr in
    do sel <- select (ratio_diverse_st ca) (ratio_diverse_asr ca)
                (beam_size ta) lst lasr;
    do '(h', kept) <- expand M ta (seq 0 (Z.to_nat (beam_size ta))) 0
                        (Hyp 0 0 1) [y_sos M] [y_asr_sos M] lst lasr sel
                        (st_heap (init_state M)) [];
    Ok (h', kept, Bound lst, Bound lasr).
Proof.
  unfold expand_hyp. simpl.
  destruct (rnnlm ca); [reflexivity|]. destruct (use_jit ca); [reflexivity|].
  rewrite !orb_true_r, !andb_false_r. simpl.
  destruct (fwd _ _ _ _) as [s s_asr].
  destruct (0 <? wait_k_asr M), (0 <? wait_k_st M); reflexivity.
Qed.

Lemma search_first_error M enc_len fwd ed ta ca cl e :
  1 <= enc_len ->
  do_asr M = true -> char_list ca = Some cl ->
  (exists c, char_at cl (y_sos M) = Ok c) ->
  (exists c, char_at cl (y_asr_sos M) = Ok c) ->
  expand_hyp M fwd ta ca 0 0 (st_heap (init_state M)) [] Unbound Unbound
    = Err e ->
  search M enc_len fwd ed ta ca = Err e.
Proof.
  intros Henc Hdo Hcl [c Hc] [c' Hc'] Hx. unfold search.
  rewrite Hdo, Hcl. simpl. rewrite Hc, Hc'. simpl.
  pose proof (maxlen_of_pos enc_len (maxlenratio ta) Henc) as Hlen.
  destruct (Z.to_nat _) as [|n] eqn:En; [lia|].
  simpl. unfold step. simpl. simpl in Hx. rewrite Hx. reflexivity.
Qed.

Lemma char_at_Err {A : Type} (l : list A) (x : Z) e :
  char_at l x = Err e -> e = IndexError.
Proof.
  unfold char_at, item. intros H.
  repeat match type of H with
         | (if ?c then _ else _) = _ => destruct c
         | match ?o with Some _ => _ | None => _ end = _ => destruct o
         end; congruence.
Qed.

Lemma lang_tag_Err cfg pick e :
  lang_tag cfg pick = Err e -> e = AttributeError \/ e = IndexError.
Proof.
  unfold lang_tag. destruct cfg as [c|]; [|intros [= <-]; now left].
  destruct (char_at (split_on "."%char c) (-2)) as [stem|e1] eqn:E1; simpl.
  - destruct (char_at (split_on "-"%char stem) pick) as [code|e2] eqn:E2;
      simpl; [discriminate|].
    intros [= <-]. right. eapply char_at_Err, E2.
  - intros [= <-]. right. eapply char_at_Err, E1.
Qed.

Lemma start_tokens_without_char_list obj la :
  (indexes_char_list obj la = false ->
   start_tokens obj la None = Ok (obj_sos obj, obj_sos obj)) /\
  (indexes_char_list obj la = true ->
   start_tokens obj la None = Err AttributeError \/
   start_tokens obj la None = Err IndexError).
Proof.
  unfold indexes_char_list, start_tokens. split.
  - intros H. apply orb_false_iff in H as [H1 H2]. rewrite H2.
    destruct (str_truthy (tgt_lang la)); [|reflexivity].
    simpl in H1. rewrite H1. reflexivity.
  - intros H.
    destruct (tgt_lang la) as [t|] eqn:Et; simpl in *.
    + destruct (negb (t =? "")%string); simpl in *.
      * destruct (obj_replace_sos obj); simpl in *; [now left|].
        rewrite H.
        destruct (lang_tag (config la) (-1)) as [tag|e] eqn:El; simpl;
          [now left|].
        apply lang_tag_Err in El as [->| ->]; auto.
      * rewrite H.
        destruct (lang_tag (config la) (-1)) as [tag|e] eqn:El; simpl;
          [now left|].
        apply lang_tag_Err in El as [->| ->]; auto.
    + rewrite H.
      destruct (lang_tag (config la) (-1)) as [tag|e] eqn:El; simpl;
        [now left|].
      apply lang_tag_Err in El as [->| ->]; auto.
Qed.

(** X7.  Arguments of the signature that the method cannot serve, for
    the method from its first line.  It asserts [do_asr]; with
    [char_list=None] (the default) it raises [TypeError] at line 492 when the
    preamble does not call [char_list.index], and [AttributeError] or
    [IndexError] in the preamble when it does; an exception of the preamble
    is the exception of the call; and once the preamble has given the start
    tokens and [char_list] holds them, a language model makes the first
    expansion raise [KeyError], because the initial hypothesis has no
    ['yseq_asr'] entry, and [use_jit] makes it raise [AttributeError],
    because it reads [self.decoder], which the class does not define.  In
    each case the error is that of the call itself: no retry is made. *)
Theorem unsupported_arguments_raise obj la enc_len fwd ed depth ta ca :
  1 <= enc_len ->
  let result :=
    recognize_and_translate_sum_call obj la enc_len fwd ed (S depth) ta ca in
  (obj_do_asr obj = false -> result = Err AssertionError) /\
  (obj_do_asr obj = true -> char_list ca = None ->
     (indexes_char_list obj la = false -> result = Err TypeError) /\
     (indexes_char_list obj la = true ->
        result = Err AttributeError \/ result = Err IndexError)) /\
  (forall e,
     obj_do_asr obj = true ->
     start_tokens obj la (char_list ca) = Err e -> result = Err e) /\
  (forall cl y y_asr,
     obj_do_asr obj = true -> char_list ca = Some cl ->
     start_tokens obj la (Some cl) = Ok (y, y_asr) ->
     (exists c, char_at cl y = Ok c) ->
     (exists c, char_at cl y_asr = Ok c) ->
     (rnnlm ca = true -> result = Err KeyError) /\
     (rnnlm ca = false -> use_jit ca = true -> result = Err AttributeError)).
Proof.
  intros Henc result. subst result. unfold recognize_and_translate_sum_call.
  split; [|split; [|split]].
  - intros ->. reflexivity.
  - intros -> Hcl. rewrite Hcl. simpl.
    destruct (start_tokens_without_char_list obj la) as [Hno Hyes]. split.
    + intros Hi. rewrite (Hno Hi). simpl. unfold search. simpl.
      rewrite Hcl. reflexivity.
    + intros Hi. destruct (Hyes Hi) as [E|E]; rewrite E; auto.
  - intros e -> He. simpl. rewrite He. reflexivity.
  - intros cl y y_asr Hdo Hcl Hst Hc Hc'. rewrite Hdo, Hcl, Hst.
    cbn [negb bind]. split.
    + intros Hlm.
      assert (Hs : search (Model true (obj_eos obj) y y_asr
                             (obj_wait_k_asr obj) (obj_wait_k_st obj))
                     enc_len fwd ed ta ca = Err KeyError).
      { eapply search_first_error; try eassumption; try reflexivity.
        rewrite first_expansion, Hlm. reflexivity. }
      simpl. rewrite Hs. reflexivity.
    + intros Hlm Hjit.
      assert (Hs : search (Model true (obj_eos obj) y y_asr
                             (obj_wait_k_asr obj) (obj_wait_k_st obj))
                     enc_len fwd ed ta ca = Err AttributeError).
      { eapply search_first_error; try eassumption; try reflexivity.
        rewrite first_expansion, Hlm, Hjit. reflexivity. }
      simpl. rewrite Hs. reflexivity.
Qed.

(** ** Start tokens *)

Lemma child_stream_head M h h' wk i dist parent ys0 y r :
  heap_le h h' ->
  lists h !! parent = Some (y :: ys0) ->
  child_stream M h h' wk i dist parent (y :: ys0) r ->
  exists ys1, lists h' !! r = Some (y :: ys1).
Proof.
  intros Hle Hp. unfold child_stream. destruct dist as [s|].
  - intros [_ (tok & Ht)]. eauto.
  - destruct (wk <=? i).
    + intros [_ Ht]. eauto.
    + intros ->. exists ys0. eapply heap_le_list; eassumption.
Qed.

Lemma expand_hyp_starts M fwd ta ca i a h kept l la h' kept' l' la' :
  expand_hyp M fwd ta ca i a h kept l la = Ok (h', kept', l', la') ->
  starts_with_sos M h -> starts_with_sos M h'.
Proof.
  intros H Hs.
  apply expand_hyp_spec in H
    as (d & ys & ya & lst & lasr & sel & Hd & Hys & Hya & _ & _ & _ & _ & Hx).
  apply expand_spec in Hx as (Hle & Hnew & _).
  destruct (Hs a d Hd) as (ys0 & ya0 & Hys0 & Hya0).
  rewrite Hys in Hys0. rewrite Hya in Hya0.
  injection Hys0 as ->. injection Hya0 as ->.
  intros c d' Hc.
  destruct (decide (c < length (dicts h))%nat) as [Hlt|Hge].
  - destruct Hle as [Hpd Hpl].
    rewrite <- (prefix_lookup_lt _ _ _ Hlt Hpd) in Hc.
    destruct (Hs c d' Hc) as (ys1 & ya1 & H1 & H2).
    exists ys1, ya1.
    split; eapply prefix_lookup_Some; eassumption.
  - destruct (Hnew c) as (d'' & Hd'' & Hst & Hasr).
    { split; [lia|]. eapply lookup_lt_Some; eassumption. }
    rewrite Hc in Hd''. injection Hd'' as <-.
    eapply child_stream_head in Hst as [ys1 Hst]; [|exact Hle|exact Hys].
    eapply child_stream_head in Hasr as [ya1 Hasr]; [|exact Hle|exact Hya].
    eauto.
Qed.

Lemma expand_all_starts M fwd ta ca i hs h kept l la h' kept' l' la' :
  expand_all M fwd ta ca i hs h kept l la = Ok (h', kept', l', la') ->
  starts_with_sos M h -> starts_with_sos M h'.
Proof.
  revert h kept l la. induction hs as [|a hs IH]; intros h kept l la H Hs;
    simpl in H.
  - now injection H as <- <- <- <-.
  - apply bind_Ok in H as ([[[h1 kept1] l1] la1] & Hx & H).
    eapply IH; [exact H|]. eapply expand_hyp_starts; eassumption.
Qed.

Lemma cond_force_eos_starts M (b : bool) field hs h h' :
  (if b then force_eos M field hs h else Ok h) = Ok h' ->
  starts_with_sos M h -> starts_with_sos M h'.
Proof.
  destruct b; [|now intros [= ->]].
  intros H Hs a d Hd.
  pose proof (force_eos_spec _ _ _ _ _ H) as (Hds & _).
  rewrite Hds in Hd. destruct (Hs a d Hd) as (ys & ya & Hys & Hya).
  destruct (force_eos_lists _ _ _ _ _ H _ _ Hys) as (l1 & Hl1 & [->|[-> _]]);
    destruct (force_eos_lists _ _ _ _ _ H _ _ Hya) as (l2 & Hl2 & [->|[-> _]]);
    simpl in *; eauto.
Qed.

Lemma partition_starts M enc_len ta i hs h ended remained h' ended' remained' :
  partition M enc_len ta i hs h ended remained = Ok (h', ended', remained') ->
  starts_with_sos M h -> starts_with_sos M h'.
Proof.
  intros H Hs a d' Hd'.
  apply partition_spec in H as (Hls & _ & Hrefs & _).
  specialize (Hrefs a). rewrite Hd' in Hrefs. simpl in Hrefs.
  destruct (dicts h !! a) as [d|] eqn:Hd; [|discriminate].
  simpl in Hrefs. injection Hrefs as -> ->. rewrite Hls. eauto.
Qed.

Lemma step_starts M enc_len fwd ed ta ca i st o st' :
  step M enc_len fwd ed ta ca i st = Ok (o, st') ->
  starts_with_sos M (st_heap st) -> starts_with_sos M (st_heap st').
Proof.
  intros H Hs.
  apply step_inv in H
    as (h1 & kept & l & la & h2 & h3 & rem & vals
        & Hx & Hf1 & Hf2 & Hp & _).
  eapply partition_starts; [exact Hp|].
  eapply cond_force_eos_starts; [exact Hf2|].
  eapply cond_force_eos_starts; [exact Hf1|].
  eapply expand_all_starts; eassumption.
Qed.

Lemma loop_starts M enc_len fwd ed ta ca n i st st' :
  loop M enc_len fwd ed ta ca n i st = Ok st' ->
  starts_with_sos M (st_heap st) -> starts_with_sos M (st_heap st').
Proof.
  revert i st. induction n as [|n IH]; intros i st H Hs; simpl in H.
  - now injection H as <-.
  - apply bind_Ok in H as ([o st1] & Hstep & H).
    apply step_starts in Hstep; [|exact Hs].
    destruct o; [eapply IH; eassumption | |]; now injection H as <-.
Qed.

Lemma init_state_starts M : starts_with_sos M (st_heap (init_state M)).
Proof.
  intros a d Hd. simpl in Hd. destruct a as [|a]; [|discriminate].
  injection Hd as <-. simpl. eauto.
Qed.

(** X8.  Both token sequences of every hypothesis the method returns
    begin with the start tokens [y] and [y_asr] of lines 473-490, through
    every expansion, forced [eos] and retry. *)
Theorem returned_sequences_begin_with_sos M enc_len fwd ed depth ta ca result :
  recognize_and_translate_sum M enc_len fwd ed depth ta ca = Ok result ->
  Forall (fun v => head (v_yseq v) = Some (y_sos M) /\
                   head (v_yseq_asr v) = Some (y_asr_sos M)) result.
Proof.
  revert ta ca. induction depth as [|depth IH]; intros ta ca H; [discriminate|].
  simpl in H. apply bind_Ok in H as (st & Hst & H).
  destruct (length (nbest_hyps ta st) =? 0)%nat; [eauto|].
  assert (Hs : starts_with_sos M (st_heap st)).
  { unfold search in Hst. destruct (do_asr M); [|discriminate].
    destruct (char_list ca) as [cl|]; [|discriminate]. simpl in Hst.
    apply bind_Ok in Hst as (? & _ & Hst). apply bind_Ok in Hst as (? & _ & Hst).
    eapply loop_starts; [exact Hst | apply init_state_starts]. }
  apply mapM_Forall2 in H.
  eapply Forall2_Forall_transfer with (P := fun _ => True);
    [|exact H|apply Forall_true; auto].
  intros a v (d & Hd & Hys & Hya & _)%deref_Ok _.
  destruct (Hs a d Hd) as (ys & ya & Hys' & Hya').
  rewrite Hys in Hys'. rewrite Hya in Hya'.
  injection Hys' as ->. injection Hya' as ->. auto.
Qed.

(** ** A stream that ends while the other one is still held back *)

Lemma expand_hyp_both_suppressed M fwd ta ca i a h kept l la d ys ya :
  dicts h !! a = Some d ->
  lists h !! yseq d = Some ys ->
  lists h !! yseq_asr d = Some ya ->
  rnnlm ca = false -> use_jit ca = false -> 2 < i ->
  (last ys = Some (eos M) /\ ya <> [] /\ i < wait_k_st M) \/
  (last ya = Some (eos M) /\ ys <> [] /\ i < wait_k_asr M) ->
  expand_hyp M fwd ta ca i a h kept l la = Err NotImplementedError.
Proof.
  intros Hd Hys Hya Hlm Hjit Hi Hc. unfold expand_hyp, load_dict, load_list.
  rewrite Hd. simpl. rewrite Hys. simpl. rewrite Hlm, Hya. simpl.
  rewrite Hjit. unfold last_item.
  assert (Hi2 : (2 <? i) = true) by now apply Z.ltb_lt.
  destruct Hc as [(He & Hne & Hw)|(He & Hne & Hw)].
  - rewrite He. simpl.
    destruct (last ya) as [ea|] eqn:Ea;
      [|apply last_None in Ea; contradiction].
    simpl. rewrite Z.eqb_refl, Hi2. simpl.
    apply Z.ltb_lt in Hw. rewrite Hw, orb_true_r.
    destruct (_ || _); [destruct (fwd _ _ _ _)|destruct l, la]; reflexivity.
  - destruct (last ys) as [e|] eqn:Ee;
      [|apply last_None in Ee; contradiction].
    rewrite He. simpl. rewrite Z.eqb_refl, Hi2. simpl.
    apply Z.ltb_lt in Hw. rewrite Hw, orb_true_r.
    destruct (_ || _); [destruct (fwd _ _ _ _)|destruct l, la]; reflexivity.
Qed.

Lemma expand_hyp_heap_le M fwd ta ca i a h kept l la h' kept' l' la' :
  expand_hyp M fwd ta ca i a h kept l la = Ok (h', kept', l', la') ->
  heap_le h h'.
Proof.
  intros H.
  apply expand_hyp_spec in H
    as (d & ys & ya & lst & lasr & sel & _ & _ & _ & _ & _ & _ & _ & Hx).
  now apply expand_spec in Hx as (Hle & _).
Qed.

Lemma expand_all_both_suppressed M fwd ta ca i hs a h kept l la d ys ya :
  a ∈ hs ->
  dicts h !! a = Some d ->
  lists h !! yseq d = Some ys ->
  lists h !! yseq_asr d = Some ya ->
  rnnlm ca = false -> use_jit ca = false -> 2 < i ->
  (last ys = Some (eos M) /\ ya <> [] /\ i < wait_k_st M) \/
  (last ya = Some (eos M) /\ ys <> [] /\ i < wait_k_asr M) ->
  exists e, expand_all M fwd ta ca i hs h kept l la = Err e.
Proof.
  intros Ha Hd Hys Hya Hlm Hjit Hi Hc. revert h kept l la Hd Hys Hya.
  induction hs as [|b hs IH]; intros h kept l la Hd Hys Hya.
  - now apply not_elem_of_nil in Ha.
  - simpl.
    destruct (expand_hyp M fwd ta ca i b h kept l la)
      as [[[[h1 kept1] l1] la1]|e] eqn:Hx; [|simpl; eauto].
    simpl. apply elem_of_cons in Ha as [->|Ha].
    + erewrite expand_hyp_both_suppressed in Hx by eassumption.
      discriminate.
    + apply expand_hyp_heap_le in Hx.
      apply IH; [exact Ha | | |];
        eauto using heap_le_dict, heap_le_list.
Qed.

(** X9.  A pass after step 2 cannot be completed when the beam holds a
    hypothesis one stream of which has ended while the step index is still
    below the lag that holds the other stream back: both distributions are
    absent, and line 640 raises [NotImplementedError]; it is the error of the
    pass when that hypothesis is the first of the beam. *)
Theorem ended_stream_below_lag_raises
    M enc_len fwd ed ta ca i st a d ys ya :
  a ∈ hyps st ->
  dicts (st_heap st) !! a = Some d ->
  lists (st_heap st) !! yseq d = Some ys ->
  lists (st_heap st) !! yseq_asr d = Some ya ->
  rnnlm ca = false -> use_jit ca = false -> 2 < i ->
  (last ys = Some (eos M) /\ ya <> [] /\ i < wait_k_st M) \/
  (last ya = Some (eos M) /\ ys <> [] /\ i < wait_k_asr M) ->
  (exists e, step M enc_len fwd ed ta ca i st = Err e) /\
  (head (hyps st) = Some a ->
   step M enc_len fwd ed ta ca i st = Err NotImplementedError).
Proof.
  intros Ha Hd Hys Hya Hlm Hjit Hi Hc. split.
  - destruct (expand_all_both_suppressed M fwd ta ca i (hyps st) a
                (st_heap st) [] (local_att_scores st)
                (local_att_scores_asr st) d ys ya) as [e He]; try assumption.
    exists e. unfold step. rewrite He. reflexivity.
  - intros Hh. unfold step. destruct (hyps st) as [|b hs]; [discriminate|].
    injection Hh as ->. simpl.
    erewrite expand_hyp_both_suppressed by eassumption. reflexivity.
Qed.

(** ** Joint selection of token pairs *)

Lemma zip_seq_lookup {A : Type} (v : list A) (s i : nat) (x : A) :
  (i, x) ∈ zip (seq s (length v)) v -> (s <= i)%nat /\ v !! (i - s)%nat = Some x.
Proof.
  revert s. induction v as [|a v IH]; intros s H; simpl in H.
  - now apply not_elem_of_nil in H.
  - apply elem_of_cons in H as [[= -> ->]|H].
    + split; [lia|]. now rewrite Nat.sub_diag.
    + apply IH in H as [Hle Hl]. split; [lia|].
      replace (i - s)%nat with (S (i - S s)) by lia. exact Hl.
Qed.

Lemma enumerate_lookup {A : Type} (v : list A) (i : nat) (x : A) :
  (i, x) ∈ enumerate v -> v !! i = Some x.
Proof.
  intros H. apply zip_seq_lookup in H as [_ H].
  now rewrite Nat.sub_0_r in H.
Qed.

Lemma map_fst_snd_Forall2 {A B : Type} (P : B -> A -> Prop) (s : list (A * B)) :
  Forall (fun p => P p.2 p.1) s -> Forall2 P (map snd s) (map fst s).
Proof. induction 1; simpl; constructor; auto. Qed.

Lemma map_StronglySorted {A B : Type} (f : A -> B) (R : B -> B -> Prop)
    (l : list A) :
  StronglySorted (fun a b => R (f a) (f b)) l -> StronglySorted R (map f l).
Proof.
  induction l as [|a l IH]; intros Hs; simpl; [constructor|].
  apply StronglySorted_inv in Hs as [Hs Ha]. constructor; [auto|].
  rewrite Forall_forall in Ha. rewrite Forall_forall. intros y Hy.
  change (map f l) with (f <$> l) in Hy.
  apply list_elem_of_fmap in Hy as (b & -> & Hb). auto.
Qed.

Lemma topk_spec (k : Z) (v : list Q) vals ids :
  topk k v = Ok (vals, ids) ->
  length vals = Z.to_nat k /\ length ids = Z.to_nat k /\
  Forall2 (fun x i => v !! i = Some x) vals ids /\
  StronglySorted (fun s t => (t <= s)%Q) vals.
Proof.
  unfold topk. destruct (_ || _) eqn:E; [discriminate|].
  apply orb_false_iff in E as [E1 E2]. apply Z.ltb_ge in E1, E2.
  intros [= <- <-].
  assert (Hlen : length (take (Z.to_nat k) (sorted_desc snd (enumerate v)))
                 = Z.to_nat k).
  { rewrite length_take, sorted_desc_length. unfold enumerate.
    rewrite length_zip_with, length_seq. lia. }
  rewrite !length_map. split; [exact Hlen|]. split; [exact Hlen|]. split.
  - apply map_fst_snd_Forall2. rewrite Forall_forall. intros [i x] Hp.
    apply enumerate_lookup.
    rewrite <- (sorted_desc_perm snd (enumerate v)).
    eapply elem_of_sublist; [exact Hp | apply sublist_take].
  - apply map_StronglySorted.
    eapply StronglySorted_sublist; [apply sublist_take|].
    apply (sorted_desc_sorted snd).
Qed.

Lemma outer_sum_s2v (lst lasr : list Q) xk ixk yk iyk :
  Forall2 (fun x i => lst !! i = Some x) xk ixk ->
  Forall2 (fun y i => lasr !! i = Some y) yk iyk ->
  Forall2 (Forall2 (pair_of lst lasr)) (outer_sum xk yk) (s2v ixk iyk).
Proof.
  intros Hx Hy. unfold outer_sum, s2v.
  induction Hx as [|x i xk ixk Hxi Hx IH]; simpl; constructor; [|exact IH].
  clear IH Hx. induction Hy as [|y j yk iyk Hyj Hy IH]; simpl; constructor;
    [|exact IH].
  exists x, y. auto.
Qed.

Lemma span_Forall2 {A B : Type} (P : A -> B -> Prop) c l k :
  Forall2 P l k -> Forall2 P (span c l) (span c k).
Proof.
  intros H. destruct c as [n|]; [|exact H]. simpl. unfold slice_to.
  rewrite (Forall2_length _ _ _ H).
  destruct (0 <=? n); now apply Forall2_take.
Qed.

Lemma submatrix_Forall2 {A B : Type} (P : A -> B -> Prop) cr ct S I :
  Forall2 (Forall2 P) S I ->
  Forall2 (Forall2 P) (submatrix cr ct S) (submatrix cr ct I).
Proof.
  intros H. unfold submatrix.
  apply (span_Forall2 _ cr) in H.
  induction H; simpl; constructor; [now apply span_Forall2 | assumption].
Qed.

Lemma concat_Forall2 {A B : Type} (P : A -> B -> Prop) S I :
  Forall2 (Forall2 P) S I -> Forall2 P (concat S) (concat I).
Proof.
  induction 1; simpl; [constructor | now apply Forall2_app].
Qed.

Lemma mapM_length {A B : Type} (f : A -> res B) l r :
  mapM f l = Ok r -> length r = length l.
Proof.
  intros H. apply mapM_Forall2 in H. symmetry. eapply Forall2_length, H.
Qed.

Lemma restricted_topk_pairs (lst lasr : list Q) beam cr ct xk ixk yk iyk sel :
  Forall2 (fun x i => lst !! i = Some x) xk ixk ->
  Forall2 (fun y i => lasr !! i = Some y) yk iyk ->
  restricted_topk beam cr ct xk ixk yk iyk = Ok sel ->
  length (local_best_scores sel) = Z.to_nat beam /\
  length (local_best_ids_st sel) = Z.to_nat beam /\
  length (local_best_ids_asr sel) = Z.to_nat beam /\
  StronglySorted (fun s t => (t <= s)%Q) (local_best_scores sel) /\
  forall j s a b,
    local_best_scores sel !! j = Some s ->
    local_best_ids_st sel !! j = Some a ->
    local_best_ids_asr sel !! j = Some b ->
    exists x y,
      0 <= a /\ 0 <= b /\
      lst !! Z.to_nat a = Some x /\ lasr !! Z.to_nat b = Some y /\
      s = (x + y)%Q.
Proof.
  intros Hx Hy H. unfold restricted_topk in H.
  apply bind_Ok in H as ([best id2k] & Ht & H). simpl in H.
  apply bind_Ok in H as (I' & HI & H). injection H as <-. simpl.
  apply topk_spec in Ht as (Hl1 & Hl2 & Hlook & Hsorted).
  pose proof (mapM_length _ _ _ HI) as Hl3.
  apply mapM_Forall2 in HI.
  rewrite !length_map.
  split; [exact Hl1|]. split; [congruence|]. split; [congruence|].
  split; [exact Hsorted|].
  intros j s a b Hs Ha Hb.
  change (map ?f I') with (f <$> I') in Ha, Hb.
  rewrite list_lookup_fmap in Ha, Hb.
  destruct (I' !! j) as [[p q]|] eqn:Hp; [|discriminate].
  simpl in Ha, Hb. injection Ha as <-. injection Hb as <-.
  destruct (Forall2_lookup_l _ _ _ _ _ Hlook Hs) as (i & Hi & Hsi).
  pose proof (Forall2_lookup_lr _ _ _ _ _ _ HI Hi Hp) as Hitem.
  unfold item in Hitem.
  destruct (concat _ !! i) as [pq|] eqn:Hpq in Hitem; [|discriminate].
  injection Hitem as ->.
  pose proof (concat_Forall2 _ _ _
                (submatrix_Forall2 _ cr ct _ _ (outer_sum_s2v _ _ _ _ _ _ Hx Hy)))
    as Hall.
  destruct (Forall2_lookup_lr _ _ _ _ _ _ Hall Hsi Hpq) as (x & y & H1 & H2 & H3).
  simpl in H1, H2. exists x, y. rewrite !Nat2Z.id.
  repeat split; try assumption; lia.
Qed.

(** X10.  What the joint selection of lines 573-629 returns, in each of
    its four diversity branches: [beam] scores in descending order with
    [beam] token ids for each stream, and the score at each position is the
    sum of the ST score of the ST token and the ASR score of the ASR token at
    that position, so the flattening of the score matrix and of the index
    table [s2v] stay aligned under the restriction to a sub-matrix. *)
Theorem select_joint_pairs rst rasr beam lst lasr sel :
  select_joint rst rasr beam lst lasr = Ok sel ->
  length (local_best_scores sel) = Z.to_nat beam /\
  length (local_best_ids_st sel) = Z.to_nat beam /\
  length (local_best_ids_asr sel) = Z.to_nat beam /\
  StronglySorted (fun s t => (t <= s)%Q) (local_best_scores sel) /\
  forall j s a b,
    local_best_scores sel !! j = Some s ->
    local_best_ids_st sel !! j = Some a ->
    local_best_ids_asr sel !! j = Some b ->
    exists x y,
      0 <= a /\ 0 <= b /\
      lst !! Z.to_nat a = Some x /\ lasr !! Z.to_nat b = Some y /\
      s = (x + y)%Q.
Proof.
  unfold select_joint. intros H.
  apply bind_Ok in H as ([xk ixk] & Hx & H). simpl in H.
  apply bind_Ok in H as ([yk iyk] & Hy & H). simpl in H.
  apply topk_spec in Hx as (_ & _ & Hx & _).
  apply topk_spec in Hy as (_ & _ & Hy & _).
  destruct (_ && _) in H;
    [eapply restricted_topk_pairs; eassumption|].
  destruct (_ && _) in H;
    [eapply restricted_topk_pairs; eassumption|].
  destruct (_ && _) in H;
    [eapply restricted_topk_pairs; eassumption|].
  destruct (_ && _) in H; [|discriminate].
  apply bind_Ok in H as (ct & _ & H).
  eapply restricted_topk_pairs; eassumption.
Qed.

Lemma topk_Ok (k : Z) (v : list Q) :
  0 <= k <= Z.of_nat (length v) -> exists vals ids, topk k v = Ok (vals, ids).
Proof.
  intros [H1 H2]. unfold topk.
  destruct (Z.ltb_spec k 0); [lia|].
  destruct (Z.ltb_spec (Z.of_nat (length v)) k); [lia|]. simpl. eauto.
Qed.

Lemma outer_sum_length xk yk :
  length (concat (outer_sum xk yk)) = (length xk * length yk)%nat.
Proof.
  unfold outer_sum. induction xk as [|x xk IH]; simpl; [reflexivity|].
  rewrite length_app, length_map, IH. reflexivity.
Qed.

Lemma s2v_length ixk iyk :
  length (concat (s2v ixk iyk)) = (length ixk * length iyk)%nat.
Proof.
  unfold s2v. induction ixk as [|x ixk IH]; simpl; [reflexivity|].
  rewrite length_app, length_map, IH. reflexivity.
Qed.

Lemma mapM_item_Ok {A : Type} (l : list A) (ids : list nat) :
  Forall (fun i => (i < length l)%nat) ids ->
  exists r, mapM (item l) ids = Ok r.
Proof.
  induction 1 as [|i ids Hi _ [r IH]]; simpl; [eauto|].
  unfold item at 1. apply lookup_lt_is_Some_2 in Hi as [x Hx].
  rewrite Hx. simpl. rewrite IH. simpl. eauto.
Qed.

(** X11.  Without diversity forcing (both ratios at most 0, the
    default) the joint selection raises nothing whenever the beam size is
    between 1 and the size of both distributions. *)
Theorem select_joint_default_succeeds rst rasr beam lst lasr :
  (rst <= 0)%Q -> (rasr <= 0)%Q ->
  1 <= beam -> beam <= Z.of_nat (length lst) ->
  beam <= Z.of_nat (length lasr) ->
  exists sel, select_joint rst rasr beam lst lasr = Ok sel.
Proof.
  intros Hst Hasr Hb H1 H2. unfold select_joint.
  destruct (topk_Ok beam lst) as (xk & ixk & Hx); [lia|].
  destruct (topk_Ok beam lasr) as (yk & iyk & Hy); [lia|].
  rewrite Hx, Hy. simpl.
  apply Qle_bool_iff in Hst, Hasr. rewrite Hst, Hasr. simpl.
  apply topk_spec in Hx as (Lx & Lix & _). apply topk_spec in Hy as (Ly & Liy & _).
  unfold restricted_topk. rewrite !submatrix_full.
  destruct (topk_Ok beam (concat (outer_sum xk yk))) as (best & id2k & Ht).
  { rewrite outer_sum_length, Lx, Ly. nia. }
  rewrite Ht. simpl. apply topk_spec in Ht as (_ & _ & Hl & _).
  destruct (mapM_item_Ok (concat (s2v ixk iyk)) id2k) as [I' HI].
  { rewrite Forall_forall. intros i Hi.
    apply list_elem_of_lookup in Hi as [j Hj].
    destruct (Forall2_lookup_r _ _ _ _ _ Hl Hj) as (x & _ & Hx).
    apply lookup_lt_Some in Hx.
    rewrite outer_sum_length in Hx. rewrite s2v_length. congruence. }
  rewrite HI. simpl. eauto.
Qed.

Import AsrInit.

(** * Pre-initialisation from trained models *)

Lemma string_prefix_refl (s : string) : String.prefix s s = true.
Proof.
  induction s as [|a s IH]; simpl; [reflexivity|].
  destruct (Ascii.ascii_dec a a); [exact IH | contradiction].
Qed.

Lemma filter_modules_from_filter mods_model modules new_mods incorrect_mods :
  filter_modules_from mods_model modules new_mods incorrect_mods =
  new_mods ++
  List.filter (fun m => existsb (fun key => startswith key m) mods_model)
              modules.
Proof.
  revert new_mods incorrect_mods.
  induction modules as [|m modules IH]; intros new_mods incorrect_mods; simpl.
  - now rewrite app_nil_r.
  - destruct (existsb _ mods_model); rewrite IH; [|reflexivity].
    now rewrite <- app_assoc.
Qed.

Lemma any_startswith_filter (mods_model modules : list string) (key : string) :
  key ∈ mods_model ->
  any_startswith key
    (List.filter (fun m => existsb (fun key => startswith key m) mods_model)
                 modules) =
  any_startswith key modules.
Proof.
  intros Hk. unfold any_startswith.
  induction modules as [|m modules IH]; simpl; [reflexivity|].
  destruct (existsb (fun key0 => startswith key0 m) mods_model) eqn:E; simpl.
  - now rewrite IH.
  - rewrite IH. destruct (startswith key m) eqn:Es; [|reflexivity].
    exfalso. apply not_true_iff_false in E. apply E.
    apply existsb_exists. exists key. split; [|exact Es].
    now apply list_elem_of_In.
Qed.

Lemma foldl_ext_in {A B : Type} (f g : A -> B -> A) (l : list B) (a : A) :
  (forall x y, y ∈ l -> f x y = g x y) -> foldl f a l = foldl g a l.
Proof.
  revert a. induction l as [|y l IH]; intros a H; simpl; [reflexivity|].
  rewrite H by left. apply IH. intros x z Hz. apply H. now right.
Qed.

(** X12.  Filtering the module list first (line 294) loses nothing: the
    partial state dict taken for the filtered modules is the one taken for
    the modules as given. *)
Theorem filter_modules_keeps_partial_state_dict
    (model_state_dict : state_dict) (modules : list string) :
  get_partial_state_dict model_state_dict
    (filter_modules model_state_dict modules) =
  get_partial_state_dict model_state_dict modules.
Proof.
  unfold get_partial_state_dict, filter_modules.
  rewrite filter_modules_from_filter. simpl.
  apply foldl_ext_in. intros acc [k v] Hkv. simpl.
  rewrite any_startswith_filter; [reflexivity|].
  unfold keys. change (map fst model_state_dict) with (fst <$> model_state_dict).
  apply list_elem_of_fmap. exists (k, v). auto.
Qed.

Lemma od_get_Some_keys (d : state_dict) k v : od_get d k = Some v -> k ∈ keys d.
Proof.
  induction d as [|[k' v'] d IH]; simpl; [discriminate|].
  destruct (String.eqb_spec k' k) as [->|Hne]; [left|].
  intros H. right. now apply IH.
Qed.

Lemma od_get_None_keys (d : state_dict) k : od_get d k = None <-> k ∉ keys d.
Proof.
  induction d as [|[k' v'] d IH]; simpl.
  - split; [intros _; apply not_elem_of_nil | reflexivity].
  - destruct (String.eqb_spec k' k) as [->|Hne].
    + split; [discriminate|]. intros H. exfalso. apply H. left.
    + rewrite IH. rewrite not_elem_of_cons. split; [auto | now intros [_ ?]].
Qed.

Lemma matching_shapes_Ok model partial modules acc pm :
  matching_shapes model partial modules acc = Ok pm ->
  (forall kv, kv ∈ partial -> ~ missing model modules kv) /\
  exists new,
    pm = acc ++ new /\
    (new <> [] <-> exists kv, kv ∈ partial /\ shape_match model modules kv).
Proof.
  revert acc. induction partial as [|[k v] partial IH]; intros acc H; simpl in H.
  - injection H as <-. split; [intros kv Hkv; now apply not_elem_of_nil in Hkv|].
    exists []. rewrite app_nil_r. split; [reflexivity|]. split; [congruence|].
    intros (kv & Hkv & _). now apply not_elem_of_nil in Hkv.
  - destruct (any_startswith k modules) eqn:Ea.
    + destruct (od_get model k) as [w|] eqn:Eg; [|discriminate].
      apply IH in H as (Hmiss & new & -> & Hnew). split.
      * intros kv Hkv. apply elem_of_cons in Hkv as [->|Hkv]; [|auto].
        intros [_ Hc]. simpl in Hc. congruence.
      * destruct (bool_decide_reflect (shape v = shape w)) as [Es|Es].
        -- exists ((k, shape v) :: new). rewrite <- app_assoc.
           split; [reflexivity|]. split; [|discriminate].
           intros _. exists (k, v). split; [left|]. split; [exact Ea|].
           exists w. auto.
        -- exists new. split; [reflexivity|]. rewrite Hnew. split.
           ++ intros (kv & Hkv & Hm). exists kv. split; [now right | exact Hm].
           ++ intros (kv & Hkv & Hm).
              apply elem_of_cons in Hkv as [->|Hkv]; [|eauto].
              destruct Hm as (_ & w' & Hw' & Hs). simpl in Hw', Hs.
              rewrite Eg in Hw'. injection Hw' as <-. contradiction.
    + apply IH in H as (Hmiss & new & -> & Hnew). split.
      * intros kv Hkv. apply elem_of_cons in Hkv as [->|Hkv]; [|auto].
        intros [Hc _]. simpl in Hc. congruence.
      * exists new. split; [reflexivity|]. rewrite Hnew. split.
        -- intros (kv & Hkv & Hm). exists kv. split; [now right | exact Hm].
        -- intros (kv & Hkv & Hm).
           apply elem_of_cons in Hkv as [->|Hkv]; [|eauto].
           destruct Hm as (Hc & _). simpl in Hc. congruence.
Qed.

Lemma matching_shapes_Err model partial modules acc e :
  matching_shapes model partial modules acc = Err e ->
  e = KeyError /\ exists kv, kv ∈ partial /\ missing model modules kv.
Proof.
  revert acc. induction partial as [|[k v] partial IH]; intros acc H; simpl in H.
  - discriminate.
  - destruct (any_startswith k modules) eqn:Ea.
    + destruct (od_get model k) as [w|] eqn:Eg.
      * apply IH in H as (-> & kv & Hkv & Hm). split; [reflexivity|].
        exists kv. split; [now right | exact Hm].
      * injection H as <-. split; [reflexivity|].
        exists (k, v). split; [left|]. split; assumption.
    + apply IH in H as (-> & kv & Hkv & Hm). split; [reflexivity|].
      exists kv. split; [now right | exact Hm].
Qed.

(** X13.  What [transfer_verification] answers.  It raises [KeyError]
    exactly when the partial dict has a parameter under one of the modules
    that the model lacks; otherwise it allows the transfer exactly when at
    least one such parameter has the shape of the model's parameter of the
    same name: one agreeing shape is enough, the others are not required to
    agree. *)
Theorem transfer_verification_spec
    (model_state_dict partial_state_dict : state_dict)
    (modules : list string) :
  match transfer_verification model_state_dict partial_state_dict modules with
  | Err e =>
      e = KeyError /\
      exists kv, kv ∈ partial_state_dict /\
                 missing model_state_dict modules kv
  | Ok b =>
      (forall kv, kv ∈ partial_state_dict ->
                  ~ missing model_state_dict modules kv) /\
      (b = true <->
       exists kv, kv ∈ partial_state_dict /\
                  shape_match model_state_dict modules kv)
  end.
Proof.
  unfold transfer_verification.
  destruct (matching_shapes model_state_dict partial_state_dict modules [])
    as [pm|e] eqn:E; simpl.
  - apply matching_shapes_Ok in E as (Hmiss & new & -> & Hnew).
    split; [exact Hmiss|]. rewrite <- Hnew. simpl.
    destruct new; simpl; split; try congruence; try discriminate.
    intros _. apply Nat.ltb_lt. lia.
  - now apply matching_shapes_Err in E.
Qed.

Lemma od_set_keys_in (d : state_dict) k v :
  k ∈ keys d -> keys (od_set d k v) = keys d.
Proof.
  induction d as [|[k' v'] d IH]; simpl; intros Hk.
  - now apply not_elem_of_nil in Hk.
  - destruct (String.eqb_spec k' k) as [->|Hne]; [reflexivity|].
    simpl. f_equal. apply IH.
    apply elem_of_cons in Hk as [->|Hk]; [contradiction | exact Hk].
Qed.

Lemma od_set_keys_subset (d : state_dict) k v k0 :
  k0 ∈ keys (od_set d k v) -> k0 ∈ keys d \/ k0 = k.
Proof.
  induction d as [|[k' v'] d IH]; simpl.
  - intros H. apply list_elem_of_singleton in H. now right.
  - destruct (String.eqb_spec k' k) as [->|Hne]; simpl.
    + intros H. now left.
    + intros H. apply elem_of_cons in H as [->|H]; [left; left|].
      destruct (IH H) as [H'|H']; [left; now right | now right].
Qed.

Lemma od_update_keys (d p : state_dict) :
  (forall k, k ∈ keys p -> k ∈ keys d) -> keys (od_update d p) = keys d.
Proof.
  unfold od_update. revert d.
  induction p as [|[k v] p IH]; intros d H; simpl; [reflexivity|].
  assert (Hk : keys (od_set d k v) = keys d) by (apply od_set_keys_in, H; left).
  rewrite IH; [exact Hk|]. intros k0 Hk0. rewrite Hk. apply H. now right.
Qed.

Lemma keys_elem (d : state_dict) k : k ∈ keys d <-> exists v, (k, v) ∈ d.
Proof.
  unfold keys. change (map fst d) with (fst <$> d).
  rewrite list_elem_of_fmap. split.
  - intros ([k' v] & -> & H). eauto.
  - intros (v & H). exists (k, v). auto.
Qed.

Lemma get_partial_state_dict_keys model_state_dict modules k :
  k ∈ keys (get_partial_state_dict model_state_dict modules) ->
  any_startswith k modules = true /\ k ∈ keys model_state_dict.
Proof.
  unfold get_partial_state_dict.
  assert (H : forall acc,
    (forall k, k ∈ keys acc ->
       any_startswith k modules = true /\ k ∈ keys model_state_dict) ->
    forall l, (forall kv, kv ∈ l -> kv.1 ∈ keys model_state_dict) ->
    forall k,
      k ∈ keys (foldl (fun new_state_dict kv =>
                         if any_startswith kv.1 modules
                         then od_set new_state_dict kv.1 kv.2
                         else new_state_dict) acc l) ->
      any_startswith k modules = true /\ k ∈ keys model_state_dict).
  { intros acc Hacc l. revert acc Hacc.
    induction l as [|[k0 v0] l IH]; intros acc Hacc Hl k0'; simpl; [auto|].
    apply IH; [|intros kv Hkv; apply Hl; now right].
    intros k1 Hk1. destruct (any_startswith k0 modules) eqn:E; [|auto].
    apply od_set_keys_subset in Hk1 as [Hk1| ->]; [auto|].
    split; [exact E|]. apply (Hl (k0, v0)). left. }
  apply H.
  - intros k0 Hk0. now apply not_elem_of_nil in Hk0.
  - intros [k0 v0] Hkv. apply keys_elem. eauto.
Qed.

Lemma verified_keys model partial modules b :
  transfer_verification model partial modules = Ok b ->
  (forall k, k ∈ keys partial -> any_startswith k modules = true) ->
  forall k, k ∈ keys partial -> k ∈ keys model.
Proof.
  intros H Hall k Hk. unfold transfer_verification in H.
  apply bind_Ok in H as (pm & H & _).
  apply matching_shapes_Ok in H as (Hmiss & _).
  apply keys_elem in Hk as [v Hv].
  destruct (od_get model k) as [w|] eqn:E;
    [eapply od_get_Some_keys; eassumption|].
  exfalso. apply (Hmiss (k, v) Hv). split; [|exact E].
  apply Hall. apply keys_elem. eauto.
Qed.

Lemma od_get_od_set (d : state_dict) k v k' :
  od_get (od_set d k v) k' = if String.eqb k k' then Some v else od_get d k'.
Proof.
  induction d as [|[k0 v0] d IH]; simpl; [reflexivity|].
  destruct (String.eqb_spec k0 k) as [->|Hne]; simpl.
  - destruct (String.eqb_spec k k'); reflexivity.
  - rewrite IH. destruct (String.eqb_spec k0 k') as [->|Hne'];
      [|reflexivity].
    destruct (String.eqb_spec k k'); [congruence | reflexivity].
Qed.

Lemma od_set_keys_notin (d : state_dict) k v :
  k ∉ keys d -> keys (od_set d k v) = (keys d ++ [k])%list.
Proof.
  induction d as [|[k' v'] d IH]; simpl; intros Hk; [reflexivity|].
  apply not_elem_of_cons in Hk as [Hne Hk].
  destruct (String.eqb_spec k' k) as [->|_]; [contradiction|].
  simpl. f_equal. now apply IH.
Qed.

Lemma od_set_NoDup (d : state_dict) k v :
  NoDup (keys d) -> NoDup (keys (od_set d k v)).
Proof.
  intros Hd. destruct (od_get d k) as [w|] eqn:E.
  - apply od_get_Some_keys in E. now rewrite od_set_keys_in.
  - apply od_get_None_keys in E.
    rewrite od_set_keys_notin by exact E. apply NoDup_app.
    split; [exact Hd|]. split; [|apply NoDup_singleton].
    intros x Hx Hx'. apply list_elem_of_singleton in Hx'. now subst x.
Qed.

Lemma get_partial_state_dict_NoDup model_state_dict modules :
  NoDup (keys (get_partial_state_dict model_state_dict modules)).
Proof.
  unfold get_partial_state_dict.
  assert (H : forall l acc, NoDup (keys acc) ->
    NoDup (keys (foldl (fun new_state_dict kv =>
                          if any_startswith kv.1 modules
                          then od_set new_state_dict kv.1 kv.2
                          else new_state_dict) acc l))).
  { induction l as [|[k0 v0] l IH]; intros acc Hacc; simpl; [exact Hacc|].
    apply IH. destruct (any_startswith k0 modules); [|exact Hacc].
    now apply od_set_NoDup. }
  apply H. constructor.
Qed.

Lemma get_partial_state_dict_get model_state_dict modules k :
  NoDup (keys model_state_dict) ->
  od_get (get_partial_state_dict model_state_dict modules) k =
  if any_startswith k modules then od_get model_state_dict k else None.
Proof.
  unfold get_partial_state_dict. intros Hnd.
  assert (H : forall l acc, NoDup (keys l) ->
    od_get (foldl (fun new_state_dict kv =>
                     if any_startswith kv.1 modules
                     then od_set new_state_dict kv.1 kv.2
                     else new_state_dict) acc l) k =
    match (if any_startswith k modules then od_get l k else None) with
    | Some v => Some v
    | None => od_get acc k
    end).
  { induction l as [|[k0 v0] l IH]; intros acc Hl; simpl.
    - now destruct (any_startswith k modules).
    - simpl in Hl. apply NoDup_cons in Hl as [Hk0 Hl]. rewrite IH by exact Hl.
      destruct (String.eqb_spec k0 k) as [->|Hne].
      + apply od_get_None_keys in Hk0. rewrite Hk0.
        destruct (any_startswith k modules); [|reflexivity].
        rewrite od_get_od_set, String.eqb_refl. reflexivity.
      + destruct (any_startswith k0 modules); [|reflexivity].
        rewrite od_get_od_set.
        destruct (String.eqb_spec k0 k); [congruence | reflexivity]. }
  rewrite H by exact Hnd. simpl.
  destruct (any_startswith k modules); [|reflexivity].
  now destruct (od_get model_state_dict k).
Qed.

Lemma od_update_get (d p : state_dict) k :
  NoDup (keys p) ->
  od_get (od_update d p) k =
  match od_get p k with
  | Some v => Some v
  | None => od_get d k
  end.
Proof.
  unfold od_update. revert d.
  induction p as [|[k0 v0] p IH]; intros d Hp; simpl; [reflexivity|].
  simpl in Hp. apply NoDup_cons in Hp as [Hk0 Hp]. rewrite IH by exact Hp.
  rewrite od_get_od_set. simpl.
  destruct (String.eqb_spec k0 k) as [->|Hne]; [|reflexivity].
  apply od_get_None_keys in Hk0. now rewrite Hk0.
Qed.

(** X14.  The update of line 310 after a verified transfer, for a
    trained state dict with distinct keys: the main state dict keeps its
    keys in their order (no parameter is added), every parameter under one
    of the modules that the trained dict has takes the trained value, and
    every other parameter keeps its value. *)
Theorem verified_update_overrides_selected
    (main_state_dict model_state_dict : state_dict) (modules : list string) :
  NoDup (keys model_state_dict) ->
  transfer_verification main_state_dict
    (get_partial_state_dict model_state_dict modules) modules = Ok true ->
  let updated :=
    od_update main_state_dict
      (get_partial_state_dict model_state_dict modules) in
  keys updated = keys main_state_dict /\
  forall k,
    od_get updated k =
    if any_startswith k modules then
      match od_get model_state_dict k with
      | Some v => Some v
      | None => od_get main_state_dict k
      end
    else od_get main_state_dict k.
Proof.
  intros Hnd H updated. subst updated. split.
  - apply od_update_keys.
    eapply verified_keys; [exact H|].
    intros k Hk. now apply get_partial_state_dict_keys in Hk.
  - intros k. rewrite od_update_get by apply get_partial_state_dict_NoDup.
    rewrite get_partial_state_dict_get by exact Hnd.
    now destruct (any_startswith k modules).
Qed.

Lemma dual_decoders_keys model_state_dict modules k :
  k ∈ keys (get_partial_state_dict_dual_decoders model_state_dict modules).1 ->
  k ∈ (get_partial_state_dict_dual_decoders model_state_dict modules).2.
Proof.
  unfold get_partial_state_dict_dual_decoders.
  assert (H : forall l acc,
    (forall k, k ∈ keys acc.1 -> k ∈ acc.2) ->
    forall k,
      k ∈ keys (foldl (fun acc kv =>
                 let '(new_state_dict, new_modules) := acc in
                 if any_startswith kv.1 modules
                 then (od_set new_state_dict (dual_key kv.1) kv.2,
                       (new_modules ++ [dual_key kv.1])%list)
                 else acc) acc l).1 ->
      k ∈ (foldl (fun acc kv =>
                 let '(new_state_dict, new_modules) := acc in
                 if any_startswith kv.1 modules
                 then (od_set new_state_dict (dual_key kv.1) kv.2,
                       (new_modules ++ [dual_key kv.1])%list)
                 else acc) acc l).2).
  { induction l as [|[k0 v0] l IH]; intros [nd nm] Hacc k0'; simpl; [auto|].
    apply IH. simpl in Hacc.
    destruct (any_startswith k0 modules); simpl; [|exact Hacc].
    intros k1 Hk1. apply elem_of_app.
    apply od_set_keys_subset in Hk1 as [Hk1| ->]; [left; auto|].
    right. left. }
  apply H. intros k0 Hk0. now apply not_elem_of_nil in Hk0.
Qed.

Lemma any_startswith_mem k modules : k ∈ modules -> any_startswith k modules = true.
Proof.
  intros H. apply existsb_exists. exists k.
  split; [now apply list_elem_of_In | apply string_prefix_refl].
Qed.

(** X15.  On the dual-decoder path (lines 300-310) the returned module
    list holds every key of the renamed partial dict, so the verification
    looks at every key: if it returns, all renamed keys are parameters of the
    main model, and the update adds no key. *)
Theorem dual_decoders_update_keeps_keys
    (main_state_dict model_state_dict partial_state_dict : state_dict)
    (modules new_modules : list string) (b : bool) :
  get_partial_state_dict_dual_decoders model_state_dict modules =
    (partial_state_dict, new_modules) ->
  transfer_verification main_state_dict partial_state_dict new_modules
    = Ok b ->
  (forall k, k ∈ keys partial_state_dict -> k ∈ new_modules) /\
  (forall k, k ∈ keys partial_state_dict -> k ∈ keys main_state_dict) /\
  keys (od_update main_state_dict partial_state_dict) = keys main_state_dict.
Proof.
  intros E H.
  pose proof (dual_decoders_keys model_state_dict modules) as Hk.
  rewrite E in Hk. simpl in Hk.
  assert (Hin : forall k, k ∈ keys partial_state_dict ->
                          k ∈ keys main_state_dict).
  { eapply verified_keys; [exact H|].
    intros k Hk0. apply any_startswith_mem. auto. }
  split; [exact Hk|]. split; [exact Hin | now apply od_update_keys].
Qed.

Lemma after_first_Ok sep s :
  contains sep s = true -> exists tail, after_first sep s = Ok tail.
Proof.
  induction s as [|c s IH]; cbn [contains after_first].
  - destruct (String.prefix sep ""%string); [eauto | discriminate].
  - destruct (String.prefix sep (String c s)); [eauto|]. exact IH.
Qed.

Lemma lm_from_spec items modules nd nm :
  (forall k, k ∈ keys nd -> startswith k "dec."%string = true /\ k ∈ nm) ->
  exists nd' nm',
    get_partial_lm_state_dict_from items modules nd nm = Ok (nd', nm') /\
    (forall k, k ∈ keys nd' -> startswith k "dec."%string = true /\ k ∈ nm') /\
    (mem "predictor.embed."%string modules = false ->
     mem "predictor.rnn."%string modules = false -> nd' = nd /\ nm' = nm).
Proof.
  revert nd nm. induction items as [|[key value] items IH]; intros nd nm H;
    simpl.
  - exists nd, nm. auto.
  - destruct (String.eqb key "predictor.embed.weight"%string
              && mem "predictor.embed."%string modules) eqn:E1.
    + destruct (IH (od_set nd "dec.embed.weight"%string value)
                   (nm ++ ["dec.embed.weight"%string])%list) as (nd' & nm' & E & Hk & _).
      { intros k Hk. rewrite elem_of_app.
        apply od_set_keys_subset in Hk as [Hk| ->].
        - destruct (H k Hk). auto.
        - split; [reflexivity|]. right. left. }
      exists nd', nm'. split; [exact E|]. split; [exact Hk|].
      intros Hm _. apply andb_true_iff in E1 as [_ E1]. congruence.
    + destruct (contains "predictor.rnn."%string key
                && mem "predictor.rnn."%string modules) eqn:E2; [|apply IH, H].
      apply andb_true_iff in E2 as [Ec Em].
      destruct (after_first_Ok _ _ Ec) as [tail Et]. rewrite Et. simpl.
      destruct (IH (od_set nd ("dec.decoder." ++ tail)%string value)
                   (nm ++ [("dec.decoder." ++ tail)%string])%list)
        as (nd' & nm' & E & Hk & _).
      { intros k Hk. rewrite elem_of_app.
        apply od_set_keys_subset in Hk as [Hk| ->].
        - destruct (H k Hk). auto.
        - split; [reflexivity|]. right. left. }
      exists nd', nm'. split; [exact E|]. split; [exact Hk|].
      intros _ Hm. congruence.
Qed.

(** X16.  [get_partial_lm_state_dict] raises nothing; every key it
    produces is under ["dec."] and is listed in the returned modules; and it
    produces nothing unless the module list holds the exact names
    ["predictor.embed."] or ["predictor.rnn."]. *)
Theorem get_partial_lm_state_dict_spec
    (model_state_dict : state_dict) (modules : list string) :
  exists new_state_dict new_modules,
    get_partial_lm_state_dict model_state_dict modules
      = Ok (new_state_dict, new_modules) /\
    (forall k, k ∈ keys new_state_dict ->
       startswith k "dec."%string = true /\ k ∈ new_modules) /\
    (mem "predictor.embed."%string modules = false ->
     mem "predictor.rnn."%string modules = false ->
     new_state_dict = [] /\ new_modules = []).
Proof.
  apply lm_from_spec. intros k Hk. now apply not_elem_of_nil in Hk.
Qed.

(** * The parameter checks of the constructor *)

Lemma assert_Ok b u : Init.assert b = Ok u -> b = true.
Proof. destruct b; [reflexivity | discriminate]. Qed.

(** X17.  What a configuration accepted by the constructor's checks
    satisfies: both lags are non-negative and at most one is positive; a
    cross operator is set exactly when a cross direction is; a cross
    direction needs the ASR task and cross attention at self or source; the
    operator ['sum'] needs a positive weight; and without
    [normalize_before] both cross inputs come from the embedding. *)
Theorem check_parameters_accepts (a : Init.init_args) :
  Init.check_parameters a = Ok tt ->
  (0 <= Init.wait_k_asr a /\ 0 <= Init.wait_k_st a /\
   (Init.wait_k_asr a = 0 \/ Init.wait_k_st a = 0)) /\
  (Init.truthy (Init.cross_operator a) = true <->
   Init.cross_to_asr a || Init.cross_to_st a = true) /\
  (Init.cross_to_asr a || Init.cross_to_st a = true ->
   Init.do_asr a = true /\ Init.cross_self a || Init.cross_src a = true) /\
  (Init.cross_operator a = Some "sum"%string -> (0 < Init.cross_weight a)%Q) /\
  (Init.normalize_before a = false ->
   Init.cross_src_from a = "embedding"%string /\
   Init.cross_self_from a = "embedding"%string).
Proof.
  unfold Init.check_parameters. intros H.
  apply bind_Ok in H as (u1 & H1 & H).
  apply bind_Ok in H as (u2 & H2 & H).
  apply bind_Ok in H as (u3 & H3 & H).
  apply bind_Ok in H as (u4 & H4 & H).
  apply assert_Ok in H3. apply Bool.eqb_prop in H3.
  assert (Hcross : Init.cross_to_asr a || Init.cross_to_st a = true ->
                   Init.do_asr a = true /\
                   Init.cross_self a || Init.cross_src a = true).
  { intros Hc. rewrite Hc in H2.
    apply bind_Ok in H2 as (u & Hd & H2).
    apply assert_Ok in Hd, H2. auto. }
  split; [|split; [|split; [exact Hcross|split]]].
  - destruct (Z.ltb_spec 0 (Init.wait_k_asr a)).
    + apply assert_Ok, Z.eqb_eq in H. lia.
    + destruct (Z.ltb_spec 0 (Init.wait_k_st a)).
      * apply assert_Ok, Z.eqb_eq in H. lia.
      * apply bind_Ok in H as (u & Ha & H).
        apply assert_Ok, Z.eqb_eq in Ha, H. lia.
  - rewrite H3. split.
    + intros Hc. now apply andb_true_iff in Hc as [_ Hc].
    + intros Hc. destruct (Hcross Hc) as [Hd _]. now rewrite Hd, Hc.
  - intros Hop. rewrite Hop in H1, H3. simpl in H1, H3.
    symmetry in H3. apply andb_true_iff in H3 as [_ Hc].
    destruct (Qle_bool (Init.cross_weight a) 0) eqn:Ew.
    + apply assert_Ok in H1.
      destruct (Init.cross_to_asr a), (Init.cross_to_st a); discriminate.
    + apply Qlt_bool_true. unfold Qlt_bool. now rewrite Ew.
  - intros Hn. rewrite Hn in H4.
    destruct (String.eqb_spec (Init.cross_src_from a) "embedding");
      destruct (String.eqb_spec (Init.cross_self_from a) "embedding");
      simpl in H4; try discriminate. auto.
Qed.

(** * Concrete runs for the further properties *)

Lemma force_eos_ends_every_stream_witness :
  force_eos Toy.plain yseq_asr [0%nat] Toy.heap3 = Ok Toy.heap3_forced /\
  dicts Toy.heap3_forced = dicts Toy.heap3 /\
  (forall a, a ∈ [0%nat] ->
     exists d l, dicts Toy.heap3_forced !! a = Some d /\
                 lists Toy.heap3_forced !! yseq_asr d = Some l /\
                 last l = Some (eos Toy.plain)) /\
  (forall r l, lists Toy.heap3 !! r = Some l ->
     exists l', lists Toy.heap3_forced !! r = Some l' /\
                (l' = l \/
                 (l' = l ++ [eos Toy.plain] /\
                  last l <> Some (eos Toy.plain)))).
Proof.
  assert (H : force_eos Toy.plain yseq_asr [0%nat] Toy.heap3
              = Ok Toy.heap3_forced) by (vm_compute; reflexivity).
  split; [exact H|].
  exact (force_eos_ends_every_stream Toy.plain yseq_asr [0%nat] Toy.heap3
           Toy.heap3_forced H).
Defined.

Lemma last_pass_ends_every_hypothesis_witness :
  step Toy.plain Toy.enc_len Toy.decoder_no_eos Toy.never_end Toy.args
    Toy.call 4 (Toy.no_eos_after 4) = Ok (NoHypothesis, Toy.no_eos_after 5) /\
  NoHypothesis <> Continue /\
  ended_hyps (Toy.no_eos_after 5) <> [].
Proof.
  assert (H : step Toy.plain Toy.enc_len Toy.decoder_no_eos Toy.never_end
                Toy.args Toy.call 4 (Toy.no_eos_after 4)
              = Ok (NoHypothesis, Toy.no_eos_after 5))
    by (vm_compute; reflexivity).
  split; [exact H|].
  destruct (last_pass_ends_every_hypothesis Toy.plain Toy.enc_len
              Toy.decoder_no_eos Toy.never_end Toy.args Toy.call 4
              (Toy.no_eos_after 4) NoHypothesis (Toy.no_eos_after 5) H)
    as [Ho He].
  - vm_compute. reflexivity.
  - vm_compute. reflexivity.
  - split; [exact Ho|]. apply He.
    + vm_compute. discriminate.
    + vm_compute. discriminate.
    + vm_compute. discriminate.
    + vm_compute. discriminate.
Defined.

Lemma equal_max_lengths_no_retry_witness :
  search Toy.plain Toy.enc_len Toy.decoder_no_eos Toy.never_end Toy.args
    Toy.call = Ok (Toy.no_eos_after 5) /\
  ended_hyps (Toy.no_eos_after 5) <> [] /\
  nbest_hyps Toy.args (Toy.no_eos_after 5) <> [] /\
  recognize_and_translate_sum Toy.plain Toy.enc_len Toy.decoder_no_eos
    Toy.never_end 1 Toy.args Toy.call =
  mapM (deref (st_heap (Toy.no_eos_after 5)))
    (nbest_hyps Toy.args (Toy.no_eos_after 5)).
Proof.
  assert (H : search Toy.plain Toy.enc_len Toy.decoder_no_eos Toy.never_end
                Toy.args Toy.call = Ok (Toy.no_eos_after 5))
    by (vm_compute; reflexivity).
  split; [exact H|].
  apply (equal_max_lengths_no_retry Toy.plain Toy.enc_len Toy.decoder_no_eos
           Toy.never_end 0 Toy.args Toy.call (Toy.no_eos_after 5)).
  - vm_compute. discriminate.
  - vm_compute. reflexivity.
  - vm_compute. discriminate.
  - vm_compute. discriminate.
  - vm_compute. discriminate.
  - vm_compute. discriminate.
  - intros j. reflexivity.
  - exact H.
Defined.

Lemma beam_after_pass_witness :
  step Toy.plain Toy.enc_len Toy.decoder_no_eos Toy.never_end Toy.args
    Toy.call 0 (init_state Toy.plain) = Ok (Continue, Toy.no_eos_after 1) /\
  hyps (Toy.no_eos_after 1) <> [] /\
  Z.of_nat (length (hyps (Toy.no_eos_after 1))) <= beam_size Toy.args /\
  NoDup (hyps (Toy.no_eos_after 1)) /\
  StronglySorted (desc (score_at (st_heap (Toy.no_eos_after 1))))
    (hyps (Toy.no_eos_after 1)) /\
  forall a, a ∈ hyps (Toy.no_eos_after 1) ->
            ~ both_ended Toy.plain (st_heap (Toy.no_eos_after 1)) a.
Proof.
  assert (H : step Toy.plain Toy.enc_len Toy.decoder_no_eos Toy.never_end
                Toy.args Toy.call 0 (init_state Toy.plain)
              = Ok (Continue, Toy.no_eos_after 1))
    by (vm_compute; reflexivity).
  split; [exact H|].
  exact (beam_after_pass Toy.plain Toy.enc_len Toy.decoder_no_eos
           Toy.never_end Toy.args Toy.call 0 (init_state Toy.plain)
           (Toy.no_eos_after 1) H).
Defined.

Lemma penalty_added_once_witness :
  step Toy.plain Toy.enc_len Toy.decoder Toy.never_end Toy.args_pen Toy.call
    2 (Toy.pen_after 2) = Ok (Continue, Toy.pen_after 3) /\
  score_at Toy.pen_expanded 7 = (-6 # 1)%Q /\
  score_at (st_heap (Toy.pen_after 3)) 7 = (-9 # 2)%Q /\
  exists new,
    ended_hyps (Toy.pen_after 3) = ended_hyps (Toy.pen_after 2) ++ new /\
    new `sublist_of` [7; 8]%nat /\ NoDup new /\
    (forall b, b ∈ new ->
       score_at (st_heap (Toy.pen_after 3)) b =
       (score_at Toy.pen_expanded b
        + inject_Z (2 + 1) * penalty Toy.args_pen)%Q) /\
    (forall b, b ∈ [7; 8]%nat -> b ∉ new ->
       score_at (st_heap (Toy.pen_after 3)) b = score_at Toy.pen_expanded b).
Proof.
  assert (H : step Toy.plain Toy.enc_len Toy.decoder Toy.never_end
                Toy.args_pen Toy.call 2 (Toy.pen_after 2)
              = Ok (Continue, Toy.pen_after 3))
    by (vm_compute; reflexivity).
  split; [exact H|]. split; [vm_compute; reflexivity|].
  split; [vm_compute; reflexivity|].
  apply (penalty_added_once Toy.plain Toy.enc_len Toy.decoder Toy.never_end
           Toy.args_pen Toy.call 2 (Toy.pen_after 2) Continue
           (Toy.pen_after 3) Toy.pen_expanded [7; 8]%nat
           (Bound (Some [-3 # 1; -2 # 1; -1 # 1]%Q))
           (Bound (Some [-3 # 1; -2 # 1; -1 # 1]%Q))).
  - vm_compute. reflexivity.
  - exact H.
Defined.

Lemma empty_result_recurs_without_end_witness :
  search Toy.plain Toy.enc_len Toy.decoder_no_eos Toy.never_end
    Toy.args_uneven Toy.call = Ok Toy.searched_uneven /\
  nbest_hyps Toy.args_uneven Toy.searched_uneven = [] /\
  forall depth,
    recognize_and_translate_sum Toy.plain Toy.enc_len Toy.decoder_no_eos
      Toy.never_end depth Toy.args_uneven Toy.call = Err RecursionError.
Proof.
  assert (H : search Toy.plain Toy.enc_len Toy.decoder_no_eos Toy.never_end
                Toy.args_uneven Toy.call = Ok Toy.searched_uneven)
    by (vm_compute; reflexivity).
  assert (Hn : nbest_hyps Toy.args_uneven Toy.searched_uneven = [])
    by (vm_compute; reflexivity).
  split; [exact H|]. split; [exact Hn|].
  exact (empty_result_recurs_without_end Toy.plain Toy.enc_len
           Toy.decoder_no_eos Toy.never_end Toy.args_uneven Toy.call
           Toy.searched_uneven Toy.searched_uneven
           eq_refl eq_refl H Hn H Hn).
Defined.

Lemma unsupported_arguments_raise_witness :
  recognize_and_translate_sum_call ToyInit.plain_object ToyInit.no_lang
    Toy.enc_len Toy.decoder Toy.never_end 1 Toy.args
    (default_call_args (Some Toy.symbols) true) = Err KeyError /\
  recognize_and_translate_sum_call ToyInit.plain_object ToyInit.no_lang
    Toy.enc_len Toy.decoder Toy.never_end 1 Toy.args
    (default_call_args None false) = Err TypeError /\
  recognize_and_translate_sum_call ToyInit.tagged_object ToyInit.en_de
    Toy.enc_len Toy.decoder Toy.never_end 1 Toy.args
    (default_call_args None false) = Err AttributeError /\
  recognize_and_translate_sum_call ToyInit.tagged_object ToyInit.en_de
    Toy.enc_len Toy.decoder Toy.never_end 1 Toy.args
    (default_call_args (Some Toy.symbols) false) = Err ValueError.
Proof.
  assert (Henc : 1 <= Toy.enc_len) by (vm_compute; discriminate).
  split; [|split; [|split]].
  - destruct (unsupported_arguments_raise ToyInit.plain_object
                ToyInit.no_lang Toy.enc_len Toy.decoder Toy.never_end 0
                Toy.args (default_call_args (Some Toy.symbols) true) Henc)
      as (_ & _ & _ & Hc).
    destruct (Hc Toy.symbols 2 2) as [Hlm _];
      [reflexivity | reflexivity | vm_compute; reflexivity
       | eexists; vm_compute; reflexivity
       | eexists; vm_compute; reflexivity |].
    apply Hlm. reflexivity.
  - destruct (unsupported_arguments_raise ToyInit.plain_object
                ToyInit.no_lang Toy.enc_len Toy.decoder Toy.never_end 0
                Toy.args (default_call_args None false) Henc)
      as (_ & Hc & _).
    destruct Hc as [Hno _]; [reflexivity | reflexivity |].
    apply Hno. reflexivity.
  - destruct (unsupported_arguments_raise ToyInit.tagged_object
                ToyInit.en_de Toy.enc_len Toy.decoder Toy.never_end 0
                Toy.args (default_call_args None false) Henc)
      as (_ & Hc & _).
    destruct Hc as [_ Hyes]; [reflexivity | reflexivity |].
    destruct Hyes as [E|E]; [reflexivity | exact E |].
    vm_compute in E. discriminate E.
  - destruct (unsupported_arguments_raise ToyInit.tagged_object
                ToyInit.en_de Toy.enc_len Toy.decoder Toy.never_end 0
                Toy.args (default_call_args (Some Toy.symbols) false) Henc)
      as (_ & _ & He & _).
    apply He; [reflexivity | vm_compute; reflexivity].
Defined.

Lemma returned_sequences_begin_with_sos_witness :
  recognize_and_translate_sum Toy.plain Toy.enc_len Toy.decoder Toy.never_end
    3 Toy.args_long Toy.call_diverse = Ok Toy.result_long /\
  Forall (fun v => head (v_yseq v) = Some (y_sos Toy.plain) /\
                   head (v_yseq_asr v) = Some (y_asr_sos Toy.plain))
    Toy.result_long.
Proof.
  assert (Hr : recognize_and_translate_sum Toy.plain Toy.enc_len Toy.decoder
                 Toy.never_end 3 Toy.args_long Toy.call_diverse
               = Ok Toy.result_long)
    by (vm_compute; reflexivity).
  split; [exact Hr|].
  exact (returned_sequences_begin_with_sos Toy.plain Toy.enc_len Toy.decoder
           Toy.never_end 3 Toy.args_long Toy.call_diverse Toy.result_long Hr).
Defined.

Lemma ended_stream_below_lag_raises_witness :
  loop Toy.held Toy.enc_len Toy.decoder Toy.never_end Toy.args Toy.call 3 0
    (init_state Toy.held) = Ok (Toy.held_after 3) /\
  (exists e, step Toy.held Toy.enc_len Toy.decoder Toy.never_end Toy.args
               Toy.call 3 (Toy.held_after 3) = Err e) /\
  step Toy.held Toy.enc_len Toy.decoder Toy.never_end Toy.args Toy.call 3
    (Toy.held_after 3) = Err NotImplementedError.
Proof.
  split; [vm_compute; reflexivity|].
  destruct (ended_stream_below_lag_raises Toy.held Toy.enc_len Toy.decoder
              Toy.never_end Toy.args Toy.call 3 (Toy.held_after 3) 7%nat
              (Hyp (-3 # 1) 8 1) [2; 0; 0; 2] [1]) as [He Hh].
  - vm_compute. left.
  - vm_compute. reflexivity.
  - vm_compute. reflexivity.
  - vm_compute. reflexivity.
  - reflexivity.
  - reflexivity.
  - lia.
  - left. split; [reflexivity|]. split; [discriminate|].
    vm_compute. reflexivity.
  - split; [exact He|]. apply Hh. vm_compute. reflexivity.
Defined.

Lemma select_joint_pairs_witness :
  select_joint (1 # 4) 0 2 [-1 # 1; -2 # 1; -4 # 1]%Q
    [-1 # 1; -3 # 1; -2 # 1]%Q
  = Ok (Selection [-2 # 1; -3 # 1]%Q [0; 1] [0; 0]) /\
  forall j s a b,
    [-2 # 1; -3 # 1]%Q !! j = Some s ->
    [0; 1] !! j = Some a -> [0; 0] !! j = Some b ->
    exists x y,
      0 <= a /\ 0 <= b /\
      [-1 # 1; -2 # 1; -4 # 1]%Q !! Z.to_nat a = Some x /\
      [-1 # 1; -3 # 1; -2 # 1]%Q !! Z.to_nat b = Some y /\
      s = (x + y)%Q.
Proof.
  assert (H : select_joint (1 # 4) 0 2 [-1 # 1; -2 # 1; -4 # 1]%Q
                [-1 # 1; -3 # 1; -2 # 1]%Q
              = Ok (Selection [-2 # 1; -3 # 1]%Q [0; 1] [0; 0]))
    by (vm_compute; reflexivity).
  split; [exact H|].
  exact (proj2 (proj2 (proj2 (proj2
           (select_joint_pairs (1 # 4) 0 2 [-1 # 1; -2 # 1; -4 # 1]%Q
              [-1 # 1; -3 # 1; -2 # 1]%Q
              (Selection [-2 # 1; -3 # 1]%Q [0; 1] [0; 0]) H))))).
Defined.

Lemma select_joint_default_succeeds_witness :
  exists sel,
    select_joint 0 0 2 [-1 # 1; -2 # 1; -4 # 1]%Q [-1 # 1; -3 # 1; -2 # 1]%Q
    = Ok sel.
Proof.
  apply (select_joint_default_succeeds 0 0 2 [-1 # 1; -2 # 1; -4 # 1]%Q
           [-1 # 1; -3 # 1; -2 # 1]%Q).
  - vm_compute. discriminate.
  - vm_compute. discriminate.
  - lia.
  - simpl. lia.
  - simpl. lia.
Defined.

Lemma verified_update_overrides_selected_witness :
  od_update ToyInit.main
    (get_partial_state_dict ToyInit.trained ["encoder."%string]) =
    ToyInit.main_updated /\
  keys (od_update ToyInit.main
          (get_partial_state_dict ToyInit.trained ["encoder."%string])) =
  keys ToyInit.main.
Proof.
  split; [vm_compute; reflexivity|].
  apply (verified_update_overrides_selected ToyInit.main ToyInit.trained
           ["encoder."%string]).
  - vm_compute. apply NoDup_cons_2.
    + intros H. apply elem_of_cons in H as [H|H];
        [discriminate H | now apply not_elem_of_nil in H].
    + apply NoDup_cons_2; [apply not_elem_of_nil | apply NoDup_nil_2].
  - vm_compute. reflexivity.
Defined.

Lemma dual_decoders_update_keeps_keys_witness :
  get_partial_state_dict_dual_decoders ToyInit.trained_single
    ["decoder."%string] =
    (ToyInit.partial_dual,
     ["dual_decoder.dual_decoders.0.self_attn.w"%string]) /\
  keys (od_update ToyInit.main_dual ToyInit.partial_dual) =
  keys ToyInit.main_dual.
Proof.
  assert (H : get_partial_state_dict_dual_decoders ToyInit.trained_single
                ["decoder."%string] =
              (ToyInit.partial_dual,
               ["dual_decoder.dual_decoders.0.self_attn.w"%string]))
    by (vm_compute; reflexivity).
  split; [exact H|].
  apply (dual_decoders_update_keeps_keys ToyInit.main_dual
           ToyInit.trained_single ToyInit.partial_dual ["decoder."%string]
           ["dual_decoder.dual_decoders.0.self_attn.w"%string] true H).
  vm_compute. reflexivity.
Defined.

Lemma check_parameters_accepts_witness :
  Init.check_parameters ToyInit.configuration = Ok tt /\
  (Init.wait_k_asr ToyInit.configuration = 0 \/
   Init.wait_k_st ToyInit.configuration = 0) /\
  (0 < Init.cross_weight ToyInit.configuration)%Q.
Proof.
  assert (H : Init.check_parameters ToyInit.configuration = Ok tt)
    by (vm_compute; reflexivity).
  split; [exact H|].
  destruct (check_parameters_accepts ToyInit.configuration H)
    as ((_ & _ & Hw) & _ & _ & Hsum & _).
  split; [exact Hw | apply Hsum; reflexivity].
Defined.
